(** * turbulence_models: a shallow embedding of the two plasma models

    The development follows [turbulence_models/hasegawa_mima.py] and
    [turbulence_models/hole_clump.py].  Floating-point numbers are read as
    exact rationals ([Q]), so rounding, NaN and infinities are outside the
    model; complex numbers are pairs of rationals.  NumPy
    arrays are nested lists in row-major order, Python exceptions are the
    left summand of the [py] monad, and the [OdeResult] dictionary of
    [scipy.integrate.solve_ivp] is a [gmap] with string keys. *)

From Stdlib Require Import ZArith QArith Qabs Lia Lqa List String.
From Stdlib Require Floats.
From stdpp Require Import base option list strings gmap.
Import ListNotations.

Local Open Scope Q_scope.

(** ** Python exceptions and the exception monad *)

Inductive exn : Type :=
| AssertionError (site : string)
| ValueError (msg : string)
| IndexError
| KeyError (key : string)
| TypeError (msg : string)
| AttributeError (name : string)
| IntegratorError (msg : string).

Definition py (A : Type) : Type := (exn + A)%type.

Definition ret {A : Type} (a : A) : py A := inr a.
Definition raise {A : Type} (e : exn) : py A := inl e.

Definition bind {A B : Type} (m : py A) (k : A -> py B) : py B :=
  match m with
  | inl e => inl e
  | inr a => k a
  end.

Notation "'do' x <- m ; k" := (bind m (fun x => k))
  (at level 10, x pattern, m at level 100, k at level 200).

Definition py_assert (b : bool) (site : string) : py unit :=
  if b then ret tt else raise (AssertionError site).

Fixpoint foldM {A S : Type} (f : S -> A -> py S) (l : list A) (s : S) : py S :=
  match l with
  | [] => ret s
  | a :: l' => do s' <- f s a; foldM f l' s'
  end.

Fixpoint mapM_py {A B : Type} (f : A -> py B) (l : list A) : py (list B) :=
  match l with
  | [] => ret []
  | a :: l' => do b <- f a; do bs <- mapM_py f l'; ret (b :: bs)
  end.

(** [enumerate l] pairs every element with its position. *)
Definition enumerate {A : Type} (l : list A) : list (nat * A) :=
  zip (seq 0 (length l)) l.

(** ** Complex numbers over the rationals *)

Definition C : Type := (Q * Q)%type.

Definition RtoC (r : Q) : C := (r, 0).
Definition Ci_neg : C := (0, -(1)).            (* the literal -1.0j *)
Definition Cadd (z w : C) : C := (fst z + fst w, snd z + snd w).
Definition Cmul (z w : C) : C :=
  (fst z * fst w - snd z * snd w, fst z * snd w + snd z * fst w).
Definition Cconj (z : C) : C := (fst z, - snd z).
Definition Cdiv (z w : C) : C :=
  let d := fst w * fst w + snd w * snd w in
  ((fst z * fst w + snd z * snd w) / d, (snd z * fst w - fst z * snd w) / d).
Definition Ceq (z w : C) : Prop := fst z == fst w /\ snd z == snd w.
Definition Csum (l : list C) : C := fold_left Cadd l (RtoC 0).

(** ** The NumPy primitives the two models use *)

Module np.

(** The position a Python integer index [i] denotes in a sequence of
    length [n]: negative indices count from the end, anything outside
    [-n, n) raises [IndexError]. *)
Definition norm_index (n : nat) (i : Z) : py nat :=
  let i' := if (i <? 0)%Z then (Z.of_nat n + i)%Z else i in
  if ((0 <=? i') && (i' <? Z.of_nat n))%Z then ret (Z.to_nat i')
  else raise IndexError.

(** [a[i]] for a Python integer [i]. *)
Definition getitem {A : Type} (a : list A) (i : Z) : py A :=
  do p <- norm_index (length a) i;
  match a !! p with
  | Some x => ret x
  | None => raise IndexError
  end.

(** [a[idx]] for an integer array [idx] (fancy indexing). *)
Definition take {A : Type} (a : list A) (idx : list Z) : py (list A) :=
  mapM_py (getitem a) idx.

(** [a[ix, iy]] for two integer arrays of the same shape. *)
Definition take2 {A : Type} (a : list (list A)) (ix iy : list Z) : py (list A) :=
  mapM_py (fun p => do row <- getitem a (fst p); getitem row (snd p)) (zip ix iy).

(** [a[IX, IY]] for two three-dimensional integer arrays. *)
Definition take2_3d {A : Type} (a : list (list A))
    (IX IY : list (list (list Z))) : py (list (list (list A))) :=
  mapM_py (fun pl => mapM_py (fun rw => take2 a (fst rw) (snd rw))
                             (zip (fst pl) (snd pl)))
          (zip IX IY).

(** [row[j] = vals] for an integer array [j]: one store per position. *)
Definition setitem {A : Type} (row : list A) (j : list Z) (vals : list A)
  : py (list A) :=
  foldM (fun r p => do i <- norm_index (length r) (fst p);
                    ret (<[i := snd p]> r))
        (zip j vals) row.

(** [a[ix, iy, j] = vals]. *)
Definition setitem3 {A : Type} (a : list (list (list A))) (ix iy : nat)
    (j : list Z) (vals : list A) : py (list (list (list A))) :=
  do plane <- getitem a (Z.of_nat ix);
  do row <- getitem plane (Z.of_nat iy);
  do row' <- setitem row j vals;
  ret (<[ix := <[iy := row']> plane]> a).

Definition zeros3 {A : Type} (z : A) (n0 n1 n2 : nat) : list (list (list A)) :=
  replicate n0 (replicate n1 (replicate n2 z)).

(** [np.arange(n)] as integers. *)
Definition arange (n : nat) : list Z := map Z.of_nat (seq 0 n).

(** [np.linspace(start, stop, num)] with the default [endpoint=True]:
    [arange(num) * step + start], the last sample overwritten by [stop]. *)
Definition linspace (start stop : Q) (num : Z) : py (list Q) :=
  if (num <? 0)%Z then raise (ValueError "Number of samples must be non-negative")
  else
    let n := Z.to_nat num in
    match n with
    | O => ret []
    | S O => ret [start]
    | S m =>
        let step := (stop - start) / inject_Z (Z.of_nat m) in
        ret (map (fun i => inject_Z (Z.of_nat i) * step + start) (seq 0 m)
               ++ [stop])
    end.

(** [np.meshgrid(xs, ys)] with the default ['xy'] indexing: both outputs
    have shape [(len ys, len xs)]. *)
Definition meshgrid {A : Type} (xs ys : list A)
  : list (list A) * list (list A) :=
  (map (fun _ => xs) ys, map (fun y => map (fun _ => y) xs) ys).

(** [np.stack([a, b], axis=-1)] for two matrices. *)
Definition stack_last {A : Type} (ab : list (list A) * list (list A))
  : list (list (list A)) :=
  zip_with (zip_with (fun x y => [x; y])) (fst ab) (snd ab).

(** [np.sum] of a vector. *)
Definition sum (l : list Q) : Q := fold_left Qplus l 0.

Definition shape2 {A : Type} (a : list (list A)) : nat * nat :=
  (length a, match a with [] => O | r :: _ => length r end).

(** [np.where(c, x, y)] with a scalar [y]. *)
Definition where_ {A : Type} (c : list bool) (x : list A) (y : A) : list A :=
  zip_with (fun (b : bool) v => if b then v else y) c x.

Definition rtol : Q := 1 # 100000.
Definition atol : Q := 1 # 100000000.

(** [np.allclose(a, b)] against a scalar [b], default tolerances.  On
    rationals the comparison is exact: the rounding errors that the sums of
    the sanity check carry in IEEE arithmetic are not part of this
    reading. *)
Definition allclose (a : list Q) (b : Q) : bool :=
  forallb (fun x => Qle_bool (Qabs (x - b)) (atol + rtol * Qabs b)) a.

(** [np.diff] and [np.mean] of a vector.  The mean of an empty vector is
    NaN in NumPy; on rationals the quotient [0 / 0] is 0, so the spacing of
    a grid of fewer than two points has no meaning here, and the statements
    that divide by a spacing assume that it is not zero. *)
Definition diff (l : list Q) : list Q := zip_with Qminus (tail l) l.
Definition mean (l : list Q) : Q := sum l / inject_Z (Z.of_nat (length l)).

(** Slices [a[n:]], [a[:-n]] and [a[1:-1]]. *)
Definition from {A : Type} (n : nat) (a : list A) : list A := skipn n a.
Definition upto_last {A : Type} (n : nat) (a : list A) : list A :=
  firstn (length a - n) a.
Definition strip {A : Type} (a : list A) : list A := upto_last 1 (from 1 a).

(** [np.pad(a, [(1, 1), (0, 0)], 'wrap')]: one periodic ghost row on each
    side; an empty axis cannot be extended. *)
Definition pad_wrap_rows {A : Type} (a : list (list A)) : py (list (list A)) :=
  match a, last a with
  | first :: _, Some final => ret (final :: a ++ [first])
  | _, _ => raise (ValueError "can't extend empty axis 0")
  end.

(** [np.pad(a, [(0, 0), (1, 1)], 'constant', constant_values=c)]. *)
Definition pad_const_cols {A : Type} (c : A) (a : list (list A))
  : list (list A) :=
  map (fun r => c :: r ++ [c]) a.

(** Split a flat vector in [n] consecutive rows of [m] entries. *)
Fixpoint rows {A : Type} (n m : nat) (l : list A) : list (list A) :=
  match n with
  | O => []
  | S n' => firstn m l :: rows n' m (skipn m l)
  end.

(** [a.reshape(n, m)] of a flat vector: the sizes must agree. *)
Definition reshape2 {A : Type} (l : list A) (n m : nat) : py (list (list A)) :=
  if Nat.eqb (length l) (n * m) then ret (rows n m l)
  else raise (ValueError "cannot reshape array").

End np.

(** ** Values stored in result records, and the two external collaborators *)

Record ndarray (A : Type) : Type := mk_nd {
  nd_shape : list nat;
  nd_data : list A
}.
Arguments mk_nd {A} _ _.
Arguments nd_shape {A} _.
Arguments nd_data {A} _.

(** A one-dimensional array. *)
Definition vector {A : Type} (l : list A) : ndarray A := mk_nd [length l] l.

(** A two-dimensional array given by its rows, all of length [m]. *)
Definition matrix {A : Type} (m : nat) (a : list (list A)) : ndarray A :=
  mk_nd [length a; m] (concat a).

Inductive value : Type :=
| VInt (z : Z)
| VBool (b : bool)
| VStr (s : string)
| VReal (a : ndarray Q)
| VComplex (a : ndarray C).

Definition value_shape (v : value) : py (list nat) :=
  match v with
  | VReal a => ret (nd_shape a)
  | VComplex a => ret (nd_shape a)
  | _ => raise (TypeError "not an array")
  end.

(** [len(v)]: the first dimension of an array, the number of characters
    of a string; integers and booleans have no length. *)
Definition value_len (v : value) : py nat :=
  match v with
  | VStr s => ret (String.length s)
  | _ =>
      do s <- value_shape v;
      match s with
      | n :: _ => ret n
      | [] => raise (TypeError "len() of unsized object")
      end
  end.

Definition nd_reshape {A : Type} (a : ndarray A) (s : list nat) : py (ndarray A) :=
  if Nat.eqb (length (nd_data a)) (fold_right Nat.mul 1%nat s)
  then ret (mk_nd s (nd_data a))
  else raise (ValueError "cannot reshape array").

Definition value_reshape (v : value) (s : list nat) : py value :=
  match v with
  | VReal a => do a' <- nd_reshape a s; ret (VReal a')
  | VComplex a => do a' <- nd_reshape a s; ret (VComplex a')
  | _ => raise (TypeError "not an array")
  end.

(** [v.reshape]: the attribute lookup, which Python performs before it
    evaluates the arguments of the call; only arrays have the method. *)
Definition value_getattr_reshape (v : value) : py (list nat -> py value) :=
  match v with
  | VReal _ | VComplex _ => ret (value_reshape v)
  | _ => raise (AttributeError "reshape")
  end.

(** [d[key]] on a dictionary. *)
Definition dict_getitem (d : gmap string value) (key : string) : py value :=
  match d !! key with
  | Some v => ret v
  | None => raise (KeyError key)
  end.

(** [scipy.integrate.solve_ivp(fun, t_span, y0, **kwargs)]: an external
    routine returning the result dictionary. *)
Definition integrator (A : Type) : Type :=
  (Q -> list A -> py (list A)) -> Q * Q -> list A -> gmap string value ->
  py (gmap string value).

(** Code that is handed a result object by reference runs in a state
    monad over that object; the state survives an exception. *)
Definition obj (A : Type) : Type :=
  gmap string value -> py A * gmap string value.

Definition obj_ret {A : Type} (a : A) : obj A := fun d => (ret a, d).
Definition obj_bind {A B : Type} (m : obj A) (k : A -> obj B) : obj B :=
  fun d => match m d with
           | (inl e, d') => (inl e, d')
           | (inr a, d') => k a d'
           end.
Definition obj_getitem (key : string) : obj value :=
  fun d => (dict_getitem d key, d).
Definition obj_setitem (key : string) (v : value) : obj unit :=
  fun d => (ret tt, <[key := v]> d).

Notation "'doo' x <- m ; k" := (obj_bind m (fun x => k))
  (at level 10, x pattern, m at level 100, k at level 200).

(** [xarray.Dataset(data_vars, coords, attrs)]: a data variable is either a
    pair of dimension names and data or a bare value.  The record keeps the
    three arguments as they are passed.  The checks [xarray] runs on them
    (one dimension name per axis, one size per dimension name, no bare
    array of several dimensions) are not modelled, so a statement about a
    dataset is a statement about the calls that return one. *)
Inductive variable : Type :=
| WithDims (dims : list string) (data : value)
| Bare (data : value).

Record Dataset : Type := xr_Dataset {
  data_vars : gmap string variable;
  coords : gmap string value;
  attrs : gmap string value
}.

(** ** The spectral three-wave model, [hasegawa_mima.py] *)

Module HasegawaMimaFourier.

Record t : Type := mk {
  kx : list Q;
  ky : list Q;
  k : list (list (list Q));
  k2 : list (list Q);
  mat : list (list (list Q));
  index_px : list (list (list Z));
  index_py : list (list (list Z));
  index_qx : list (list (list Z));
  index_qy : list (list (list Z))
}.

Definition shape (self : t) : nat * nat := np.shape2 (k2 self).

(** The five arrays the double loop of [_setup] fills in place. *)
Record tensors : Type := mk_tensors {
  t_mat : list (list (list Q));
  t_px : list (list (list Z));
  t_py : list (list (list Z));
  t_qx : list (list (list Z));
  t_qy : list (list (list Z))
}.

(** [jx, jy]: the raveled broadcast of [arange(nx)[:, newaxis]] against
    [arange(ny)]. *)
Definition partner_jx (nx ny : nat) : list Z :=
  concat (map (fun a => replicate ny a) (np.arange nx)).
Definition partner_jy (nx ny : nat) : list Z :=
  concat (map (fun _ => np.arange ny) (np.arange nx)).

(** The body of the double loop for one target [(ix, iy)], lines 38-63. *)
Definition loop_body (kxs kys : list Q) (k2s : list (list Q))
    (ix : nat) (kxv : Q) (iy : nat) (kyv : Q) (st : tensors) : py tensors :=
  let nx := Z.of_nat (length kxs) in
  let ny := Z.of_nat (length kys) in
  let half_x := ((nx - 1) / 2)%Z in
  let half_y := ((ny - 1) / 2)%Z in
  let jx := partner_jx (length kxs) (length kys) in
  let jy := partner_jy (length kxs) (length kys) in
  let j := zip_with (fun a b => (a * ny + b)%Z) jx jy in
  do px <- np.setitem3 (t_px st) ix iy j jx;
  do py_ <- np.setitem3 (t_py st) ix iy j jy;
  let lx := map (fun a => (3 * half_x - Z.of_nat ix - a)%Z) jx in
  let ly := map (fun b => (3 * half_y - Z.of_nat iy - b)%Z) jy in
  let l := zip_with (fun a b => (a * ny + b)%Z) lx ly in
  let valid_x := map (fun l => ((0 <=? l) && (l <? nx))%Z) lx in
  let valid_y := map (fun l => ((0 <=? l) && (l <? ny))%Z) ly in
  let lx := np.where_ valid_x lx 0%Z in
  let ly := np.where_ valid_y ly 0%Z in
  do qxi <- np.setitem3 (t_qx st) ix iy j (np.where_ valid_x lx 0%Z);
  do qyi <- np.setitem3 (t_qy st) ix iy j (np.where_ valid_y ly 0%Z);
  do qx <- np.take kxs lx;
  do qy <- np.take kys ly;
  do q2 <- np.take2 k2s lx ly;
  do kxj <- np.take kxs jx;
  do kyj <- np.take kys jy;
  let valid := zip_with andb valid_x valid_y in
  let coef :=
    zip_with (fun ab q2v => ab * q2v)
      (zip_with Qminus (zip_with Qmult kxj qy) (zip_with Qmult kyj qx)) q2 in
  do m <- np.setitem3 (t_mat st) ix iy j (np.where_ valid coef 0);
  let kxsum :=
    np.where_ valid (zip_with Qplus (map (fun a => kxv + a) kxj) qx) 0 in
  do _ <- py_assert (np.allclose kxsum 0) "kxsum";
  let kysum :=
    np.where_ valid (zip_with Qplus (map (fun a => kyv + a) kyj) qy) 0 in
  do _ <- py_assert (np.allclose kysum 0) "kysum";
  ret (mk_tensors m px py_ qxi qyi).

Definition _setup (kxs kys : list Q) : py t :=
  let k := np.stack_last (np.meshgrid kys kxs) in
  let k2 := map (map (fun kv => np.sum (map (fun c => c * c) kv))) k in
  let nx := length kxs in
  let ny := length kys in
  let st0 := mk_tensors (np.zeros3 0 nx ny (nx * ny))
               (np.zeros3 0%Z nx ny (nx * ny)) (np.zeros3 0%Z nx ny (nx * ny))
               (np.zeros3 0%Z nx ny (nx * ny)) (np.zeros3 0%Z nx ny (nx * ny)) in
  do st <- foldM (fun st xe =>
                    foldM (fun st ye =>
                             loop_body kxs kys k2 (fst xe) (snd xe)
                               (fst ye) (snd ye) st)
                          (enumerate kys) st)
                 (enumerate kxs) st0;
  ret (mk kxs kys k k2 (t_mat st) (t_px st) (t_py st) (t_qx st) (t_qy st)).

Definition __init__ (kmax : Q) (nx ny : Z) : py t :=
  do _ <- py_assert (nx mod 2 =? 1)%Z "nx % 2 == 1";
  do _ <- py_assert (ny mod 2 =? 1)%Z "ny % 2 == 1";
  do kxs <- np.linspace (- kmax) kmax nx;
  do kys <- np.linspace (- kmax) kmax ny;
  _setup kxs kys.

(** The derivative closure [dfdt] of [solve], lines 70-79. *)
Definition dfdt (self : t) (t_ : Q) (phi : list C) : py (list C) :=
  do phi <- np.reshape2 phi (fst (shape self)) (snd (shape self));
  let phic := map (map Cconj) phi in
  do pp <- np.take2_3d phic (index_px self) (index_py self);
  do qq <- np.take2_3d phic (index_qx self) (index_qy self);
  let lin :=
    map (zip_with Cmul (map (fun kyv => Cmul Ci_neg (RtoC kyv)) (ky self))) phi in
  let prod :=
    zip_with (zip_with (zip_with Cmul))
      (zip_with (zip_with (zip_with (fun m p => Cmul (RtoC m) p))) (mat self) pp)
      qq in
  let dphi_dt := zip_with (zip_with Cadd) lin (map (map Csum) prod) in
  ret (concat (zip_with (zip_with (fun z d => Cdiv z (RtoC (1 + d))))
                 dphi_dt (k2 self))).

(** [solve]: the integrator is the external collaborator
    [scipy.integrate.solve_ivp], taken as an argument.  Line 82 evaluates
    [result["y"].reshape] first, then [self.shape], [result["t"]] and its
    length, and calls the method last. *)
Definition solve (solve_ivp : integrator C) (self : t) (t_span : Q * Q)
    (phiinit : ndarray C) (kwargs : gmap string value) : py (gmap string value) :=
  do result <- solve_ivp (dfdt self) t_span (nd_data phiinit) kwargs;
  do y <- dict_getitem result "y";
  do reshape <- value_getattr_reshape y;
  do ts <- dict_getitem result "t";
  do n <- value_len ts;
  do y' <- reshape [fst (shape self); snd (shape self); n];
  ret (<["y" := y']> result).

(** [to_xarray], lines 85-100: reads four entries of [result]. *)
Definition to_xarray (self : t) : obj Dataset :=
  doo y <- obj_getitem "y";
  doo status <- obj_getitem "status";
  doo message <- obj_getitem "message";
  doo success <- obj_getitem "success";
  doo ts <- obj_getitem "t";
  obj_ret (xr_Dataset
             (<["success" := Bare success]>
                (<["message" := Bare message]>
                   (<["status" := Bare status]>
                      (<["phi" := WithDims ["kx"; "ky"; "time"] y]> ∅))))
             (<["time" := ts]>
                (<["ky" := VReal (vector (ky self))]>
                   (<["kx" := VReal (vector (kx self))]> ∅)))
             ∅).

End HasegawaMimaFourier.


(** ** The phase-space hole/clump model, [hole_clump.py] *)

Module HoleClump.

Definition eps0 : Q := 8.85418782e-12.
Definition e : Q := 1.60217662e-19.
Definition me : Q := 9.10938356e-31.

(** [nx] and [nv] are kept as naturals: [np.linspace] rejects a negative
    count, so no instance with a negative one exists. *)
Record t : Type := mk {
  nx : nat;
  nv : nat;
  x : list Q;
  dx : Q;
  v : list Q;
  dv : Q;
  eps0_ : Q;
  nu : Q;
  ne : Q;
  omega_p : Q
}.

(** [np.sqrt] has no rational counterpart and is an argument. *)
Definition __init__ (sqrt : Q -> Q) (xmax vmax : Q) (nx nv : Z) (nu ne : Q)
  : py t :=
  do xs <- np.linspace (- xmax) xmax nx;
  let dx := np.mean (np.diff xs) in
  do vs <- np.linspace (- vmax) vmax nv;
  let dv := np.mean (np.diff vs) in
  ret (mk (Z.to_nat nx) (Z.to_nat nv) xs dx vs dv eps0 nu ne
          (sqrt (ne * (e * e) / (me * eps0)))).

(** [_encode(f)] with [include_time=False]. *)
Definition _encode {A : Type} (self : t) (f : list A)
  : py (list (list A) * A * A) :=
  do F <- np.reshape2 (firstn (nx self * nv self) f) (nx self) (nv self);
  do V <- np.getitem f (Z.of_nat (nx self * nv self));
  do E <- np.getitem f (Z.of_nat (nx self * nv self + 1));
  ret (F, V, E).

(** [_encode(f, include_time=True)] on an array of shape
    [(n, d, ...)], in row-major order: the leading block [f[:nx*nv, :]]
    reshaped to [(nx, nv, -1)], then the two sub-arrays [f[nx*nv]] and
    [f[nx*nv + 1]] of shape [(d, ...)].  The two-item index needs at least
    two axes; [reshape] infers the last size when [nx*nv] is not zero and
    divides the number of entries. *)
Definition _encode_time {A : Type} (self : t) (f : ndarray A)
  : py (ndarray A * ndarray A * ndarray A) :=
  match nd_shape f with
  | n :: d :: rest =>
      let n0 := (nx self * nv self)%nat in
      let inner := fold_right Nat.mul 1%nat (d :: rest) in
      let size := (Nat.min n0 n * inner)%nat in
      let row i :=
        mk_nd (d :: rest) (firstn inner (skipn (i * inner) (nd_data f))) in
      if (Nat.eqb n0 0 || negb (Nat.eqb (size mod n0) 0))%bool
      then raise (ValueError "cannot reshape array")
      else if negb (Nat.ltb n0 n) then raise IndexError
      else if negb (Nat.ltb (n0 + 1) n) then raise IndexError
      else ret (mk_nd [nx self; nv self; (size / n0)%nat]
                  (firstn size (nd_data f)),
                row n0, row (n0 + 1)%nat)
  | _ => raise IndexError
  end.

(** [_encode(y, include_time=True)] on an entry of the result record:
    arrays of either element type are decoded, anything else cannot be
    indexed by [[:n, :]]. *)
Definition _encode_value (self : t) (y : value) : py (value * value * value) :=
  match y with
  | VReal a =>
      do FVE <- _encode_time self a;
      ret (VReal (fst (fst FVE)), VReal (snd (fst FVE)), VReal (snd FVE))
  | VComplex a =>
      do FVE <- _encode_time self a;
      ret (VComplex (fst (fst FVE)), VComplex (snd (fst FVE)), VComplex (snd FVE))
  | VStr _ => raise (TypeError "string indices must be integers")
  | _ => raise (TypeError "object is not subscriptable")
  end.

(** The derivative closure [dfdt] of [solve], lines 49-62; [coef] is the
    variable it captures. *)
Definition dfdt (self : t) (coef : Q) (t_ : Q) (f : list Q) : py (list Q) :=
  do fVE <- _encode self f;
  let f := fst (fst fVE) in
  let V := snd (fst fVE) in
  let E := snd fVE in
  do fw <- np.pad_wrap_rows f;
  let f_pad := np.pad_const_cols 0 fw in
  let dfdx :=
    map (map (fun d => d / (2 * dx self)))
      (zip_with (zip_with Qminus)
         (map np.strip (np.from 2 f_pad)) (map np.strip (np.upto_last 2 f_pad))) in
  let dfdv :=
    map (map (fun d => d / (2 * dv self)))
      (zip_with (zip_with Qminus)
         (map (np.from 2) (np.strip f_pad))
         (map (np.upto_last 2) (np.strip f_pad))) in
  let dfdt_ :=
    zip_with (zip_with Qplus)
      (map (zip_with Qmult (map Qopp (v self))) dfdx)
      (map (map (Qmult E)) dfdv) in
  let dvdt := - E - nu self * V in
  let dEdt :=
    coef * (ne self * V
            + np.sum (concat (map (fun r => zip_with Qmult r (v self)) f))
              * dv self) in
  ret (concat dfdt_ ++ [dvdt] ++ [dEdt]).

Definition shape_eqb (s1 s2 : list nat) : bool :=
  bool_decide (s1 = s2).

(** The packing step of [solve], line 64:
    [np.concatenate([finit.ravel(), [vinit], [einit]])]. *)
Definition pack {A : Type} (finit : ndarray A) (vinit einit : A) : list A :=
  nd_data finit ++ [vinit] ++ [einit].

(** [coef = e**2 / me / eps0], line 47. *)
Definition coef : Q := e * e / me / eps0.

Definition solve (solve_ivp : integrator Q) (self : t) (t_span : Q * Q)
    (finit : ndarray Q) (vinit einit : Q) (kwargs : gmap string value)
  : py (gmap string value) :=
  do _ <- py_assert (shape_eqb (nd_shape finit) [nx self; nv self])
            "finit.shape == (self.nx, self.nv)";
  let finit := pack finit vinit einit in
  do result <- solve_ivp (dfdt self coef) t_span finit kwargs;
  do y <- dict_getitem result "y";
  do FVE <- _encode_value self y;
  ret (<["E" := snd FVE]>
         (<["V" := snd (fst FVE)]>
            (<["f" := fst (fst FVE)]> result))).

(** [to_xarray], lines 71-88: reads seven entries of [result]. *)
Definition to_xarray (self : t) : obj Dataset :=
  doo F <- obj_getitem "f";
  doo V <- obj_getitem "V";
  doo E <- obj_getitem "E";
  doo status <- obj_getitem "status";
  doo message <- obj_getitem "message";
  doo success <- obj_getitem "success";
  doo ts <- obj_getitem "t";
  obj_ret (xr_Dataset
             (<["success" := Bare success]>
                (<["message" := Bare message]>
                   (<["status" := Bare status]>
                      (<["E" := WithDims ["time"] E]>
                         (<["V" := WithDims ["time"] V]>
                            (<["F" := WithDims ["x"; "v"; "time"] F]> ∅))))))
             (<["time" := ts]>
                (<["v" := VReal (vector (v self))]>
                   (<["x" := VReal (vector (x self))]> ∅)))
             ∅).

End HoleClump.

(** * Specification-side definitions and sample data *)

Definition model_2x3 : HoleClump.t :=
  HoleClump.mk 2 3 [-(1); 1] 2 [-(1); 0; 1] 1 HoleClump.eps0 1 1 1.

(** An integrator that always fails with its own error. *)
Definition failing_ivp : integrator Q :=
  fun _ _ _ _ => raise (IntegratorError "failed").

(** A result record as [solve_ivp] and the two [solve] methods leave it. *)
Definition sample_result : gmap string value :=
  <["t" := VReal (vector [0; 1])]>
    (<["y" := VComplex (mk_nd [1%nat; 1%nat; 2%nat] [(1, 1); (1, 1)])]>
       (<["f" := VReal (mk_nd [1%nat; 1%nat; 2%nat] [1; 1])]>
          (<["V" := VReal (vector [0; 0])]>
             (<["E" := VReal (vector [0; 0])]>
                (<["status" := VInt 0]>
                   (<["message" := VStr "done"]>
                      (<["success" := VBool true]> ∅))))))).

Definition sample_hm : HasegawaMimaFourier.t :=
  HasegawaMimaFourier.mk [0] [0] [[[0; 0]]] [[0]] [[[0]]]
    [[[0%Z]]] [[[0%Z]]] [[[0%Z]]] [[[0%Z]]].

Definition sample_hc : HoleClump.t :=
  HoleClump.mk 1 1 [0] 0 [0] 0 HoleClump.eps0 1 1 1.

(** The reading of C9 the code does not follow: the three integrator
    fields are dataset attributes and not data variables. *)
Definition status_as_attrs (result : gmap string value) (ds : Dataset) : Prop :=
  attrs ds !! "status" = result !! "status"
  /\ attrs ds !! "message" = result !! "message"
  /\ attrs ds !! "success" = result !! "success"
  /\ data_vars ds !! "status" = None
  /\ data_vars ds !! "message" = None
  /\ data_vars ds !! "success" = None.


(** The value of a padded row at column [j], [-1 <= j <= length r]: zero in
    the two ghost cells. *)
Definition col (r : list Q) (j : Z) : Q :=
  if ((j <? 0) || (Z.of_nat (length r) <=? j))%Z then 0
  else nth (Z.to_nat j) r 0.

(** The ghost-cell view of [F] the specification describes: periodic in
    the spatial index, constant zero beyond the velocity range. *)
Definition ghost (F : list (list Q)) (i j : Z) : Q :=
  col (nth (Z.to_nat (i mod Z.of_nat (length F))) F []) j.

(** Centered differences over the ghost-cell view, and the right-hand
    side of the distribution equation, as the specification writes them. *)
Definition dFdx_spec (self : HoleClump.t) (F : list (list Q)) (ix iv : nat) : Q :=
  (ghost F (Z.of_nat ix + 1) (Z.of_nat iv) - ghost F (Z.of_nat ix - 1) (Z.of_nat iv))
  / (2 * HoleClump.dx self).

Definition dFdv_spec (self : HoleClump.t) (F : list (list Q)) (ix iv : nat) : Q :=
  (ghost F (Z.of_nat ix) (Z.of_nat iv + 1) - ghost F (Z.of_nat ix) (Z.of_nat iv - 1))
  / (2 * HoleClump.dv self).

Definition dFdt_spec (self : HoleClump.t) (F : list (list Q)) (E : Q)
    (ix iv : nat) : Q :=
  - nth iv (HoleClump.v self) 0 * dFdx_spec self F ix iv
  + E * dFdv_spec self F ix iv.

(** The moment of the field equation as the specification writes it,
    [sum_x (F . v)]: the sum over the spatial axis of the product of the
    row [F[ix, :]] with the velocity grid. *)
Definition moment_all (self : HoleClump.t) (F : list (list Q)) : Q :=
  np.sum (map (fun r => np.sum (zip_with Qmult r (HoleClump.v self))) F).

(** One row of the distribution derivative, in terms of the rows of [F]
    the stencil reads. *)
Definition dfdt_row (self : HoleClump.t) (E : Q) (rnext rprev rcur : list Q)
  : list Q :=
  zip_with Qplus
    (zip_with Qmult (map Qopp (HoleClump.v self))
       (map (fun d => d / (2 * HoleClump.dx self)) (zip_with Qminus rnext rprev)))
    (map (Qmult E)
       (map (fun d => d / (2 * HoleClump.dv self))
          (zip_with Qminus (np.from 2 (0 :: rcur ++ [0]))
             (np.upto_last 2 (0 :: rcur ++ [0]))))).


(** ** Pointwise reading of the coupling tensor

    For a target [(ix, iy)] and a flat partner index [j], the quantities
    the loop of [_setup] computes for the whole row at once. *)

Section Triads.

Variables (kxs kys : list Q) (k2s : list (list Q)).

Definition nxZ : Z := Z.of_nat (length kxs).
Definition nyZ : Z := Z.of_nat (length kys).
Definition half_x : Z := ((nxZ - 1) / 2)%Z.
Definition half_y : Z := ((nyZ - 1) / 2)%Z.

(** Entries of the grids, by integer index. *)
Definition kx_at (i : Z) : Q := nth (Z.to_nat i) kxs 0.
Definition ky_at (i : Z) : Q := nth (Z.to_nat i) kys 0.
Definition k2_at (i j : Z) : Q := nth (Z.to_nat j) (nth (Z.to_nat i) k2s []) 0.

(** The partner indices decoded from [j]. *)
Definition jx_of (j : nat) : Z := (Z.of_nat j / nyZ)%Z.
Definition jy_of (j : nat) : Z := (Z.of_nat j mod nyZ)%Z.

(** The third wavevector of the triad. *)
Definition lx_of (ix j : nat) : Z := (3 * half_x - Z.of_nat ix - jx_of j)%Z.
Definition ly_of (iy j : nat) : Z := (3 * half_y - Z.of_nat iy - jy_of j)%Z.

Definition valid_x (ix j : nat) : bool :=
  ((0 <=? lx_of ix j) && (lx_of ix j <? nxZ))%Z.
Definition valid_y (iy j : nat) : bool :=
  ((0 <=? ly_of iy j) && (ly_of iy j <? nyZ))%Z.

Definition qx_of (ix j : nat) : Z := if valid_x ix j then lx_of ix j else 0%Z.
Definition qy_of (iy j : nat) : Z := if valid_y iy j then ly_of iy j else 0%Z.

(** The interaction coefficient stored in [mat]. *)
Definition coupling (ix iy j : nat) : Q :=
  if (valid_x ix j && valid_y iy j)%bool
  then (kx_at (jx_of j) * ky_at (qy_of iy j) - ky_at (jy_of j) * kx_at (qx_of ix j))
       * k2_at (qx_of ix j) (qy_of iy j)
  else 0.

(** The two sums the sanity check of [_setup] inspects. *)
Definition kxsum_at (kxv : Q) (ix iy j : nat) : Q :=
  if (valid_x ix j && valid_y iy j)%bool
  then kxv + kx_at (jx_of j) + kx_at (qx_of ix j) else 0.
Definition kysum_at (kyv : Q) (ix iy j : nat) : Q :=
  if (valid_x ix j && valid_y iy j)%bool
  then kyv + ky_at (jy_of j) + ky_at (qy_of iy j) else 0.

End Triads.

(** [a[ix][iy]] on a nested list. *)
Definition lookup2 {A : Type} (a : list (list A)) (ix iy : nat) : option A :=
  a !! ix ≫= fun row => row !! iy.

(** A three-dimensional array of shape [(n0, n1, n2)]. *)
Definition shape3 {A : Type} (n0 n1 n2 : nat) (a : list (list (list A))) : Prop :=
  length a = n0
  /\ Forall (fun pl => length pl = n1 /\ Forall (fun r => length r = n2) pl) a.

(** [a] with the row at [(ix, iy)] replaced by [r]. *)
Definition store2 {A : Type} (a : list (list (list A))) (ix iy : nat)
    (r : list A) : list (list (list A)) :=
  <[ix := <[iy := r]> (nth ix a [])]> a.

(** The state of the five arrays after the target [(ix, iy)] is processed. *)
Definition store_rows (kxs kys : list Q) (k2s : list (list Q)) (ix iy : nat)
    (st : HasegawaMimaFourier.tensors) : HasegawaMimaFourier.tensors :=
  let N := (length kxs * length kys)%nat in
  HasegawaMimaFourier.mk_tensors
    (store2 (HasegawaMimaFourier.t_mat st) ix iy
       (map (coupling kxs kys k2s ix iy) (seq 0 N)))
    (store2 (HasegawaMimaFourier.t_px st) ix iy (map (jx_of kys) (seq 0 N)))
    (store2 (HasegawaMimaFourier.t_py st) ix iy (map (jy_of kys) (seq 0 N)))
    (store2 (HasegawaMimaFourier.t_qx st) ix iy (map (qx_of kxs kys ix) (seq 0 N)))
    (store2 (HasegawaMimaFourier.t_qy st) ix iy (map (qy_of kys iy) (seq 0 N))).

(** The outcome of the two sanity assertions for the target [(ix, iy)]. *)
Definition sanity (kxs kys : list Q) (ix iy : nat) (kxv kyv : Q) : py unit :=
  let N := (length kxs * length kys)%nat in
  do _ <- py_assert (np.allclose (map (kxsum_at kxs kys kxv ix iy) (seq 0 N)) 0)
            "kxsum";
  py_assert (np.allclose (map (kysum_at kxs kys kyv ix iy) (seq 0 N)) 0) "kysum".

(** The five arrays all have the shape [(nx, ny, n)]. *)
Definition tensors_shape (nx ny n : nat) (st : HasegawaMimaFourier.tensors)
  : Prop :=
  shape3 nx ny n (HasegawaMimaFourier.t_mat st)
  /\ shape3 nx ny n (HasegawaMimaFourier.t_px st)
  /\ shape3 nx ny n (HasegawaMimaFourier.t_py st)
  /\ shape3 nx ny n (HasegawaMimaFourier.t_qx st)
  /\ shape3 nx ny n (HasegawaMimaFourier.t_qy st).

(** The rows of the five arrays at the target [(ix, iy)] hold the
    pointwise quantities, and the sanity assertions passed there. *)
Definition rows_at (kxs kys : list Q) (k2s : list (list Q)) (ix iy : nat)
    (st : HasegawaMimaFourier.tensors) : Prop :=
  let N := (length kxs * length kys)%nat in
  lookup2 (HasegawaMimaFourier.t_mat st) ix iy
  = Some (map (coupling kxs kys k2s ix iy) (seq 0 N))
  /\ lookup2 (HasegawaMimaFourier.t_px st) ix iy = Some (map (jx_of kys) (seq 0 N))
  /\ lookup2 (HasegawaMimaFourier.t_py st) ix iy = Some (map (jy_of kys) (seq 0 N))
  /\ lookup2 (HasegawaMimaFourier.t_qx st) ix iy
     = Some (map (qx_of kxs kys ix) (seq 0 N))
  /\ lookup2 (HasegawaMimaFourier.t_qy st) ix iy
     = Some (map (qy_of kys iy) (seq 0 N))
  /\ sanity kxs kys ix iy (nth ix kxs 0) (nth iy kys 0) = inr tt.

(** The loop invariant of [_setup]: the arrays keep their shape and the
    targets in [P] are processed. *)
Definition setup_inv (kxs kys : list Q) (k2s : list (list Q))
    (P : nat -> nat -> Prop) (st : HasegawaMimaFourier.tensors) : Prop :=
  tensors_shape (length kxs) (length kys) (length kxs * length kys) st
  /\ forall ix iy, P ix iy -> rows_at kxs kys k2s ix iy st.

(** The targets processed before the outer loop reaches row [ix], and
    inside row [ix] before the inner loop reaches column [k]. *)
Definition before_row (ny ix : nat) : nat -> nat -> Prop :=
  fun i j => (i < ix)%nat /\ (j < ny)%nat.
Definition before_cell (ny ix k : nat) : nat -> nat -> Prop :=
  fun i j => before_row ny ix i j \/ (i = ix /\ (j < k)%nat).

(** The two loop bodies of [_setup] as it folds them. *)
Definition inner_step (kxs kys : list Q) (k2s : list (list Q)) (xe : nat * Q)
    (st : HasegawaMimaFourier.tensors) (ye : nat * Q)
  : py HasegawaMimaFourier.tensors :=
  HasegawaMimaFourier.loop_body kxs kys k2s (fst xe) (snd xe) (fst ye) (snd ye) st.

Definition outer_step (kxs kys : list Q) (k2s : list (list Q))
    (st : HasegawaMimaFourier.tensors) (xe : nat * Q)
  : py HasegawaMimaFourier.tensors :=
  foldM (inner_step kxs kys k2s xe) (enumerate kys) st.

(** The grid of squared magnitudes [_setup] builds from [kx] and [ky]. *)
Definition k2_grid (kxs kys : list Q) : list (list Q) :=
  map (map (fun kv => np.sum (map (fun c => c * c) kv)))
      (np.stack_last (np.meshgrid kys kxs)).

(** The five arrays of a constructed model. *)
Definition tensors_of (self : HasegawaMimaFourier.t) : HasegawaMimaFourier.tensors :=
  HasegawaMimaFourier.mk_tensors
    (HasegawaMimaFourier.mat self) (HasegawaMimaFourier.index_px self)
    (HasegawaMimaFourier.index_py self) (HasegawaMimaFourier.index_qx self)
    (HasegawaMimaFourier.index_qy self).

(** [a[ix, iy, j]] on a nested list: the entry, when the array has one. *)
Definition lookup3 {A : Type} (a : list (list (list A))) (ix iy j : nat)
  : option A :=
  a !! ix ≫= fun plane => plane !! iy ≫= fun row => row !! j.

(** [a[ix, iy, j]] on a nested list, with a default outside the array. *)
Definition at3 {A : Type} (d : A) (a : list (list (list A))) (ix iy j : nat) : A :=
  nth j (nth iy (nth ix a []) []) d.

(** The sample [start + i * step] of a linearly spaced grid of [n] points
    between [start] and [stop]. *)
Definition linear_sample (start stop : Q) (n : nat) (i : Z) : Q :=
  start + inject_Z i * ((stop - start) / inject_Z (Z.of_nat n - 1)).

(** A grid of an odd number [>= 3] of linearly spaced points over
    [[-kmax, kmax]]. *)
Definition linear_grid (kmax : Q) (ks : list Q) : Prop :=
  (3 <= Z.of_nat (length ks))%Z /\ (Z.of_nat (length ks) mod 2 = 1)%Z
  /\ forall i, (i < length ks)%nat ->
       nth i ks 0 == linear_sample (- kmax) kmax (length ks) (Z.of_nat i).

(** Arrays given entry by entry: [grid2 nx ny f] has shape [(nx, ny)] and
    entry [f ix iy]; [grid3 nx ny n f] has shape [(nx, ny, n)]. *)
Definition grid2 {A : Type} (nx ny : nat) (f : nat -> nat -> A) : list (list A) :=
  map (fun ix => map (fun iy => f ix iy) (seq 0 ny)) (seq 0 nx).

Definition grid3 {A : Type} (nx ny n : nat) (f : nat -> nat -> nat -> A)
  : list (list (list A)) :=
  grid2 nx ny (fun ix iy => map (f ix iy) (seq 0 n)).

(** [phi[a, b]] for integer indices. *)
Definition phi_at (phi : list (list C)) (a b : Z) : C :=
  nth (Z.to_nat b) (nth (Z.to_nat a) phi []) (RtoC 0).

(** The right-hand side of the spectral equation at the grid point
    [(ix, iy)], as the specification writes it:
    [(-i*ky*phi + sum_j mat*conj(phi)[p]*conj(phi)[q]) / (1 + k2)]. *)
Definition dphi_spec (self : HasegawaMimaFourier.t) (phi : list (list C))
    (ix iy : nat) : C :=
  let n := (length (HasegawaMimaFourier.kx self)
            * length (HasegawaMimaFourier.ky self))%nat in
  Cdiv
    (Cadd
       (Cmul (Cmul Ci_neg (RtoC (nth iy (HasegawaMimaFourier.ky self) 0)))
          (phi_at phi (Z.of_nat ix) (Z.of_nat iy)))
       (Csum
          (map (fun j =>
                  Cmul
                    (Cmul (RtoC (at3 0 (HasegawaMimaFourier.mat self) ix iy j))
                       (Cconj (phi_at phi
                                 (at3 0%Z (HasegawaMimaFourier.index_px self) ix iy j)
                                 (at3 0%Z (HasegawaMimaFourier.index_py self) ix iy j))))
                    (Cconj (phi_at phi
                              (at3 0%Z (HasegawaMimaFourier.index_qx self) ix iy j)
                              (at3 0%Z (HasegawaMimaFourier.index_qy self) ix iy j))))
               (seq 0 n))))
    (RtoC (1 + nth iy (nth ix (HasegawaMimaFourier.k2 self) []) 0)).


(** * Further specification-side definitions *)

(** [a[ix][iy]] for integer indices, with a default outside the array. *)
Definition at2 {A : Type} (d : A) (a : list (list A)) (ix iy : Z) : A :=
  nth (Z.to_nat iy) (nth (Z.to_nat ix) a []) d.

(** Whether an entry of a result record is a NumPy array. *)
Definition is_array (v : value) : bool :=
  match v with
  | VReal _ | VComplex _ => true
  | _ => false
  end.

(** * The constructor of the spectral model on IEEE doubles

    The same translation of [hasegawa_mima.py], lines 9-63, with binary64
    arithmetic in place of the rationals: every sum, product and quotient
    is rounded as NumPy rounds it, so the sums the sanity check inspects
    carry their rounding errors.  Indexing, masks and stores are the
    primitives of [np] above. *)

Module Binary64.

Import PrimFloat.

(** An integer converted to a double (exact below [2^53]). *)
Definition of_Z (z : Z) : float :=
  if (z <? 0)%Z then opp (of_uint63 (Uint63.of_Z (- z)))
  else of_uint63 (Uint63.of_Z z).

Definition of_nat (n : nat) : float := of_Z (Z.of_nat n).

(** [np.linspace(start, stop, num)]: [arange(num) * step + start] with
    [step = (stop - start) / (num - 1)], the samples scaled by
    [(stop - start)] after the division when the step underflows to zero,
    and the last sample overwritten by [stop]; a single sample is
    [0 * (stop - start) + start]. *)
Definition linspace (start stop : float) (num : Z) : py (list float) :=
  if (num <? 0)%Z then raise (ValueError "Number of samples must be non-negative")
  else
    let n := Z.to_nat num in
    let delta := sub stop start in
    let y := map of_nat (seq 0 n) in
    match n with
    | O => ret []
    | S O => ret (map (fun v => add (mul v delta) start) y)
    | S m =>
        let step := div delta (of_nat m) in
        let y :=
          if eqb step zero then map (fun v => mul (div v (of_nat m)) delta) y
          else map (fun v => mul v step) y in
        ret (firstn m (map (fun v => add v start) y) ++ [stop])
    end.

(** [np.sum] of a vector. *)
Definition sum (l : list float) : float := fold_left add l zero.

#[warnings="-inexact-float"] Definition rtol : float := 1e-5%float.
#[warnings="-inexact-float"] Definition atol : float := 1e-8%float.

Definition isfinite (x : float) : bool := ltb (abs x) infinity.

(** [np.allclose(a, b)] against a scalar [b], default tolerances:
    [|x - b| <= atol + rtol * |b|] for a finite [b], or [x == b]. *)
Definition allclose (a : list float) (b : float) : bool :=
  forallb (fun x => (leb (abs (sub x b)) (add atol (mul rtol (abs b)))
                     && isfinite b) || eqb x b) a.

Record t : Type := mk {
  kx : list float;
  ky : list float;
  k : list (list (list float));
  k2 : list (list float);
  mat : list (list (list float));
  index_px : list (list (list Z));
  index_py : list (list (list Z));
  index_qx : list (list (list Z));
  index_qy : list (list (list Z))
}.

Record tensors : Type := mk_tensors {
  t_mat : list (list (list float));
  t_px : list (list (list Z));
  t_py : list (list (list Z));
  t_qx : list (list (list Z));
  t_qy : list (list (list Z))
}.

(** The body of the double loop for one target [(ix, iy)], lines 38-63. *)
Definition loop_body (kxs kys : list float) (k2s : list (list float))
    (ix : nat) (kxv : float) (iy : nat) (kyv : float) (st : tensors)
  : py tensors :=
  let nx := Z.of_nat (length kxs) in
  let ny := Z.of_nat (length kys) in
  let half_x := ((nx - 1) / 2)%Z in
  let half_y := ((ny - 1) / 2)%Z in
  let jx := HasegawaMimaFourier.partner_jx (length kxs) (length kys) in
  let jy := HasegawaMimaFourier.partner_jy (length kxs) (length kys) in
  let j := zip_with (fun a b => (a * ny + b)%Z) jx jy in
  do px <- np.setitem3 (t_px st) ix iy j jx;
  do py_ <- np.setitem3 (t_py st) ix iy j jy;
  let lx := map (fun a => (3 * half_x - Z.of_nat ix - a)%Z) jx in
  let ly := map (fun b => (3 * half_y - Z.of_nat iy - b)%Z) jy in
  let valid_x := map (fun l => ((0 <=? l) && (l <? nx))%Z) lx in
  let valid_y := map (fun l => ((0 <=? l) && (l <? ny))%Z) ly in
  let lx := np.where_ valid_x lx 0%Z in
  let ly := np.where_ valid_y ly 0%Z in
  do qxi <- np.setitem3 (t_qx st) ix iy j (np.where_ valid_x lx 0%Z);
  do qyi <- np.setitem3 (t_qy st) ix iy j (np.where_ valid_y ly 0%Z);
  do qx <- np.take kxs lx;
  do qy <- np.take kys ly;
  do q2 <- np.take2 k2s lx ly;
  do kxj <- np.take kxs jx;
  do kyj <- np.take kys jy;
  let valid := zip_with andb valid_x valid_y in
  let coef :=
    zip_with mul (zip_with sub (zip_with mul kxj qy) (zip_with mul kyj qx)) q2 in
  do m <- np.setitem3 (t_mat st) ix iy j (np.where_ valid coef zero);
  let kxsum := np.where_ valid (zip_with add (map (add kxv) kxj) qx) zero in
  do _ <- py_assert (allclose kxsum zero) "kxsum";
  let kysum := np.where_ valid (zip_with add (map (add kyv) kyj) qy) zero in
  do _ <- py_assert (allclose kysum zero) "kysum";
  ret (mk_tensors m px py_ qxi qyi).

Definition _setup (kxs kys : list float) : py t :=
  let k := np.stack_last (np.meshgrid kys kxs) in
  let k2 := map (map (fun kv => sum (map (fun c => mul c c) kv))) k in
  let nx := length kxs in
  let ny := length kys in
  let st0 := mk_tensors (np.zeros3 zero nx ny (nx * ny))
               (np.zeros3 0%Z nx ny (nx * ny)) (np.zeros3 0%Z nx ny (nx * ny))
               (np.zeros3 0%Z nx ny (nx * ny)) (np.zeros3 0%Z nx ny (nx * ny)) in
  do st <- foldM (fun st xe =>
                    foldM (fun st ye =>
                             loop_body kxs kys k2 (fst xe) (snd xe)
                               (fst ye) (snd ye) st)
                          (enumerate kys) st)
                 (enumerate kxs) st0;
  ret (mk kxs kys k k2 (t_mat st) (t_px st) (t_py st) (t_qx st) (t_qy st)).

Definition __init__ (kmax : float) (nx ny : Z) : py t :=
  do _ <- py_assert (nx mod 2 =? 1)%Z "nx % 2 == 1";
  do _ <- py_assert (ny mod 2 =? 1)%Z "ny % 2 == 1";
  do kxs <- linspace (opp kmax) kmax nx;
  do kys <- linspace (opp kmax) kmax ny;
  _setup kxs kys.

(** The first sum the sanity check would inspect for the target
    [(ix, iy)] and the partner [(jx, jy)]: [kx[ix] + kx[jx] + kx[lx]]. *)
Definition kxsum (kxs : list float) (ix jx : nat) : float :=
  let half_x := ((length kxs - 1) / 2)%nat in
  add (add (nth ix kxs nan) (nth jx kxs nan))
      (nth (3 * half_x - ix - jx) kxs nan).

End Binary64.
(** * Properties *)

(** ** Lists, indices and the exception monad *)

Lemma rows_concat {A : Type} (m : nat) (F : list (list A)) :
  Forall (fun r => length r = m) F ->
  np.rows (length F) m (concat F) = F.
Proof.
  induction 1 as [|r F Hr HF IH]; simpl; [reflexivity|].
  rewrite take_app_length' by done.
  rewrite drop_app_length' by done.
  now rewrite IH.
Qed.

Lemma concat_length_uniform {A : Type} (m : nat) (F : list (list A)) :
  Forall (fun r => length r = m) F ->
  length (concat F) = (length F * m)%nat.
Proof.
  induction 1 as [|r F Hr HF IH]; simpl; [reflexivity|].
  rewrite length_app, IH, Hr. reflexivity.
Qed.

Lemma norm_index_nat (n i : nat) :
  (i < n)%nat -> np.norm_index n (Z.of_nat i) = inr i.
Proof.
  intros Hi. unfold np.norm_index.
  destruct (Z.ltb_spec (Z.of_nat i) 0); [lia|].
  destruct (Z.leb_spec 0 (Z.of_nat i)); [|lia].
  destruct (Z.ltb_spec (Z.of_nat i) (Z.of_nat n)); [|lia].
  simpl. unfold ret. now rewrite Nat2Z.id.
Qed.

Lemma getitem_nat {A : Type} (a : list A) (i : nat) (x : A) :
  a !! i = Some x -> np.getitem a (Z.of_nat i) = inr x.
Proof.
  intros Hx. unfold np.getitem.
  rewrite norm_index_nat by (eapply lookup_lt_Some; exact Hx).
  simpl. now rewrite Hx.
Qed.

Lemma reshape2_concat {A : Type} (m : nat) (F : list (list A)) :
  Forall (fun r => length r = m) F ->
  np.reshape2 (concat F) (length F) m = inr F.
Proof.
  intros HF. unfold np.reshape2.
  rewrite (concat_length_uniform m F HF), Nat.eqb_refl.
  unfold ret. now rewrite rows_concat.
Qed.

(** ** The phase-space model: packing and decoding *)

Lemma pack_length {A : Type} (finit : ndarray A) (V E : A) :
  length (HoleClump.pack finit V E) = (length (nd_data finit) + 2)%nat.
Proof. unfold HoleClump.pack. rewrite !length_app. simpl. lia. Qed.

Lemma encode_pack {A : Type} (self : HoleClump.t) (F : list (list A)) (V E : A) :
  length F = HoleClump.nx self ->
  Forall (fun r => length r = HoleClump.nv self) F ->
  HoleClump._encode self (HoleClump.pack (matrix (HoleClump.nv self) F) V E)
  = inr (F, V, E).
Proof.
  intros HnF HF.
  pose proof (concat_length_uniform _ F HF) as Hlen. rewrite HnF in Hlen.
  unfold HoleClump._encode, HoleClump.pack, matrix. simpl nd_data.
  rewrite take_app_length' by done.
  pose proof (reshape2_concat _ F HF) as Hr. rewrite HnF in Hr.
  rewrite Hr. simpl.
  rewrite (getitem_nat _ _ V).
  2:{ rewrite lookup_app_r by lia. now rewrite Hlen, Nat.sub_diag. }
  simpl.
  rewrite (getitem_nat _ _ E).
  2:{ rewrite lookup_app_r by lia.
      now replace (_ - _)%nat with 1%nat by lia. }
  reflexivity.
Qed.

(** C5.  For every array [F] of shape [(nx, nv)] and scalars [V], [E],
    [_encode] applied to the vector packed by [solve] returns exactly
    [F], [V] and [E]; the packed vector has [nx*nv + 2] entries and its last
    two slots hold [V], then [E].  The element type is arbitrary, so
    equality is equality of the stored values themselves. *)
Theorem encode_pack_roundtrip {A : Type} (self : HoleClump.t)
    (F : list (list A)) (V E : A) :
  length F = HoleClump.nx self ->
  Forall (fun r => length r = HoleClump.nv self) F ->
  let packed := HoleClump.pack (matrix (HoleClump.nv self) F) V E in
  HoleClump._encode self packed = inr (F, V, E)
  /\ length packed = (HoleClump.nx self * HoleClump.nv self + 2)%nat
  /\ packed !! (HoleClump.nx self * HoleClump.nv self)%nat = Some V
  /\ packed !! (HoleClump.nx self * HoleClump.nv self + 1)%nat = Some E
  /\ firstn (HoleClump.nx self * HoleClump.nv self) packed = concat F.
Proof.
  intros HnF HF packed.
  pose proof (concat_length_uniform _ F HF) as Hlen. rewrite HnF in Hlen.
  split; [now apply encode_pack|].
  subst packed. rewrite pack_length. unfold HoleClump.pack, matrix. simpl nd_data.
  split; [lia|].
  split; [rewrite lookup_app_r by lia; now rewrite Hlen, Nat.sub_diag|].
  split; [rewrite lookup_app_r by lia;
          now replace (_ - _)%nat with 1%nat by lia|].
  now rewrite take_app_length' by done.
Qed.

Lemma encode_pack_roundtrip_witness :
  HoleClump._encode model_2x3
    (HoleClump.pack (matrix 3 [[1; 2; 3]; [4; 5; 6]]) 7 8)
  = inr ([[1; 2; 3]; [4; 5; 6]], 7, 8).
Proof.
  apply (encode_pack_roundtrip model_2x3 [[1; 2; 3]; [4; 5; 6]] 7 8).
  - reflexivity.
  - repeat constructor.
Defined.

(** ** The phase-space model: the shape precondition of [solve] *)

(** C7.  Whatever the integrator, [solve] on a [finit] whose shape is not
    [(nx, nv)] raises the model's own assertion: the outcome does not
    depend on the integrator, which an integrator-raised failure would. *)
Theorem solve_rejects_shape_mismatch (solve_ivp : integrator Q)
    (self : HoleClump.t) (t_span : Q * Q) (finit : ndarray Q)
    (vinit einit : Q) (kwargs : gmap string value) :
  nd_shape finit <> [HoleClump.nx self; HoleClump.nv self] ->
  HoleClump.solve solve_ivp self t_span finit vinit einit kwargs
  = inl (AssertionError "finit.shape == (self.nx, self.nv)").
Proof.
  intros Hshape. unfold HoleClump.solve, HoleClump.shape_eqb.
  now rewrite bool_decide_eq_false_2.
Qed.

(** With the right shape the assertion passes and the integrator is
    invoked on the packed state; its failure is then the call's failure. *)
Lemma solve_integrator_failure (solve_ivp : integrator Q)
    (self : HoleClump.t) (t_span : Q * Q) (finit : ndarray Q)
    (vinit einit : Q) (kwargs : gmap string value) (err : exn) :
  nd_shape finit = [HoleClump.nx self; HoleClump.nv self] ->
  solve_ivp (HoleClump.dfdt self HoleClump.coef)
            t_span (HoleClump.pack finit vinit einit) kwargs = inl err ->
  HoleClump.solve solve_ivp self t_span finit vinit einit kwargs = inl err.
Proof.
  intros Hshape Herr. unfold HoleClump.solve, HoleClump.shape_eqb.
  rewrite bool_decide_eq_true_2 by exact Hshape. simpl.
  now rewrite Herr.
Qed.

Lemma solve_rejects_shape_mismatch_witness :
  HoleClump.solve failing_ivp model_2x3 (0, 1) (vector [1; 2; 3; 4; 5; 6]) 7 8 ∅
  = inl (AssertionError "finit.shape == (self.nx, self.nv)").
Proof.
  apply (solve_rejects_shape_mismatch failing_ivp model_2x3 (0, 1)
           (vector [1; 2; 3; 4; 5; 6]) 7 8 ∅).
  simpl. discriminate.
Defined.

(** ** Export to a labeled dataset *)

Lemma obj_getitem_present (key : string) (d : gmap string value) (x : value) :
  d !! key = Some x -> obj_getitem key d = (inr x, d).
Proof. intros Hx. unfold obj_getitem, dict_getitem. now rewrite Hx. Qed.

Lemma obj_bind_state {A B : Type} (m : obj A) (k : A -> obj B)
    (d : gmap string value) :
  snd (m d) = d -> (forall a, snd (k a d) = d) -> snd (obj_bind m k d) = d.
Proof.
  intros Hm Hk. unfold obj_bind.
  destruct (m d) as [[err|a] d'] eqn:E; simpl in Hm; subst d'.
  - reflexivity.
  - apply Hk.
Qed.

Lemma obj_getitem_state (key : string) (d : gmap string value) :
  snd (obj_getitem key d) = d.
Proof. reflexivity. Qed.

Ltac obj_frame :=
  repeat (apply obj_bind_state; [apply obj_getitem_state | intros ?]);
  reflexivity.

Lemma hm_to_xarray_frame (self : HasegawaMimaFourier.t) (result : gmap string value) :
  snd (HasegawaMimaFourier.to_xarray self result) = result.
Proof. unfold HasegawaMimaFourier.to_xarray. obj_frame. Qed.

Lemma hc_to_xarray_frame (self : HoleClump.t) (result : gmap string value) :
  snd (HoleClump.to_xarray self result) = result.
Proof. unfold HoleClump.to_xarray. obj_frame. Qed.

Lemma obj_bind_inr {A B : Type} (m : obj A) (k : A -> obj B)
    (d : gmap string value) (b : B) :
  fst (obj_bind m k d) = inr b ->
  exists a d', m d = (inr a, d') /\ fst (k a d') = inr b.
Proof.
  unfold obj_bind. destruct (m d) as [[err|a] d']; simpl; [discriminate|].
  intros Hb. now exists a, d'.
Qed.

(** What a successful [to_xarray] of the spectral model returns. *)
Lemma hm_to_xarray_inr (self : HasegawaMimaFourier.t)
    (result : gmap string value) (ds : Dataset) :
  fst (HasegawaMimaFourier.to_xarray self result) = inr ds ->
  exists y status message success ts,
    result !! "y" = Some y /\ result !! "status" = Some status
    /\ result !! "message" = Some message /\ result !! "success" = Some success
    /\ result !! "t" = Some ts
    /\ ds = xr_Dataset
              (<["success" := Bare success]>
                 (<["message" := Bare message]>
                    (<["status" := Bare status]>
                       (<["phi" := WithDims ["kx"; "ky"; "time"] y]> ∅))))
              (<["time" := ts]>
                 (<["ky" := VReal (vector (HasegawaMimaFourier.ky self))]>
                    (<["kx" := VReal (vector (HasegawaMimaFourier.kx self))]> ∅)))
              ∅.
Proof.
  unfold HasegawaMimaFourier.to_xarray, obj_bind, obj_getitem, dict_getitem, obj_ret.
  destruct (result !! "y") as [y|]; simpl; [|discriminate].
  destruct (result !! "status") as [status|]; simpl; [|discriminate].
  destruct (result !! "message") as [message|]; simpl; [|discriminate].
  destruct (result !! "success") as [success|]; simpl; [|discriminate].
  destruct (result !! "t") as [ts|]; simpl; [|discriminate].
  intros [= <-]. now exists y, status, message, success, ts.
Qed.

(** What a successful [to_xarray] of the phase-space model returns. *)
Lemma hc_to_xarray_inr (self : HoleClump.t)
    (result : gmap string value) (ds : Dataset) :
  fst (HoleClump.to_xarray self result) = inr ds ->
  exists F V E status message success ts,
    result !! "f" = Some F /\ result !! "V" = Some V /\ result !! "E" = Some E
    /\ result !! "status" = Some status
    /\ result !! "message" = Some message /\ result !! "success" = Some success
    /\ result !! "t" = Some ts
    /\ ds = xr_Dataset
              (<["success" := Bare success]>
                 (<["message" := Bare message]>
                    (<["status" := Bare status]>
                       (<["E" := WithDims ["time"] E]>
                          (<["V" := WithDims ["time"] V]>
                             (<["F" := WithDims ["x"; "v"; "time"] F]> ∅))))))
              (<["time" := ts]>
                 (<["v" := VReal (vector (HoleClump.v self))]>
                    (<["x" := VReal (vector (HoleClump.x self))]> ∅)))
              ∅.
Proof.
  unfold HoleClump.to_xarray, obj_bind, obj_getitem, dict_getitem, obj_ret.
  destruct (result !! "f") as [F|]; simpl; [|discriminate].
  destruct (result !! "V") as [V|]; simpl; [|discriminate].
  destruct (result !! "E") as [E|]; simpl; [|discriminate].
  destruct (result !! "status") as [status|]; simpl; [|discriminate].
  destruct (result !! "message") as [message|]; simpl; [|discriminate].
  destruct (result !! "success") as [success|]; simpl; [|discriminate].
  destruct (result !! "t") as [ts|]; simpl; [|discriminate].
  intros [= <-]. now exists F, V, E, status, message, success, ts.
Qed.

Lemma hm_to_xarray_total (self : HasegawaMimaFourier.t)
    (result : gmap string value) (y status message success ts : value) :
  result !! "y" = Some y -> result !! "status" = Some status ->
  result !! "message" = Some message -> result !! "success" = Some success ->
  result !! "t" = Some ts ->
  exists ds, fst (HasegawaMimaFourier.to_xarray self result) = inr ds.
Proof.
  intros Hy Hst Hm Hs Ht.
  unfold HasegawaMimaFourier.to_xarray, obj_bind, obj_getitem, dict_getitem, obj_ret.
  rewrite Hy, Hst, Hm, Hs, Ht. simpl. eauto.
Qed.

Lemma hc_to_xarray_total (self : HoleClump.t)
    (result : gmap string value) (F V E status message success ts : value) :
  result !! "f" = Some F -> result !! "V" = Some V -> result !! "E" = Some E ->
  result !! "status" = Some status ->
  result !! "message" = Some message -> result !! "success" = Some success ->
  result !! "t" = Some ts ->
  exists ds, fst (HoleClump.to_xarray self result) = inr ds.
Proof.
  intros HF HV HE Hst Hm Hs Ht.
  unfold HoleClump.to_xarray, obj_bind, obj_getitem, dict_getitem, obj_ret.
  rewrite HF, HV, HE, Hst, Hm, Hs, Ht. simpl. eauto.
Qed.

(** C9, as stated, fails: on [sample_result] both exports succeed, the
    attributes of the dataset are empty and [status] is a data variable. *)
Lemma to_xarray_status_not_attribute :
  ~ (forall (hm : HasegawaMimaFourier.t) (hc : HoleClump.t)
            (result : gmap string value),
        (forall ds, fst (HasegawaMimaFourier.to_xarray hm result) = inr ds ->
                    status_as_attrs result ds)
        /\ (forall ds, fst (HoleClump.to_xarray hc result) = inr ds ->
                       status_as_attrs result ds)).
Proof.
  intros H. destruct (H sample_hm sample_hc sample_result) as [Hhm _].
  destruct (hm_to_xarray_total sample_hm sample_result
              (VComplex (mk_nd [1%nat; 1%nat; 2%nat] [(1, 1); (1, 1)]))
              (VInt 0) (VStr "done") (VBool true) (VReal (vector [0; 1])))
    as [ds Hds]; try reflexivity.
  destruct (Hhm ds Hds) as (Hst & _).
  apply hm_to_xarray_inr in Hds as (? & ? & ? & ? & ? & _ & _ & _ & _ & _ & ->).
  simpl in Hst. rewrite lookup_empty in Hst. discriminate Hst.
Qed.

(** C9, amended.  A successful [to_xarray] of either model returns a
    dataset whose attributes are empty; the integrator's [status],
    [message] and [success] are bare data variables next to the solution
    arrays, which carry the dimension names [kx, ky, time] (spectral
    model) or [x, v, time] (phase-space model); the coordinates of those
    names are the model's grids and the result's time points. *)
Theorem to_xarray_layout (hm : HasegawaMimaFourier.t) (hc : HoleClump.t)
    (result : gmap string value) :
  (forall ds, fst (HasegawaMimaFourier.to_xarray hm result) = inr ds ->
     attrs ds = ∅
     /\ data_vars ds !! "status" = Bare <$> result !! "status"
     /\ data_vars ds !! "message" = Bare <$> result !! "message"
     /\ data_vars ds !! "success" = Bare <$> result !! "success"
     /\ data_vars ds !! "phi" = WithDims ["kx"; "ky"; "time"] <$> result !! "y"
     /\ coords ds !! "kx" = Some (VReal (vector (HasegawaMimaFourier.kx hm)))
     /\ coords ds !! "ky" = Some (VReal (vector (HasegawaMimaFourier.ky hm)))
     /\ coords ds !! "time" = result !! "t")
  /\ (forall ds, fst (HoleClump.to_xarray hc result) = inr ds ->
     attrs ds = ∅
     /\ data_vars ds !! "status" = Bare <$> result !! "status"
     /\ data_vars ds !! "message" = Bare <$> result !! "message"
     /\ data_vars ds !! "success" = Bare <$> result !! "success"
     /\ data_vars ds !! "F" = WithDims ["x"; "v"; "time"] <$> result !! "f"
     /\ data_vars ds !! "V" = WithDims ["time"] <$> result !! "V"
     /\ data_vars ds !! "E" = WithDims ["time"] <$> result !! "E"
     /\ coords ds !! "x" = Some (VReal (vector (HoleClump.x hc)))
     /\ coords ds !! "v" = Some (VReal (vector (HoleClump.v hc)))
     /\ coords ds !! "time" = result !! "t").
Proof.
  split; intros ds Hds.
  - apply hm_to_xarray_inr in Hds
      as (y & st & m & s & ts & Hy & Hst & Hm & Hs & Ht & ->).
    rewrite Hy, Hst, Hm, Hs, Ht. simpl.
    repeat split; by simplify_map_eq.
  - apply hc_to_xarray_inr in Hds
      as (F & V & E & st & m & s & ts & HF & HV & HE & Hst & Hm & Hs & Ht & ->).
    rewrite HF, HV, HE, Hst, Hm, Hs, Ht. simpl.
    repeat split; by simplify_map_eq.
Qed.

Lemma to_xarray_layout_witness :
  exists ds1 ds2,
    fst (HasegawaMimaFourier.to_xarray sample_hm sample_result) = inr ds1
    /\ fst (HoleClump.to_xarray sample_hc sample_result) = inr ds2
    /\ attrs ds1 = ∅ /\ attrs ds2 = ∅
    /\ data_vars ds1 !! "status" = Some (Bare (VInt 0))
    /\ data_vars ds2 !! "status" = Some (Bare (VInt 0)).
Proof.
  destruct (hm_to_xarray_total sample_hm sample_result
              (VComplex (mk_nd [1%nat; 1%nat; 2%nat] [(1, 1); (1, 1)]))
              (VInt 0) (VStr "done") (VBool true) (VReal (vector [0; 1])))
    as [ds1 H1]; try reflexivity.
  destruct (hc_to_xarray_total sample_hc sample_result
              (VReal (mk_nd [1%nat; 1%nat; 2%nat] [1; 1]))
              (VReal (vector [0; 0])) (VReal (vector [0; 0]))
              (VInt 0) (VStr "done") (VBool true) (VReal (vector [0; 1])))
    as [ds2 H2]; try reflexivity.
  exists ds1, ds2.
  destruct (to_xarray_layout sample_hm sample_hc sample_result) as [Hhm Hhc].
  destruct (Hhm ds1 H1) as (Ha1 & Hs1 & _).
  destruct (Hhc ds2 H2) as (Ha2 & Hs2 & _).
  repeat split; assumption.
Defined.

(** C10.  [to_xarray] of either model leaves the result record as it
    found it, whether it returns or raises, and the coordinates of the
    returned dataset are the model's own grids: one-dimensional arrays of
    the same length and the same values. *)
Theorem to_xarray_frame_and_coords (hm : HasegawaMimaFourier.t)
    (hc : HoleClump.t) (result : gmap string value) :
  (snd (HasegawaMimaFourier.to_xarray hm result) = result
   /\ forall ds, fst (HasegawaMimaFourier.to_xarray hm result) = inr ds ->
        coords ds !! "kx"
        = Some (VReal (mk_nd [length (HasegawaMimaFourier.kx hm)]
                         (HasegawaMimaFourier.kx hm)))
        /\ coords ds !! "ky"
           = Some (VReal (mk_nd [length (HasegawaMimaFourier.ky hm)]
                            (HasegawaMimaFourier.ky hm))))
  /\ (snd (HoleClump.to_xarray hc result) = result
      /\ forall ds, fst (HoleClump.to_xarray hc result) = inr ds ->
           coords ds !! "x"
           = Some (VReal (mk_nd [length (HoleClump.x hc)] (HoleClump.x hc)))
           /\ coords ds !! "v"
              = Some (VReal (mk_nd [length (HoleClump.v hc)] (HoleClump.v hc)))).
Proof.
  split; (split; [auto using hm_to_xarray_frame, hc_to_xarray_frame|]).
  - intros ds Hds.
    apply hm_to_xarray_inr in Hds as (? & ? & ? & ? & ? & _ & _ & _ & _ & _ & ->).
    split; by simplify_map_eq.
  - intros ds Hds.
    apply hc_to_xarray_inr in Hds
      as (? & ? & ? & ? & ? & ? & ? & _ & _ & _ & _ & _ & _ & _ & ->).
    split; by simplify_map_eq.
Qed.

Lemma to_xarray_frame_and_coords_witness :
  exists ds1 ds2,
    fst (HasegawaMimaFourier.to_xarray sample_hm sample_result) = inr ds1
    /\ fst (HoleClump.to_xarray sample_hc sample_result) = inr ds2
    /\ snd (HasegawaMimaFourier.to_xarray sample_hm sample_result) = sample_result
    /\ snd (HoleClump.to_xarray sample_hc sample_result) = sample_result
    /\ coords ds1 !! "kx" = Some (VReal (mk_nd [1%nat] [0]))
    /\ coords ds2 !! "v" = Some (VReal (mk_nd [1%nat] [0])).
Proof.
  destruct (hm_to_xarray_total sample_hm sample_result
              (VComplex (mk_nd [1%nat; 1%nat; 2%nat] [(1, 1); (1, 1)]))
              (VInt 0) (VStr "done") (VBool true) (VReal (vector [0; 1])))
    as [ds1 H1]; try reflexivity.
  destruct (hc_to_xarray_total sample_hc sample_result
              (VReal (mk_nd [1%nat; 1%nat; 2%nat] [1; 1]))
              (VReal (vector [0; 0])) (VReal (vector [0; 0]))
              (VInt 0) (VStr "done") (VBool true) (VReal (vector [0; 1])))
    as [ds2 H2]; try reflexivity.
  exists ds1, ds2.
  destruct (to_xarray_frame_and_coords sample_hm sample_hc sample_result)
    as [[Hf1 Hc1] [Hf2 Hc2]].
  destruct (Hc1 ds1 H1) as [Hkx _]. destruct (Hc2 ds2 H2) as [_ Hv].
  repeat split; assumption.
Defined.

(** ** The phase-space model: the constructor *)

Lemma linspace_length (start stop : Q) (num : Z) (l : list Q) :
  np.linspace start stop num = inr l -> length l = Z.to_nat num.
Proof.
  unfold np.linspace. destruct (Z.ltb_spec num 0); [discriminate|].
  destruct (Z.to_nat num) as [|[|m]]; intros [= <-]; try reflexivity.
  rewrite length_cons, length_app, length_map, length_seq. simpl. lia.
Qed.

(** A constructed model has grids of [nx] and [nv] points. *)
Lemma hc_init_grids (sqrt : Q -> Q) (xmax vmax : Q) (nx nv : Z) (nu ne : Q)
    (self : HoleClump.t) :
  HoleClump.__init__ sqrt xmax vmax nx nv nu ne = inr self ->
  length (HoleClump.x self) = HoleClump.nx self
  /\ length (HoleClump.v self) = HoleClump.nv self
  /\ Z.of_nat (HoleClump.nx self) = nx /\ Z.of_nat (HoleClump.nv self) = nv.
Proof.
  unfold HoleClump.__init__.
  destruct (np.linspace (- xmax) xmax nx) as [|xs] eqn:Hx; [discriminate|].
  destruct (np.linspace (- vmax) vmax nv) as [|vs] eqn:Hv; [discriminate|].
  cbn [bind]. intros [= <-]. cbn.
  pose proof (linspace_length _ _ _ _ Hx). pose proof (linspace_length _ _ _ _ Hv).
  unfold np.linspace in Hx, Hv.
  destruct (Z.ltb_spec nx 0); [discriminate|].
  destruct (Z.ltb_spec nv 0); [discriminate|].
  repeat split; lia.
Qed.

(** ** The phase-space model: the derivative *)

Ltac list_lengths :=
  repeat (rewrite length_zip_with || rewrite length_map || rewrite length_drop
          || rewrite length_take || rewrite length_app || rewrite length_cons
          || rewrite length_nil).

Lemma lookup_map {A B : Type} (f : A -> B) (l : list A) (i : nat) :
  map f l !! i = f <$> (l !! i).
Proof. exact (list_lookup_fmap f l i). Qed.

Lemma lookup_map_Some {A B : Type} (f : A -> B) (l : list A) (i : nat) (x : A) :
  l !! i = Some x -> map f l !! i = Some (f x).
Proof. intros Hx. now rewrite lookup_map, Hx. Qed.

Lemma lookup_zip_with_Some' {A B D : Type} (f : A -> B -> D) (l : list A)
    (k : list B) (i : nat) (x : A) (y : B) :
  l !! i = Some x -> k !! i = Some y -> zip_with f l k !! i = Some (f x y).
Proof. intros Hx Hy. now rewrite lookup_zip_with, Hx, Hy. Qed.

Lemma concat_lookup_uniform {A : Type} (m : nat) (L : list (list A))
    (i j : nat) (r : list A) (x : A) :
  Forall (fun r => length r = m) L ->
  L !! i = Some r -> r !! j = Some x ->
  concat L !! (i * m + j)%nat = Some x.
Proof.
  intros HL. revert i. induction HL as [|r0 L Hr0 HL IH]; intros i Hi Hj.
  - discriminate.
  - destruct i as [|i]; simpl in *.
    + injection Hi as ->. now apply lookup_app_l_Some.
    + rewrite lookup_app_r by lia.
      replace (m + i * m + j - length r0)%nat with (i * m + j)%nat by lia.
      now apply IH.
Qed.

Lemma pad_lookup (r : list Q) (k : nat) :
  (k <= length r + 1)%nat ->
  (0 :: r ++ [0]) !! k = Some (col r (Z.of_nat k - 1)).
Proof.
  intros Hk. unfold col. destruct k as [|k].
  - simpl. reflexivity.
  - change ((0 :: r ++ [0]) !! S k) with ((r ++ [0]) !! k).
    destruct (Z.ltb_spec (Z.of_nat (S k) - 1) 0); [lia|]. simpl.
    destruct (Z.leb_spec (Z.of_nat (length r)) (Z.of_nat (S k) - 1)).
    + rewrite lookup_app_r by lia.
      now replace (k - length r)%nat with 0%nat by lia.
    + replace (Z.to_nat (Z.of_nat (S k) - 1)) with k by lia.
      rewrite nth_lookup.
      destruct (lookup_lt_is_Some_2 r k) as [x Hx]; [lia|].
      rewrite (lookup_app_l_Some _ _ _ _ Hx). now rewrite Hx.
Qed.

Lemma strip_pad (r : list Q) : np.strip (0 :: r ++ [0]) = r.
Proof.
  unfold np.strip, np.upto_last, np.from. simpl.
  rewrite drop_0, length_app. simpl.
  replace (length r + 1 - 1)%nat with (length r) by lia.
  now rewrite take_app_length.
Qed.

Lemma pad_wrap_rows_lookup (F : list (list Q)) (r0 : list Q) :
  F !! 0%nat = Some r0 ->
  exists fw rl,
    np.pad_wrap_rows F = inr fw
    /\ F !! (length F - 1)%nat = Some rl
    /\ fw = rl :: F ++ [r0].
Proof.
  intros H0. unfold np.pad_wrap_rows.
  destruct F as [|f F']; [discriminate|].
  injection H0 as ->.
  rewrite last_lookup.
  destruct (lookup_lt_is_Some_2 (r0 :: F') (Init.Nat.pred (length (r0 :: F'))))
    as [rl Hrl]; [simpl; lia|].
  rewrite Hrl. exists (rl :: (r0 :: F') ++ [r0]), rl.
  repeat split. now replace (length (r0 :: F') - 1)%nat
                  with (Init.Nat.pred (length (r0 :: F'))) by (simpl; lia).
Qed.

(** The row index the periodic ghost view reads at [ix + 1] and [ix - 1]. *)
Lemma wrap_next (n ix : nat) :
  (ix < n)%nat ->
  Z.to_nat ((Z.of_nat ix + 1) mod Z.of_nat n)
  = if decide (ix + 1 < n)%nat then (ix + 1)%nat else 0%nat.
Proof.
  intros Hix. destruct (decide (ix + 1 < n)%nat).
  - rewrite Z.mod_small by lia. lia.
  - replace (Z.of_nat ix + 1)%Z with (Z.of_nat n) by lia.
    now rewrite Z_mod_same_full.
Qed.

Lemma wrap_prev (n ix : nat) :
  (ix < n)%nat ->
  Z.to_nat ((Z.of_nat ix - 1) mod Z.of_nat n)
  = if decide (ix = 0)%nat then (n - 1)%nat else (ix - 1)%nat.
Proof.
  intros Hix. destruct (decide (ix = 0%nat)) as [->|].
  - replace (Z.of_nat 0 - 1)%Z with (Z.of_nat n - 1 + (-1) * Z.of_nat n)%Z by lia.
    rewrite Z_mod_plus_full, Z.mod_small by lia. lia.
  - rewrite Z.mod_small by lia. lia.
Qed.

Lemma wrapped_lookup (F : list (list Q)) (r0 rl : list Q) (ix : nat) :
  F !! 0%nat = Some r0 -> F !! (length F - 1)%nat = Some rl ->
  (ix < length F)%nat ->
  (rl :: F ++ [r0]) !! (2 + ix)%nat
  = Some (nth (Z.to_nat ((Z.of_nat ix + 1) mod Z.of_nat (length F))) F [])
  /\ (rl :: F ++ [r0]) !! ix
     = Some (nth (Z.to_nat ((Z.of_nat ix - 1) mod Z.of_nat (length F))) F [])
  /\ (rl :: F ++ [r0]) !! (1 + ix)%nat
     = Some (nth (Z.to_nat (Z.of_nat ix mod Z.of_nat (length F))) F []).
Proof.
  intros H0 Hl Hix.
  rewrite wrap_next, wrap_prev by exact Hix.
  rewrite Z.mod_small, Nat2Z.id by lia.
  repeat split.
  - change ((rl :: F ++ [r0]) !! (2 + ix)%nat) with ((F ++ [r0]) !! S ix).
    destruct (decide (ix + 1 < length F)%nat).
    + destruct (lookup_lt_is_Some_2 F (S ix)) as [x Hx]; [lia|].
      rewrite (lookup_app_l_Some _ _ _ _ Hx).
      replace (ix + 1)%nat with (S ix) by lia.
      now rewrite (nth_lookup_Some _ _ _ _ Hx).
    + rewrite lookup_app_r by lia.
      replace (S ix - length F)%nat with 0%nat by lia.
      now rewrite (nth_lookup_Some _ _ _ _ H0).
  - destruct (decide (ix = 0%nat)) as [->|].
    + now rewrite (nth_lookup_Some _ _ _ _ Hl).
    + destruct ix as [|ix]; [congruence|].
      change ((rl :: F ++ [r0]) !! S ix) with ((F ++ [r0]) !! ix).
      destruct (lookup_lt_is_Some_2 F ix) as [x Hx]; [lia|].
      rewrite (lookup_app_l_Some _ _ _ _ Hx).
      replace (S ix - 1)%nat with ix by lia.
      now rewrite (nth_lookup_Some _ _ _ _ Hx).
  - change ((rl :: F ++ [r0]) !! (1 + ix)%nat) with ((F ++ [r0]) !! ix).
    destruct (lookup_lt_is_Some_2 F ix) as [x Hx]; [lia|].
    rewrite (lookup_app_l_Some _ _ _ _ Hx).
    now rewrite (nth_lookup_Some _ _ _ _ Hx).
Qed.

(** The rows of the padded array the two differences read. *)
Lemma padded_rows_lookup (F : list (list Q)) (r0 rl : list Q) (ix : nat) :
  F !! 0%nat = Some r0 -> F !! (length F - 1)%nat = Some rl ->
  (ix < length F)%nat ->
  let f_pad := np.pad_const_cols 0 (rl :: F ++ [r0]) in
  map np.strip (np.from 2 f_pad) !! ix
  = Some (nth (Z.to_nat ((Z.of_nat ix + 1) mod Z.of_nat (length F))) F [])
  /\ map np.strip (np.upto_last 2 f_pad) !! ix
     = Some (nth (Z.to_nat ((Z.of_nat ix - 1) mod Z.of_nat (length F))) F [])
  /\ np.strip f_pad !! ix
     = Some (0 :: nth (Z.to_nat (Z.of_nat ix mod Z.of_nat (length F))) F [] ++ [0]).
Proof.
  intros H0 Hl Hix f_pad.
  destruct (wrapped_lookup F r0 rl ix H0 Hl Hix) as (Hnext & Hprev & Hcur).
  assert (Hlen : length f_pad = (length F + 2)%nat).
  { unfold f_pad, np.pad_const_cols. rewrite length_map. simpl.
    rewrite length_app. simpl. lia. }
  repeat split.
  - rewrite lookup_map. unfold np.from. rewrite lookup_drop.
    unfold f_pad, np.pad_const_cols. rewrite lookup_map, Hnext. simpl.
    now rewrite strip_pad.
  - rewrite lookup_map. unfold np.upto_last.
    rewrite lookup_take_lt by lia.
    unfold f_pad, np.pad_const_cols. rewrite lookup_map, Hprev. simpl.
    now rewrite strip_pad.
  - unfold np.strip, np.upto_last, np.from.
    rewrite lookup_take_lt by (rewrite length_drop; lia).
    rewrite lookup_drop.
    unfold f_pad, np.pad_const_cols. now rewrite lookup_map, Hcur.
Qed.

Lemma dfdt_row_length (self : HoleClump.t) (E : Q) (rnext rprev rcur : list Q) :
  length (HoleClump.v self) = HoleClump.nv self ->
  length rnext = HoleClump.nv self -> length rprev = HoleClump.nv self ->
  length rcur = HoleClump.nv self ->
  length (dfdt_row self E rnext rprev rcur) = HoleClump.nv self.
Proof.
  intros Hv Hn Hp Hc. unfold dfdt_row, np.from, np.upto_last.
  list_lengths. lia.
Qed.

Lemma dfdt_row_lookup (self : HoleClump.t) (E : Q) (rnext rprev rcur : list Q)
    (iv : nat) :
  length (HoleClump.v self) = HoleClump.nv self ->
  length rnext = HoleClump.nv self -> length rprev = HoleClump.nv self ->
  length rcur = HoleClump.nv self -> (iv < HoleClump.nv self)%nat ->
  dfdt_row self E rnext rprev rcur !! iv
  = Some (- nth iv (HoleClump.v self) 0
          * ((col rnext (Z.of_nat iv) - col rprev (Z.of_nat iv))
             / (2 * HoleClump.dx self))
          + E * ((col rcur (Z.of_nat iv + 1) - col rcur (Z.of_nat iv - 1))
                 / (2 * HoleClump.dv self))).
Proof.
  intros Hv Hn Hp Hc Hiv. unfold dfdt_row, np.from, np.upto_last.
  assert (Hcol : forall r, length r = HoleClump.nv self ->
                           r !! iv = Some (col r (Z.of_nat iv))).
  { intros r Hr. unfold col.
    destruct (Z.ltb_spec (Z.of_nat iv) 0); [lia|].
    destruct (Z.leb_spec (Z.of_nat (length r)) (Z.of_nat iv)); [lia|]. simpl.
    rewrite Nat2Z.id, nth_lookup.
    destruct (lookup_lt_is_Some_2 r iv) as [x Hx]; [lia|]. now rewrite Hx. }
  repeat (rewrite lookup_zip_with || rewrite lookup_map).
  rewrite (Hcol _ Hn), (Hcol _ Hp).
  rewrite (nth_lookup_Some _ _ 0 _ (Hcol _ Hv)), (Hcol _ Hv).
  rewrite lookup_drop, lookup_take_lt by (list_lengths; lia).
  rewrite !pad_lookup by lia.
  replace (Z.of_nat (2 + iv) - 1)%Z with (Z.of_nat iv + 1)%Z by lia.
  reflexivity.
Qed.

(** The derivative of a packed state, row by row. *)
Lemma dfdt_pack (self : HoleClump.t) (coef t_ : Q) (F : list (list Q)) (V E : Q) :
  length F = HoleClump.nx self ->
  Forall (fun r => length r = HoleClump.nv self) F ->
  (0 < HoleClump.nx self)%nat ->
  exists DF,
    HoleClump.dfdt self coef t_
      (HoleClump.pack (matrix (HoleClump.nv self) F) V E)
    = inr (concat DF
             ++ [- E - HoleClump.nu self * V]
             ++ [coef * (HoleClump.ne self * V
                         + np.sum (concat (map (fun r => zip_with Qmult r
                                                           (HoleClump.v self)) F))
                           * HoleClump.dv self)])
    /\ length DF = HoleClump.nx self
    /\ forall ix, (ix < HoleClump.nx self)%nat ->
         DF !! ix
         = Some (dfdt_row self E
                   (nth (Z.to_nat ((Z.of_nat ix + 1) mod Z.of_nat (length F))) F [])
                   (nth (Z.to_nat ((Z.of_nat ix - 1) mod Z.of_nat (length F))) F [])
                   (nth (Z.to_nat (Z.of_nat ix mod Z.of_nat (length F))) F [])).
Proof.
  intros HnF HF Hpos.
  destruct (lookup_lt_is_Some_2 F 0) as [r0 H0]; [lia|].
  destruct (pad_wrap_rows_lookup F r0 H0) as (fw & rl & Hfw & Hl & ->).
  unfold HoleClump.dfdt. rewrite (encode_pack self F V E HnF HF).
  cbn [bind fst snd]. rewrite Hfw. cbn [bind]. unfold ret.
  eexists. split; [reflexivity|].
  assert (Hlen : length (np.pad_const_cols 0 (rl :: F ++ [r0]))
                 = (length F + 2)%nat).
  { unfold np.pad_const_cols. list_lengths. lia. }
  split.
  - set (f_pad := np.pad_const_cols 0 _) in *.
    unfold np.strip, np.upto_last, np.from. list_lengths.
    rewrite Hlen. lia.
  - intros ix Hix. rewrite <- HnF in Hix.
    destruct (padded_rows_lookup F r0 rl ix H0 Hl Hix) as (Hnext & Hprev & Hcur).
    unfold dfdt_row. apply lookup_zip_with_Some'.
    + do 2 apply lookup_map_Some. now apply lookup_zip_with_Some'.
    + do 2 apply lookup_map_Some.
      apply lookup_zip_with_Some'; now apply lookup_map_Some.
Qed.

Lemma Forall_nth_row {A : Type} (P : list A -> Prop) (F : list (list A)) (k : nat) :
  Forall P F -> (k < length F)%nat -> P (nth k F []).
Proof.
  intros HF Hk. destruct (lookup_lt_is_Some_2 F k Hk) as [r Hr].
  rewrite (nth_lookup_Some _ _ _ _ Hr).
  exact (proj1 (Forall_lookup P F) HF k r Hr).
Qed.

Lemma wrap_index_lt (n : nat) (i : Z) :
  (0 < n)%nat -> (Z.to_nat (i mod Z.of_nat n) < n)%nat.
Proof. intros Hn. pose proof (Z.mod_pos_bound i (Z.of_nat n)). lia. Qed.

Lemma dfdt_rows_uniform (self : HoleClump.t) (E : Q) (F DF : list (list Q)) :
  length F = HoleClump.nx self ->
  Forall (fun r => length r = HoleClump.nv self) F ->
  length (HoleClump.v self) = HoleClump.nv self ->
  length DF = HoleClump.nx self ->
  (forall ix, (ix < HoleClump.nx self)%nat ->
     DF !! ix
     = Some (dfdt_row self E
               (nth (Z.to_nat ((Z.of_nat ix + 1) mod Z.of_nat (length F))) F [])
               (nth (Z.to_nat ((Z.of_nat ix - 1) mod Z.of_nat (length F))) F [])
               (nth (Z.to_nat (Z.of_nat ix mod Z.of_nat (length F))) F [])) ) ->
  Forall (fun r => length r = HoleClump.nv self) DF.
Proof.
  intros HnF HF Hv HnD Hrow. apply Forall_lookup. intros i r Hr.
  assert (Hi : (i < HoleClump.nx self)%nat).
  { rewrite <- HnD. eapply lookup_lt_Some. exact Hr. }
  rewrite (Hrow i Hi) in Hr. injection Hr as <-.
  apply dfdt_row_length; [exact Hv|..];
    apply (Forall_nth_row (fun r => length r = HoleClump.nv self));
    try exact HF; apply wrap_index_lt; lia.
Qed.

(** C3.  At every grid point [(ix, iv)] the derivative evaluation returns,
    in the slot of that point, [-v * dF/dx + E * dF/dv], where both
    derivatives are centered differences over the ghost-cell view of [F]
    (periodic in [x], zero beyond the [v] range) divided by [2*dx] and
    [2*dv]. *)
Theorem dfdt_centered_differences (self : HoleClump.t) (coef t_ : Q)
    (F : list (list Q)) (V E : Q) (ix iv : nat) :
  length F = HoleClump.nx self ->
  Forall (fun r => length r = HoleClump.nv self) F ->
  length (HoleClump.v self) = HoleClump.nv self ->
  (ix < HoleClump.nx self)%nat -> (iv < HoleClump.nv self)%nat ->
  exists out,
    HoleClump.dfdt self coef t_
      (HoleClump.pack (matrix (HoleClump.nv self) F) V E) = inr out
    /\ length out = (HoleClump.nx self * HoleClump.nv self + 2)%nat
    /\ out !! (ix * HoleClump.nv self + iv)%nat
       = Some (- nth iv (HoleClump.v self) 0
               * ((ghost F (Z.of_nat ix + 1) (Z.of_nat iv)
                   - ghost F (Z.of_nat ix - 1) (Z.of_nat iv))
                  / (2 * HoleClump.dx self))
               + E * ((ghost F (Z.of_nat ix) (Z.of_nat iv + 1)
                       - ghost F (Z.of_nat ix) (Z.of_nat iv - 1))
                      / (2 * HoleClump.dv self)))
    /\ out !! (ix * HoleClump.nv self + iv)%nat = Some (dFdt_spec self F E ix iv).
Proof.
  intros HnF HF Hv Hix Hiv.
  destruct (dfdt_pack self coef t_ F V E HnF HF) as (DF & Hout & HnD & Hrow);
    [lia|].
  pose proof (dfdt_rows_uniform self E F DF HnF HF Hv HnD Hrow) as HDF.
  eexists. split; [exact Hout|].
  assert (Hslot : (concat DF ++ [- E - HoleClump.nu self * V]
                     ++ [coef * (HoleClump.ne self * V
                                 + np.sum (concat (map (fun r => zip_with Qmult r
                                                           (HoleClump.v self)) F))
                                   * HoleClump.dv self)])
                  !! (ix * HoleClump.nv self + iv)%nat
                  = Some (dFdt_spec self F E ix iv)).
  { apply lookup_app_l_Some.
    apply (concat_lookup_uniform _ DF ix iv _ _ HDF (Hrow ix Hix)).
    unfold dFdt_spec, dFdx_spec, dFdv_spec, ghost.
    apply dfdt_row_lookup; try assumption;
      apply (Forall_nth_row (fun r => length r = HoleClump.nv self));
      try exact HF; apply wrap_index_lt; lia. }
  split; [|split; exact Hslot].
  rewrite !length_app, (concat_length_uniform _ DF HDF), HnD. simpl. lia.
Qed.

Lemma dfdt_centered_differences_witness :
  exists out,
    HoleClump.dfdt model_2x3 1 0
      (HoleClump.pack (matrix 3 [[1; 2; 3]; [4; 5; 6]]) 7 8) = inr out
    /\ out !! 5%nat = Some (dFdt_spec model_2x3 [[1; 2; 3]; [4; 5; 6]] 8 1 2).
Proof.
  destruct (dfdt_centered_differences model_2x3 1 0 [[1; 2; 3]; [4; 5; 6]] 7 8 1 2)
    as (out & Hout & _ & _ & Hslot).
  - reflexivity.
  - repeat constructor.
  - reflexivity.
  - simpl. lia.
  - simpl. lia.
  - exists out. split; [exact Hout | exact Hslot].
Defined.

(** ** The phase-space model: the two scalar slots *)

Lemma fold_left_Qplus (l : list Q) (a : Q) :
  fold_left Qplus l a == a + np.sum l.
Proof.
  unfold np.sum. revert a. induction l as [|x l IH]; intros a; simpl.
  - ring.
  - rewrite (IH (a + x)), (IH (0 + x)). ring.
Qed.

Lemma sum_app (l1 l2 : list Q) : np.sum (l1 ++ l2) == np.sum l1 + np.sum l2.
Proof.
  unfold np.sum at 1. rewrite fold_left_app.
  rewrite fold_left_Qplus. reflexivity.
Qed.

Lemma sum_cons (x : Q) (l : list Q) : np.sum (x :: l) == x + np.sum l.
Proof. unfold np.sum at 1. simpl. rewrite fold_left_Qplus. ring. Qed.

(** Summing the whole array is summing the row sums. *)
Lemma sum_concat (L : list (list Q)) :
  np.sum (concat L) == np.sum (map np.sum L).
Proof.
  induction L as [|r L IH]; simpl.
  - reflexivity.
  - rewrite sum_app, sum_cons, IH. reflexivity.
Qed.

Lemma coef_value :
  HoleClump.coef
  == HoleClump.e * HoleClump.e / (HoleClump.me * HoleClump.eps0).
Proof. reflexivity. Qed.

(** C4.  For a state [(F, V, E)] on a grid with at least one spatial
    point, the two scalar slots of the derivative are [dV/dt = -E - nu*V]
    and [dE/dt = e^2/(me*eps0) * (ne*V + S*dv)], where
    [S = sum_x (F[x, :] . v)] is the sum over the spatial axis of the
    products of the rows of [F] with the velocity grid: the one scalar
    that [np.sum(f * self.v)] computes. *)
Theorem dfdt_scalar_slots (self : HoleClump.t) (t_ : Q)
    (F : list (list Q)) (V E : Q) :
  length F = HoleClump.nx self ->
  Forall (fun r => length r = HoleClump.nv self) F ->
  length (HoleClump.v self) = HoleClump.nv self ->
  (0 < HoleClump.nx self)%nat ->
  exists out dE,
    HoleClump.dfdt self HoleClump.coef t_
      (HoleClump.pack (matrix (HoleClump.nv self) F) V E) = inr out
    /\ out !! (HoleClump.nx self * HoleClump.nv self)%nat
       = Some (- E - HoleClump.nu self * V)
    /\ out !! (HoleClump.nx self * HoleClump.nv self + 1)%nat = Some dE
    /\ dE == HoleClump.e * HoleClump.e / (HoleClump.me * HoleClump.eps0)
             * (HoleClump.ne self * V + moment_all self F * HoleClump.dv self).
Proof.
  intros HnF HF Hv Hpos.
  destruct (dfdt_pack self HoleClump.coef t_ F V E HnF HF Hpos)
    as (DF & Hout & HnD & Hrow).
  pose proof (dfdt_rows_uniform self E F DF HnF HF Hv HnD Hrow) as HDF.
  pose proof (concat_length_uniform _ DF HDF) as Hlen. rewrite HnD in Hlen.
  eexists. eexists. split; [exact Hout|].
  split; [|split].
  - rewrite lookup_app_r by lia. now rewrite Hlen, Nat.sub_diag.
  - rewrite lookup_app_r by lia.
    replace (_ - _)%nat with 1%nat by lia. reflexivity.
  - rewrite sum_concat, coef_value. unfold moment_all.
    rewrite map_map. reflexivity.
Qed.

Lemma dfdt_scalar_slots_witness :
  exists out dE,
    HoleClump.dfdt model_2x3 HoleClump.coef 0
      (HoleClump.pack (matrix 3 [[1; 2; 3]; [4; 5; 6]]) 7 8) = inr out
    /\ out !! 6%nat = Some (- 8 - 1 * 7)
    /\ out !! 7%nat = Some dE
    /\ dE == HoleClump.e * HoleClump.e / (HoleClump.me * HoleClump.eps0)
             * (1 * 7 + moment_all model_2x3 [[1; 2; 3]; [4; 5; 6]] * 1).
Proof.
  apply (dfdt_scalar_slots model_2x3 0 [[1; 2; 3]; [4; 5; 6]] 7 8).
  - reflexivity.
  - repeat constructor.
  - reflexivity.
  - simpl. lia.
Defined.

(** ** The spectral model: array primitives *)

Lemma mapM_py_map {A B : Type} (f : A -> py B) (g : A -> B) (l : list A) :
  Forall (fun x => f x = inr (g x)) l -> mapM_py f l = inr (map g l).
Proof.
  induction 1 as [|x l Hx Hl IH]; simpl; [reflexivity|].
  now rewrite Hx, IH.
Qed.

Lemma mapM_py_inr {A B : Type} (f : A -> py B) (l : list A) (ys : list B) :
  mapM_py f l = inr ys -> Forall2 (fun x y => f x = inr y) l ys.
Proof.
  revert ys. induction l as [|x l IH]; intros ys; simpl.
  - intros [= <-]. constructor.
  - destruct (f x) as [err|y] eqn:Hx; simpl; [discriminate|].
    destruct (mapM_py f l) as [err|ys'] eqn:Hl; simpl; [discriminate|].
    intros [= <-]. constructor; [exact Hx | now apply IH].
Qed.

Lemma getitem_Z {A : Type} (a : list A) (i : Z) (d : A) :
  (0 <= i < Z.of_nat (length a))%Z ->
  np.getitem a i = inr (nth (Z.to_nat i) a d).
Proof.
  intros Hi. rewrite <- (Z2Nat.id i) at 1 by lia.
  apply getitem_nat.
  destruct (lookup_lt_is_Some_2 a (Z.to_nat i)) as [x Hx]; [lia|].
  now rewrite (nth_lookup_Some _ _ _ _ Hx).
Qed.

Lemma take_map {A : Type} (a : list A) (idx : list Z) (d : A) :
  Forall (fun i => (0 <= i < Z.of_nat (length a))%Z) idx ->
  np.take a idx = inr (map (fun i => nth (Z.to_nat i) a d) idx).
Proof.
  intros Hidx. unfold np.take. apply mapM_py_map.
  eapply Forall_impl; [exact Hidx|]. intros i Hi. now apply getitem_Z.
Qed.

(** Storing a full row through the index vector [0, 1, ..., n-1]. *)
Lemma setitem_seq {A : Type} (vals pre old : list A) :
  length old = length vals ->
  foldM (fun r p => do i <- np.norm_index (length r) (fst p);
                    ret (<[i := snd p]> r))
        (zip (map Z.of_nat (seq (length pre) (length vals))) vals) (pre ++ old)
  = inr (pre ++ vals).
Proof.
  revert pre old. induction vals as [|x vals IH]; intros pre old Hlen.
  - destruct old; [reflexivity | discriminate].
  - destruct old as [|o old]; [discriminate|]. simpl in Hlen.
    cbn [length seq map zip zip_with foldM fst snd].
    rewrite norm_index_nat by (rewrite length_app; simpl; lia).
    cbn [bind].
    replace (<[length pre := x]> (pre ++ o :: old)) with ((pre ++ [x]) ++ old).
    2:{ rewrite insert_app_r_alt by lia. rewrite Nat.sub_diag. simpl.
        now rewrite <- app_assoc. }
    specialize (IH (pre ++ [x]) old).
    rewrite length_app in IH. simpl in IH.
    replace (length pre + 1)%nat with (S (length pre)) in IH by lia.
    unfold ret at 1. cbn [bind]. rewrite IH by lia. now rewrite <- app_assoc.
Qed.

Lemma setitem_arange {A : Type} (row vals : list A) :
  length row = length vals ->
  np.setitem row (np.arange (length vals)) vals = inr vals.
Proof.
  intros Hlen. unfold np.setitem, np.arange.
  exact (setitem_seq vals [] row Hlen).
Qed.

Lemma list_eq_map_seq {A : Type} (g : nat -> A) (n : nat) (l : list A) :
  length l = n -> (forall i, (i < n)%nat -> l !! i = Some (g i)) ->
  l = map g (seq 0 n).
Proof.
  intros Hlen Hl. apply list_eq. intros i. rewrite lookup_map.
  destruct (decide (i < n)%nat) as [Hi|Hi].
  - rewrite (Hl i Hi), lookup_seq_lt by exact Hi. reflexivity.
  - rewrite lookup_seq_ge by lia. apply lookup_ge_None. lia.
Qed.

Lemma zip_with_map_same {A B D E : Type} (f : B -> D -> E) (g : A -> B)
    (h : A -> D) (l : list A) :
  zip_with f (map g l) (map h l) = map (fun x => f (g x) (h x)) l.
Proof. induction l as [|x l IH]; simpl; [reflexivity | now rewrite IH]. Qed.

Lemma where_map_same {A B : Type} (c : A -> bool) (g : A -> B) (y : B)
    (l : list A) :
  np.where_ (map c l) (map g l) y = map (fun x => if c x then g x else y) l.
Proof. unfold np.where_. apply zip_with_map_same. Qed.

Lemma where_idem {A : Type} (c : list bool) (x : list A) (y : A) :
  np.where_ c (np.where_ c x y) y = np.where_ c x y.
Proof.
  unfold np.where_. revert x. induction c as [|b c IH]; intros [|v x]; simpl;
    try reflexivity.
  rewrite IH. now destruct b.
Qed.

Lemma take_map_seq {A : Type} (a : list A) (g : nat -> Z) (n : nat) (d : A) :
  (forall j, (j < n)%nat -> (0 <= g j < Z.of_nat (length a))%Z) ->
  np.take a (map g (seq 0 n))
  = inr (map (fun j => nth (Z.to_nat (g j)) a d) (seq 0 n)).
Proof.
  intros Hg. rewrite (take_map a _ d), map_map; [reflexivity|].
  apply Forall_forall. intros i Hi. apply list_elem_of_In, in_map_iff in Hi.
  destruct Hi as (j & <- & Hj). apply in_seq in Hj. apply Hg. lia.
Qed.

Lemma take2_map_seq {A : Type} (a : list (list A)) (gx gy : nat -> Z)
    (n n0 n1 : nat) (d : A) :
  length a = n0 -> Forall (fun r => length r = n1) a ->
  (forall j, (j < n)%nat -> (0 <= gx j < Z.of_nat n0)%Z) ->
  (forall j, (j < n)%nat -> (0 <= gy j < Z.of_nat n1)%Z) ->
  np.take2 a (map gx (seq 0 n)) (map gy (seq 0 n))
  = inr (map (fun j => nth (Z.to_nat (gy j)) (nth (Z.to_nat (gx j)) a []) d)
             (seq 0 n)).
Proof.
  intros Ha Hrows Hgx Hgy. unfold np.take2.
  rewrite zip_with_map_same.
  rewrite (mapM_py_map _ (fun p => nth (Z.to_nat (snd p))
                                     (nth (Z.to_nat (fst p)) a []) d)).
  - now rewrite map_map.
  - apply Forall_forall. intros p Hp. apply list_elem_of_In, in_map_iff in Hp.
    destruct Hp as (j & <- & Hj). apply in_seq in Hj. simpl.
    rewrite (getitem_Z a (gx j) []) by (rewrite Ha; apply Hgx; lia).
    cbn [bind]. apply getitem_Z.
    rewrite (Forall_nth_row (fun r => length r = n1) a); [apply Hgy; lia|exact Hrows|].
    specialize (Hgx j). lia.
Qed.

(** The partner index vectors, entry by entry. *)
Lemma partner_jx_eq (nx ny : nat) :
  HasegawaMimaFourier.partner_jx nx ny
  = map (fun j => (Z.of_nat j / Z.of_nat ny)%Z) (seq 0 (nx * ny)).
Proof.
  unfold HasegawaMimaFourier.partner_jx, np.arange.
  assert (Hrows : Forall (fun r : list Z => length r = ny)
                    (map (fun a => replicate ny a) (map Z.of_nat (seq 0 nx)))).
  { apply Forall_forall. intros r Hr. apply list_elem_of_In, in_map_iff in Hr.
    destruct Hr as (a & <- & _). apply length_replicate. }
  apply list_eq_map_seq.
  - rewrite (concat_length_uniform _ _ Hrows), !length_map, length_seq. reflexivity.
  - intros j Hj.
    assert (Hny : (0 < ny)%nat) by (destruct ny; lia).
    rewrite (Nat.div_mod_eq j ny) at 1.
    rewrite (Nat.mul_comm ny).
    apply (concat_lookup_uniform _ _ _ _ (replicate ny (Z.of_nat (j / ny))) _ Hrows).
    + do 2 (rewrite lookup_map). rewrite lookup_seq_lt.
      * reflexivity.
      * apply Nat.Div0.div_lt_upper_bound. lia.
    + rewrite <- Nat2Z.inj_div. apply lookup_replicate_2.
      apply Nat.mod_upper_bound. lia.
Qed.

Lemma partner_jy_eq (nx ny : nat) :
  HasegawaMimaFourier.partner_jy nx ny
  = map (fun j => (Z.of_nat j mod Z.of_nat ny)%Z) (seq 0 (nx * ny)).
Proof.
  unfold HasegawaMimaFourier.partner_jy, np.arange.
  assert (Hrows : Forall (fun r : list Z => length r = ny)
                    (map (fun _ : Z => map Z.of_nat (seq 0 ny))
                         (map Z.of_nat (seq 0 nx)))).
  { apply Forall_forall. intros r Hr. apply list_elem_of_In, in_map_iff in Hr.
    destruct Hr as (a & <- & _). now rewrite length_map, length_seq. }
  apply list_eq_map_seq.
  - rewrite (concat_length_uniform _ _ Hrows), !length_map, length_seq. reflexivity.
  - intros j Hj.
    assert (Hny : (0 < ny)%nat) by (destruct ny; lia).
    rewrite (Nat.div_mod_eq j ny) at 1.
    rewrite (Nat.mul_comm ny).
    apply (concat_lookup_uniform _ _ _ _ (map Z.of_nat (seq 0 ny)) _ Hrows).
    + do 2 (rewrite lookup_map). rewrite lookup_seq_lt.
      * reflexivity.
      * apply Nat.Div0.div_lt_upper_bound. lia.
    + rewrite lookup_map, lookup_seq_lt by (apply Nat.mod_upper_bound; lia).
      simpl. now rewrite Nat2Z.inj_mod.
Qed.

Lemma shape3_row {A : Type} (n0 n1 n2 : nat) (a : list (list (list A)))
    (ix iy : nat) :
  shape3 n0 n1 n2 a -> (ix < n0)%nat -> (iy < n1)%nat ->
  a !! ix = Some (nth ix a [])
  /\ length (nth ix a []) = n1
  /\ nth ix a [] !! iy = Some (nth iy (nth ix a []) [])
  /\ length (nth iy (nth ix a []) []) = n2.
Proof.
  intros [Hlen Hall] Hix Hiy.
  destruct (lookup_lt_is_Some_2 a ix) as [pl Hpl]; [lia|].
  rewrite (nth_lookup_Some _ _ _ _ Hpl).
  destruct (proj1 (Forall_lookup _ a) Hall ix pl Hpl) as [Hn1 Hrows].
  destruct (lookup_lt_is_Some_2 pl iy) as [r Hr]; [lia|].
  rewrite (nth_lookup_Some _ _ _ _ Hr).
  pose proof (proj1 (Forall_lookup _ pl) Hrows iy r Hr).
  auto.
Qed.

Lemma setitem3_arange {A : Type} (n0 n1 n : nat) (a : list (list (list A)))
    (ix iy : nat) (vals : list A) :
  shape3 n0 n1 n a -> (ix < n0)%nat -> (iy < n1)%nat -> length vals = n ->
  np.setitem3 a ix iy (np.arange n) vals = inr (store2 a ix iy vals).
Proof.
  intros Ha Hix Hiy Hvals.
  destruct (shape3_row n0 n1 n a ix iy Ha Hix Hiy) as (Hpl & _ & Hrow & Hlen).
  unfold np.setitem3.
  rewrite (getitem_nat _ _ _ Hpl). cbn [bind].
  rewrite (getitem_nat _ _ _ Hrow). cbn [bind].
  rewrite <- Hvals, setitem_arange by lia. reflexivity.
Qed.

Lemma store2_shape {A : Type} (n0 n1 n : nat) (a : list (list (list A)))
    (ix iy : nat) (vals : list A) :
  shape3 n0 n1 n a -> length vals = n -> shape3 n0 n1 n (store2 a ix iy vals).
Proof.
  intros [Hlen Hall] Hvals. unfold store2.
  destruct (decide (ix < length a)%nat) as [Hix|Hix].
  - split; [now rewrite length_insert|].
    apply Forall_insert; [exact Hall|].
    pose proof (Forall_nth_row _ a ix Hall Hix) as [Hn1 Hrows].
    split; [now rewrite length_insert|].
    apply Forall_insert; assumption.
  - rewrite list_insert_ge by lia. now split.
Qed.

Lemma store2_lookup {A : Type} (n0 n1 n : nat) (a : list (list (list A)))
    (ix iy : nat) (vals : list A) (i j : nat) :
  shape3 n0 n1 n a -> (ix < n0)%nat -> (iy < n1)%nat ->
  lookup2 (store2 a ix iy vals) i j
  = if decide (i = ix /\ j = iy) then Some vals else lookup2 a i j.
Proof.
  intros Ha Hix Hiy.
  destruct (shape3_row n0 n1 n a ix iy Ha Hix Hiy) as (Hpl & Hn1 & _ & _).
  destruct Ha as [Hlen _]. unfold store2, lookup2.
  destruct (decide (i = ix)) as [->|Hi].
  - rewrite list_lookup_insert_eq by lia. simpl.
    destruct (decide (j = iy)) as [->|Hj].
    + rewrite list_lookup_insert_eq by lia.
      now rewrite decide_True by auto.
    + rewrite list_lookup_insert_ne by auto.
      rewrite decide_False by tauto. now rewrite Hpl.
  - rewrite list_lookup_insert_ne by auto.
    now rewrite decide_False by tauto.
Qed.

(** ** The spectral model: one pass of the double loop *)

Lemma jx_of_range (kxs kys : list Q) (j : nat) :
  (j < length kxs * length kys)%nat ->
  (0 <= jx_of kys j < Z.of_nat (length kxs))%Z.
Proof.
  intros Hj. unfold jx_of, nyZ.
  assert (0 < length kys)%nat by (destruct (length kys); lia).
  split; [apply Z.div_pos; lia|].
  apply Z.div_lt_upper_bound; nia.
Qed.

Lemma jy_of_range (kxs kys : list Q) (j : nat) :
  (j < length kxs * length kys)%nat ->
  (0 <= jy_of kys j < Z.of_nat (length kys))%Z.
Proof.
  intros Hj. unfold jy_of, nyZ.
  assert (0 < length kys)%nat by (destruct (length kys); lia).
  apply Z.mod_pos_bound. lia.
Qed.

Lemma qx_of_range (kxs kys : list Q) (ix j : nat) :
  (0 < length kxs)%nat -> (0 <= qx_of kxs kys ix j < Z.of_nat (length kxs))%Z.
Proof.
  intros Hnx. unfold qx_of, valid_x, nxZ.
  destruct (Z.leb_spec 0 (lx_of kxs kys ix j));
    destruct (Z.ltb_spec (lx_of kxs kys ix j) (Z.of_nat (length kxs)));
    simpl; lia.
Qed.

Lemma qy_of_range (kys : list Q) (iy j : nat) :
  (0 < length kys)%nat -> (0 <= qy_of kys iy j < Z.of_nat (length kys))%Z.
Proof.
  intros Hny. unfold qy_of, valid_y, nyZ.
  destruct (Z.leb_spec 0 (ly_of kys iy j));
    destruct (Z.ltb_spec (ly_of kys iy j) (Z.of_nat (length kys)));
    simpl; lia.
Qed.

Lemma loop_body_spec (kxs kys : list Q) (k2s : list (list Q)) (ix iy : nat)
    (kxv kyv : Q) (st : HasegawaMimaFourier.tensors) :
  (ix < length kxs)%nat -> (iy < length kys)%nat ->
  length k2s = length kxs -> Forall (fun r => length r = length kys) k2s ->
  tensors_shape (length kxs) (length kys) (length kxs * length kys) st ->
  HasegawaMimaFourier.loop_body kxs kys k2s ix kxv iy kyv st
  = do _ <- sanity kxs kys ix iy kxv kyv;
    ret (store_rows kxs kys k2s ix iy st).
Proof.
  intros Hix Hiy Hk2 Hk2rows (Hm & Hpx & Hpy & Hqx & Hqy).
  assert (Hnx : (0 < length kxs)%nat) by lia.
  assert (Hny : (0 < length kys)%nat) by lia.
  unfold HasegawaMimaFourier.loop_body.
  rewrite partner_jx_eq, partner_jy_eq.
  set (N := (length kxs * length kys)%nat).
  rewrite !where_idem.
  repeat (rewrite zip_with_map_same || rewrite map_map || rewrite where_map_same).
  assert (Hj : map (fun x : nat =>
                      (Z.of_nat x `div` Z.of_nat (length kys) * Z.of_nat (length kys)
                       + Z.of_nat x `mod` Z.of_nat (length kys))%Z) (seq 0 N)
               = np.arange N).
  { unfold np.arange. apply map_ext. intros j.
    pose proof (Z.div_mod (Z.of_nat j) (Z.of_nat (length kys))). lia. }
  rewrite Hj. clear Hj.
  rewrite (setitem3_arange _ _ N _ ix iy _ Hpx Hix Hiy)
    by now rewrite length_map, length_seq.
  cbn [bind].
  rewrite (setitem3_arange _ _ N _ ix iy _ Hpy Hix Hiy)
    by now rewrite length_map, length_seq.
  cbn [bind].
  rewrite (setitem3_arange _ _ N _ ix iy _ Hqx Hix Hiy)
    by now rewrite length_map, length_seq.
  cbn [bind].
  rewrite (setitem3_arange _ _ N _ ix iy _ Hqy Hix Hiy)
    by now rewrite length_map, length_seq.
  cbn [bind].
  rewrite (take_map_seq kxs _ N 0)
    by (intros j Hj; exact (qx_of_range kxs kys ix j Hnx)).
  cbn [bind].
  rewrite (take_map_seq kys _ N 0)
    by (intros j Hj; exact (qy_of_range kys iy j Hny)).
  cbn [bind].
  rewrite (take2_map_seq k2s _ _ N (length kxs) (length kys) 0 Hk2 Hk2rows)
    by (intros j Hj; first [exact (qx_of_range kxs kys ix j Hnx)
                           | exact (qy_of_range kys iy j Hny)]).
  cbn [bind].
  rewrite (take_map_seq kxs _ N 0)
    by (intros j Hj; exact (jx_of_range kxs kys j Hj)).
  cbn [bind].
  rewrite (take_map_seq kys _ N 0)
    by (intros j Hj; exact (jy_of_range kxs kys j Hj)).
  cbn [bind].
  repeat (rewrite zip_with_map_same || rewrite map_map || rewrite where_map_same).
  rewrite (setitem3_arange _ _ N _ ix iy _ Hm Hix Hiy)
    by now rewrite length_map, length_seq.
  cbn [bind].
  match goal with
  | |- bind (py_assert ?a _) (fun _ => bind (py_assert ?b _) _) = _ =>
      change (sanity kxs kys ix iy kxv kyv)
        with (do _ <- py_assert a "kxsum"; py_assert b "kysum");
      destruct a; [|reflexivity]; destruct b; reflexivity
  end.
Qed.

(** ** The spectral model: the double loop *)

Lemma foldM_invariant {A St : Type} (f : St -> A -> py St)
    (I : nat -> St -> Prop) (l : list A) (s s' : St) :
  I 0%nat s ->
  (forall i a s1 s2, l !! i = Some a -> I i s1 -> f s1 a = inr s2 -> I (S i) s2) ->
  foldM f l s = inr s' -> I (length l) s'.
Proof.
  revert I s. induction l as [|a l IH]; intros I s H0 Hstep; simpl.
  - intros [= <-]. exact H0.
  - destruct (f s a) as [err|s1] eqn:Hf; simpl; [discriminate|].
    apply (IH (fun i => I (S i))).
    + exact (Hstep 0%nat a s s1 eq_refl H0 Hf).
    + intros i b s2 s3 Hb. exact (Hstep (S i) b s2 s3 Hb).
Qed.

Lemma foldM_total {A St : Type} (f : St -> A -> py St)
    (I : nat -> St -> Prop) (l : list A) (s : St) :
  I 0%nat s ->
  (forall i a s1, l !! i = Some a -> I i s1 ->
                  exists s2, f s1 a = inr s2 /\ I (S i) s2) ->
  exists s', foldM f l s = inr s' /\ I (length l) s'.
Proof.
  revert I s. induction l as [|a l IH]; intros I s H0 Hstep; simpl.
  - now exists s.
  - destruct (Hstep 0%nat a s eq_refl H0) as (s1 & Hf & H1).
    rewrite Hf. simpl.
    apply (IH (fun i => I (S i))); [exact H1|].
    intros i b s2 Hb. exact (Hstep (S i) b s2 Hb).
Qed.

Lemma enumerate_lookup {A : Type} (l : list A) (i : nat) (p : nat * A) :
  enumerate l !! i = Some p -> fst p = i /\ l !! i = Some (snd p).
Proof.
  unfold enumerate. destruct p as [k x]. intros Hp.
  apply lookup_zip_Some in Hp as [Hk Hx].
  apply lookup_seq in Hk as [-> _]. auto.
Qed.

Lemma enumerate_length {A : Type} (l : list A) : length (enumerate l) = length l.
Proof. unfold enumerate. rewrite length_zip, length_seq. lia. Qed.

Lemma setup_inv_ext (kxs kys : list Q) (k2s : list (list Q))
    (P P' : nat -> nat -> Prop) (st : HasegawaMimaFourier.tensors) :
  (forall i j, P' i j -> P i j) ->
  setup_inv kxs kys k2s P st -> setup_inv kxs kys k2s P' st.
Proof. intros HP [Hs Hr]. split; [exact Hs|]. intros i j Hij. apply Hr, HP, Hij. Qed.

(** Processing one more target keeps the invariant. *)
Lemma store_rows_inv (kxs kys : list Q) (k2s : list (list Q))
    (P : nat -> nat -> Prop) (ix iy : nat) (st : HasegawaMimaFourier.tensors) :
  (ix < length kxs)%nat -> (iy < length kys)%nat ->
  sanity kxs kys ix iy (nth ix kxs 0) (nth iy kys 0) = inr tt ->
  setup_inv kxs kys k2s P st ->
  setup_inv kxs kys k2s (fun i j => P i j \/ (i = ix /\ j = iy))
    (store_rows kxs kys k2s ix iy st).
Proof.
  intros Hix Hiy Hsan [(Hm & Hpx & Hpy & Hqx & Hqy) Hrows]. split.
  - unfold store_rows, tensors_shape. cbn.
    refine (conj _ (conj _ (conj _ (conj _ _))));
      apply store2_shape; try assumption; now rewrite length_map, length_seq.
  - intros i j Hij. unfold rows_at, store_rows. cbn.
    rewrite (store2_lookup _ _ _ _ ix iy _ i j Hm Hix Hiy).
    rewrite (store2_lookup _ _ _ _ ix iy _ i j Hpx Hix Hiy).
    rewrite (store2_lookup _ _ _ _ ix iy _ i j Hpy Hix Hiy).
    rewrite (store2_lookup _ _ _ _ ix iy _ i j Hqx Hix Hiy).
    rewrite (store2_lookup _ _ _ _ ix iy _ i j Hqy Hix Hiy).
    destruct (decide (i = ix /\ j = iy)) as [[-> ->]|Hne].
    + repeat split; try reflexivity. exact Hsan.
    + destruct Hij as [Hij|Hij]; [|tauto]. exact (Hrows i j Hij).
Qed.

Lemma loop_body_inr (kxs kys : list Q) (k2s : list (list Q)) (ix iy : nat)
    (st st' : HasegawaMimaFourier.tensors) :
  (ix < length kxs)%nat -> (iy < length kys)%nat ->
  length k2s = length kxs -> Forall (fun r => length r = length kys) k2s ->
  tensors_shape (length kxs) (length kys) (length kxs * length kys) st ->
  HasegawaMimaFourier.loop_body kxs kys k2s ix (nth ix kxs 0) iy (nth iy kys 0) st
  = inr st' ->
  sanity kxs kys ix iy (nth ix kxs 0) (nth iy kys 0) = inr tt
  /\ st' = store_rows kxs kys k2s ix iy st.
Proof.
  intros Hix Hiy Hk2 Hk2rows Hst.
  rewrite (loop_body_spec kxs kys k2s ix iy _ _ st Hix Hiy Hk2 Hk2rows Hst).
  destruct (sanity kxs kys ix iy _ _) as [err|[]]; simpl; [discriminate|].
  intros [= <-]. auto.
Qed.

Lemma zeros3_shape {A : Type} (z : A) (n0 n1 n2 : nat) :
  shape3 n0 n1 n2 (np.zeros3 z n0 n1 n2).
Proof.
  unfold np.zeros3, shape3. split; [apply length_replicate|].
  apply Forall_replicate. split; [apply length_replicate|].
  apply Forall_replicate. apply length_replicate.
Qed.

Section Loops.

Variables (kxs kys : list Q) (k2s : list (list Q)).
Hypothesis Hk2 : length k2s = length kxs.
Hypothesis Hk2rows : Forall (fun r => length r = length kys) k2s.

Lemma inner_loop_inr (ix : nat) (st st' : HasegawaMimaFourier.tensors) :
  (ix < length kxs)%nat ->
  setup_inv kxs kys k2s (before_row (length kys) ix) st ->
  outer_step kxs kys k2s st (ix, nth ix kxs 0) = inr st' ->
  setup_inv kxs kys k2s (before_row (length kys) (S ix)) st'.
Proof using Hk2 Hk2rows.
  intros Hix Hinv Hrun.
  apply (foldM_invariant _
           (fun k => setup_inv kxs kys k2s (before_cell (length kys) ix k)))
    in Hrun.
  - rewrite enumerate_length in Hrun.
    eapply setup_inv_ext; [|exact Hrun].
    unfold before_row, before_cell, before_row. intros i j [Hi Hj].
    destruct (decide (i = ix)); [right; lia | left; lia].
  - eapply setup_inv_ext; [|exact Hinv].
    unfold before_cell. intros i j [H|[_ H]]; [exact H | lia].
  - intros k [k' kyv] s1 s2 Hk Hs1 Hstep.
    apply enumerate_lookup in Hk as [Hk' Hkyv]. simpl in Hk', Hkyv. subst k'.
    pose proof (lookup_lt_Some _ _ _ Hkyv) as Hklt.
    unfold outer_step, inner_step in Hstep. simpl in Hstep.
    rewrite <- (nth_lookup_Some _ _ 0 _ Hkyv) in Hstep.
    apply loop_body_inr in Hstep as [Hsan ->];
      [|assumption|assumption|assumption|assumption|exact (proj1 Hs1)].
    eapply setup_inv_ext;
      [|exact (store_rows_inv kxs kys k2s _ ix k s1 Hix Hklt Hsan Hs1)].
    unfold before_cell. intros i j [H|[-> H]]; [tauto|].
    destruct (decide (j = k)); [right; auto | left; right; lia].
Qed.

Lemma inner_loop_total (ix : nat) (st : HasegawaMimaFourier.tensors) :
  (ix < length kxs)%nat ->
  (forall iy, (iy < length kys)%nat ->
              sanity kxs kys ix iy (nth ix kxs 0) (nth iy kys 0) = inr tt) ->
  setup_inv kxs kys k2s (before_row (length kys) ix) st ->
  exists st', outer_step kxs kys k2s st (ix, nth ix kxs 0) = inr st'
              /\ setup_inv kxs kys k2s (before_row (length kys) (S ix)) st'.
Proof using Hk2 Hk2rows.
  intros Hix Hsan Hinv.
  destruct (foldM_total (inner_step kxs kys k2s (ix, nth ix kxs 0))
              (fun k => setup_inv kxs kys k2s (before_cell (length kys) ix k))
              (enumerate kys) st) as (st' & Hrun & Hst').
  - eapply setup_inv_ext; [|exact Hinv].
    unfold before_cell. intros i j [H|[_ H]]; [exact H | lia].
  - intros k [k' kyv] s1 Hk Hs1.
    apply enumerate_lookup in Hk as [Hk' Hkyv]. simpl in Hk', Hkyv. subst k'.
    pose proof (lookup_lt_Some _ _ _ Hkyv) as Hklt.
    exists (store_rows kxs kys k2s ix k s1). split.
    + unfold inner_step. simpl.
      rewrite (loop_body_spec kxs kys k2s ix k _ _ s1 Hix Hklt Hk2 Hk2rows
                 (proj1 Hs1)).
      rewrite <- (nth_lookup_Some _ _ 0 _ Hkyv), (Hsan k Hklt). reflexivity.
    + eapply setup_inv_ext;
        [|exact (store_rows_inv kxs kys k2s _ ix k s1 Hix Hklt (Hsan k Hklt) Hs1)].
      unfold before_cell. intros i j [H|[-> H]]; [tauto|].
      destruct (decide (j = k)); [right; auto | left; right; lia].
  - exists st'. split; [exact Hrun|].
    rewrite enumerate_length in Hst'.
    eapply setup_inv_ext; [|exact Hst'].
    unfold before_row, before_cell, before_row. intros i j [Hi Hj].
    destruct (decide (i = ix)); [right; lia | left; lia].
Qed.

Lemma outer_loop_inr (st st' : HasegawaMimaFourier.tensors) :
  setup_inv kxs kys k2s (before_row (length kys) 0) st ->
  foldM (outer_step kxs kys k2s) (enumerate kxs) st = inr st' ->
  setup_inv kxs kys k2s (before_row (length kys) (length kxs)) st'.
Proof using Hk2 Hk2rows.
  intros Hinv Hrun.
  apply (foldM_invariant _
           (fun ix => setup_inv kxs kys k2s (before_row (length kys) ix)))
    in Hrun.
  - now rewrite enumerate_length in Hrun.
  - exact Hinv.
  - intros ix [ix' kxv] s1 s2 Hx Hs1 Hstep.
    apply enumerate_lookup in Hx as [Hix' Hkxv]. simpl in Hix', Hkxv. subst ix'.
    pose proof (lookup_lt_Some _ _ _ Hkxv) as Hixlt.
    rewrite <- (nth_lookup_Some _ _ 0 _ Hkxv) in Hstep.
    exact (inner_loop_inr ix s1 s2 Hixlt Hs1 Hstep).
Qed.

Lemma outer_loop_total (st : HasegawaMimaFourier.tensors) :
  (forall ix iy, (ix < length kxs)%nat -> (iy < length kys)%nat ->
                 sanity kxs kys ix iy (nth ix kxs 0) (nth iy kys 0) = inr tt) ->
  setup_inv kxs kys k2s (before_row (length kys) 0) st ->
  exists st', foldM (outer_step kxs kys k2s) (enumerate kxs) st = inr st'.
Proof using Hk2 Hk2rows.
  intros Hsan Hinv.
  destruct (foldM_total (outer_step kxs kys k2s)
              (fun ix => setup_inv kxs kys k2s (before_row (length kys) ix))
              (enumerate kxs) st) as (st' & Hrun & _).
  - exact Hinv.
  - intros ix [ix' kxv] s1 Hx Hs1.
    apply enumerate_lookup in Hx as [Hix' Hkxv]. simpl in Hix', Hkxv. subst ix'.
    pose proof (lookup_lt_Some _ _ _ Hkxv) as Hixlt.
    rewrite <- (nth_lookup_Some _ _ 0 _ Hkxv).
    apply inner_loop_total; [exact Hixlt | | exact Hs1].
    intros iy Hiy. now apply Hsan.
  - now exists st'.
Qed.

End Loops.

(** ** The spectral model: [_setup] and the constructor *)

Lemma k2_grid_row (kxs kys : list Q) (ix : nat) (kxv : Q) :
  kxs !! ix = Some kxv ->
  k2_grid kxs kys !! ix
  = Some (map (fun kyv => 0 + kyv * kyv + kxv * kxv) kys).
Proof.
  intros Hx. unfold k2_grid, np.stack_last, np.meshgrid. cbn [fst snd].
  rewrite lookup_map, lookup_zip_with, !lookup_map, Hx. cbn.
  f_equal. clear Hx. induction kys as [|y kys IH]; [reflexivity|].
  cbn [map zip_with]. rewrite IH. reflexivity.
Qed.

Lemma k2_grid_shape (kxs kys : list Q) :
  length (k2_grid kxs kys) = length kxs
  /\ Forall (fun r => length r = length kys) (k2_grid kxs kys).
Proof.
  split.
  - unfold k2_grid, np.stack_last, np.meshgrid. cbn [fst snd].
    rewrite length_map, length_zip_with, !length_map. lia.
  - apply Forall_lookup. intros ix r Hr.
    assert (Hix : (ix < length kxs)%nat).
    { apply lookup_lt_Some in Hr. revert Hr.
      unfold k2_grid, np.stack_last, np.meshgrid. cbn [fst snd].
      rewrite length_map, length_zip_with, !length_map. lia. }
    destruct (lookup_lt_is_Some_2 kxs ix Hix) as [kxv Hx].
    rewrite (k2_grid_row kxs kys ix kxv Hx) in Hr. injection Hr as <-.
    apply length_map.
Qed.

Lemma k2_grid_entry (kxs kys : list Q) (ix iy : nat) :
  (ix < length kxs)%nat -> (iy < length kys)%nat ->
  nth iy (nth ix (k2_grid kxs kys) []) 0
  = 0 + nth iy kys 0 * nth iy kys 0 + nth ix kxs 0 * nth ix kxs 0.
Proof.
  intros Hix Hiy.
  destruct (lookup_lt_is_Some_2 kxs ix Hix) as [kxv Hx].
  destruct (lookup_lt_is_Some_2 kys iy Hiy) as [kyv Hy].
  rewrite (nth_lookup_Some _ _ _ _ (k2_grid_row kxs kys ix kxv Hx)).
  rewrite (nth_lookup_Some _ _ 0 _ Hx), (nth_lookup_Some _ _ 0 _ Hy).
  apply nth_lookup_Some. now rewrite lookup_map, Hy.
Qed.

Lemma setup_initial (kxs kys : list Q) :
  setup_inv kxs kys (k2_grid kxs kys) (before_row (length kys) 0)
    (HasegawaMimaFourier.mk_tensors
       (np.zeros3 0 (length kxs) (length kys) (length kxs * length kys))
       (np.zeros3 0%Z (length kxs) (length kys) (length kxs * length kys))
       (np.zeros3 0%Z (length kxs) (length kys) (length kxs * length kys))
       (np.zeros3 0%Z (length kxs) (length kys) (length kxs * length kys))
       (np.zeros3 0%Z (length kxs) (length kys) (length kxs * length kys))).
Proof.
  split.
  - unfold tensors_shape. cbn.
    refine (conj _ (conj _ (conj _ (conj _ _)))); apply zeros3_shape.
  - unfold before_row. intros i j [Hi _]. lia.
Qed.

(** What a returning [_setup] has built. *)
Lemma setup_inr (kxs kys : list Q) (self : HasegawaMimaFourier.t) :
  HasegawaMimaFourier._setup kxs kys = inr self ->
  HasegawaMimaFourier.kx self = kxs
  /\ HasegawaMimaFourier.ky self = kys
  /\ HasegawaMimaFourier.k2 self = k2_grid kxs kys
  /\ setup_inv kxs kys (k2_grid kxs kys)
       (before_row (length kys) (length kxs)) (tensors_of self).
Proof.
  unfold HasegawaMimaFourier._setup.
  fold (k2_grid kxs kys).
  change (foldM _ (enumerate kxs))
    with (foldM (outer_step kxs kys (k2_grid kxs kys)) (enumerate kxs)).
  destruct (foldM _ _ _) as [err|st] eqn:Hrun; simpl; [discriminate|].
  intros [= <-]. cbn.
  destruct (k2_grid_shape kxs kys) as [Hk2 Hk2rows].
  pose proof (outer_loop_inr kxs kys _ Hk2 Hk2rows _ st (setup_initial kxs kys) Hrun)
    as Hinv.
  refine (conj eq_refl (conj eq_refl (conj eq_refl _))).
  destruct st. exact Hinv.
Qed.

(** [_setup] returns as soon as every sanity assertion holds. *)
Lemma setup_total (kxs kys : list Q) :
  (forall ix iy, (ix < length kxs)%nat -> (iy < length kys)%nat ->
                 sanity kxs kys ix iy (nth ix kxs 0) (nth iy kys 0) = inr tt) ->
  exists self, HasegawaMimaFourier._setup kxs kys = inr self.
Proof.
  intros Hsan.
  destruct (k2_grid_shape kxs kys) as [Hk2 Hk2rows].
  destruct (outer_loop_total kxs kys _ Hk2 Hk2rows _ Hsan (setup_initial kxs kys))
    as [st Hrun].
  unfold HasegawaMimaFourier._setup.
  fold (k2_grid kxs kys).
  change (foldM _ (enumerate kxs))
    with (foldM (outer_step kxs kys (k2_grid kxs kys)) (enumerate kxs)).
  rewrite Hrun. simpl. eauto.
Qed.

(** [np.linspace]: the samples are linearly spaced between the end points. *)
Lemma linspace_spec (start stop : Q) (num : Z) :
  (0 <= num)%Z ->
  exists l,
    np.linspace start stop num = inr l
    /\ length l = Z.to_nat num
    /\ (num = 1%Z -> l = [start])
    /\ ((2 <= num)%Z ->
        forall i, (i < length l)%nat ->
          nth i l 0 == linear_sample start stop (length l) (Z.of_nat i)).
Proof.
  intros Hnum. unfold np.linspace.
  destruct (Z.ltb_spec num 0); [lia|].
  destruct (Z.to_nat num) as [|[|m]] eqn:Hn.
  - exists []. repeat split; auto; lia.
  - exists [start]. repeat split; auto; lia.
  - eexists. split; [reflexivity|]. split; [|split].
    + rewrite length_app, length_map, length_seq. simpl. lia.
    + lia.
    + intros _ i Hi.
      rewrite length_app, length_map, length_seq in Hi. simpl in Hi.
      rewrite length_app, length_map, length_seq. simpl length.
      unfold linear_sample.
      replace (Z.of_nat (S m + 1) - 1)%Z with (Z.of_nat (S m)) by lia.
      assert (Hm : ~ inject_Z (Z.of_nat (S m)) == 0).
      { change 0 with (inject_Z 0). rewrite inject_Z_injective. lia. }
      destruct (decide (i < S m)%nat) as [Hlt|Hge].
      * erewrite nth_lookup_Some.
        2:{ apply lookup_app_l_Some, lookup_map_Some, lookup_seq_lt, Hlt. }
        simpl Nat.add. ring.
      * replace i with (S m) by lia.
        erewrite nth_lookup_Some.
        2:{ rewrite lookup_app_r by (rewrite length_map, length_seq; lia).
            rewrite length_map, length_seq, Nat.sub_diag. reflexivity. }
        field. exact Hm.
Qed.

Lemma init_inr (kmax : Q) (nx ny : Z) (self : HasegawaMimaFourier.t) :
  HasegawaMimaFourier.__init__ kmax nx ny = inr self ->
  (nx mod 2 = 1)%Z /\ (ny mod 2 = 1)%Z
  /\ exists kxs kys,
       np.linspace (- kmax) kmax nx = inr kxs
       /\ np.linspace (- kmax) kmax ny = inr kys
       /\ HasegawaMimaFourier._setup kxs kys = inr self.
Proof.
  unfold HasegawaMimaFourier.__init__, py_assert.
  destruct (Z.eqb_spec (nx mod 2) 1) as [Hx|]; [|discriminate].
  destruct (Z.eqb_spec (ny mod 2) 1) as [Hy|]; [|discriminate].
  cbn [bind ret].
  destruct (np.linspace (- kmax) kmax nx) as [|kxs]; [discriminate|].
  destruct (np.linspace (- kmax) kmax ny) as [|kys]; [discriminate|].
  cbn [bind]. intros Hs. repeat split; try assumption. now exists kxs, kys.
Qed.

Lemma linspace_nonneg (start stop : Q) (num : Z) (l : list Q) :
  np.linspace start stop num = inr l -> (0 <= num)%Z.
Proof.
  unfold np.linspace. destruct (Z.ltb_spec num 0); [discriminate | lia].
Qed.

(** ** The spectral model: the sanity assertions *)

Lemma allclose_zero (l : list Q) :
  (forall x, In x l -> x == 0) -> np.allclose l 0 = true.
Proof.
  intros Hl. unfold np.allclose. apply forallb_forall. intros x Hx.
  apply Qle_bool_iff. rewrite (Hl x Hx). vm_compute. discriminate.
Qed.

Lemma allclose_bound (l : list Q) (x : Q) :
  np.allclose l 0 = true -> In x l -> Qabs x <= np.atol.
Proof.
  unfold np.allclose. intros Hl Hx.
  pose proof (proj1 (forallb_forall _ l) Hl x Hx) as Hb.
  apply Qle_bool_iff in Hb.
  assert (Hx0 : x - 0 == x) by ring. rewrite Hx0 in Hb.
  assert (Htol : np.atol + np.rtol * Qabs 0 == np.atol) by reflexivity.
  now rewrite Htol in Hb.
Qed.

Lemma sanity_inr (kxs kys : list Q) (ix iy : nat) (kxv kyv : Q) :
  sanity kxs kys ix iy kxv kyv = inr tt <->
  np.allclose (map (kxsum_at kxs kys kxv ix iy)
                 (seq 0 (length kxs * length kys))) 0 = true
  /\ np.allclose (map (kysum_at kxs kys kyv ix iy)
                    (seq 0 (length kxs * length kys))) 0 = true.
Proof.
  unfold sanity, py_assert.
  destruct (np.allclose (map (kxsum_at _ _ _ _ _) _) 0);
    destruct (np.allclose (map (kysum_at _ _ _ _ _) _) 0); cbn;
    split; intros H; try discriminate H; auto; destruct H; discriminate.
Qed.

(** On a linearly spaced grid with an odd number [>= 3] of points, a
    valid triad closes exactly. *)
Lemma linear_triad (kmax : Q) (n : nat) (a b c : Z) :
  (3 <= Z.of_nat n)%Z -> (Z.of_nat n mod 2 = 1)%Z ->
  (a + b + c = 3 * ((Z.of_nat n - 1) / 2))%Z ->
  linear_sample (- kmax) kmax n a + linear_sample (- kmax) kmax n b
  + linear_sample (- kmax) kmax n c == 0.
Proof.
  intros Hn Hodd Habc. unfold linear_sample.
  set (h := ((Z.of_nat n - 1) / 2)%Z) in *.
  assert (Hh : (Z.of_nat n - 1 = 2 * h)%Z).
  { unfold h. pose proof (Z.div_mod (Z.of_nat n) 2).
    pose proof (Z.div_mod (Z.of_nat n - 1) 2).
    assert ((Z.of_nat n - 1) mod 2 = 0)%Z; [|lia].
    replace (Z.of_nat n - 1)%Z with (Z.of_nat n + (-1))%Z by lia.
    rewrite Z.add_mod, Hodd by lia. reflexivity. }
  assert (Hc : (c = 3 * h - a - b)%Z) by lia.
  rewrite Hh, Hc. unfold Z.sub.
  rewrite !inject_Z_plus, !inject_Z_opp, !inject_Z_mult.
  assert (Hh0 : ~ inject_Z h == 0).
  { change 0 with (inject_Z 0). rewrite inject_Z_injective. lia. }
  change (inject_Z 2) with 2. change (inject_Z 3) with 3.
  field. exact Hh0.
Qed.

Lemma linear_grid_at (kmax : Q) (ks : list Q) (z : Z) :
  linear_grid kmax ks -> (0 <= z < Z.of_nat (length ks))%Z ->
  nth (Z.to_nat z) ks 0 == linear_sample (- kmax) kmax (length ks) z.
Proof.
  intros (_ & _ & Hlin) Hz. rewrite Hlin by lia. now rewrite Z2Nat.id by lia.
Qed.

Lemma valid_x_true (kxs kys : list Q) (ix j : nat) :
  valid_x kxs kys ix j = true ->
  (0 <= lx_of kxs kys ix j < Z.of_nat (length kxs))%Z
  /\ qx_of kxs kys ix j = lx_of kxs kys ix j.
Proof.
  intros Hv. unfold qx_of. rewrite Hv. unfold valid_x, nxZ in Hv.
  apply andb_true_iff in Hv as [H1 H2].
  apply Z.leb_le in H1. apply Z.ltb_lt in H2. auto.
Qed.

Lemma valid_y_true (kys : list Q) (iy j : nat) :
  valid_y kys iy j = true ->
  (0 <= ly_of kys iy j < Z.of_nat (length kys))%Z
  /\ qy_of kys iy j = ly_of kys iy j.
Proof.
  intros Hv. unfold qy_of. rewrite Hv. unfold valid_y, nyZ in Hv.
  apply andb_true_iff in Hv as [H1 H2].
  apply Z.leb_le in H1. apply Z.ltb_lt in H2. auto.
Qed.

Lemma kxsum_linear (kmax : Q) (kxs kys : list Q) (ix iy j : nat) :
  linear_grid kmax kxs ->
  (ix < length kxs)%nat -> (j < length kxs * length kys)%nat ->
  kxsum_at kxs kys (nth ix kxs 0) ix iy j == 0.
Proof.
  intros Hlin Hix Hj. unfold kxsum_at.
  destruct (valid_x kxs kys ix j && valid_y kys iy j) eqn:Hv; [|reflexivity].
  apply andb_true_iff in Hv as [Hvx _].
  apply valid_x_true in Hvx as [Hlx ->].
  unfold kx_at.
  rewrite (linear_grid_at kmax kxs _ Hlin (jx_of_range kxs kys j Hj)).
  rewrite (linear_grid_at kmax kxs _ Hlin Hlx).
  rewrite <- (Nat2Z.id ix) at 1.
  rewrite (linear_grid_at kmax kxs (Z.of_nat ix) Hlin) by lia.
  destruct Hlin as (H3 & Hodd & _).
  apply linear_triad; [exact H3 | exact Hodd |].
  unfold lx_of, half_x, nxZ. lia.
Qed.

Lemma kysum_linear (kmax : Q) (kxs kys : list Q) (ix iy j : nat) :
  linear_grid kmax kys ->
  (iy < length kys)%nat -> (j < length kxs * length kys)%nat ->
  kysum_at kxs kys (nth iy kys 0) ix iy j == 0.
Proof.
  intros Hlin Hiy Hj. unfold kysum_at.
  destruct (valid_x kxs kys ix j && valid_y kys iy j) eqn:Hv; [|reflexivity].
  apply andb_true_iff in Hv as [_ Hvy].
  apply valid_y_true in Hvy as [Hly ->].
  unfold ky_at.
  rewrite (linear_grid_at kmax kys _ Hlin (jy_of_range kxs kys j Hj)).
  rewrite (linear_grid_at kmax kys _ Hlin Hly).
  rewrite <- (Nat2Z.id iy) at 1.
  rewrite (linear_grid_at kmax kys (Z.of_nat iy) Hlin) by lia.
  destruct Hlin as (H3 & Hodd & _).
  apply linear_triad; [exact H3 | exact Hodd |].
  unfold ly_of, half_y, nyZ. lia.
Qed.

Lemma sanity_linear (kmax : Q) (kxs kys : list Q) (ix iy : nat) :
  linear_grid kmax kxs -> linear_grid kmax kys ->
  (ix < length kxs)%nat -> (iy < length kys)%nat ->
  sanity kxs kys ix iy (nth ix kxs 0) (nth iy kys 0) = inr tt.
Proof.
  intros Hx Hy Hix Hiy. apply sanity_inr. split; apply allclose_zero;
    intros x Hin; apply in_map_iff in Hin as (j & <- & Hj); apply in_seq in Hj.
  - apply (kxsum_linear kmax); [exact Hx | exact Hix | lia].
  - apply (kysum_linear kmax); [exact Hy | exact Hiy | lia].
Qed.

Lemma linspace_linear_grid (kmax : Q) (n : Z) (ks : list Q) :
  (3 <= n)%Z -> (n mod 2 = 1)%Z ->
  np.linspace (- kmax) kmax n = inr ks ->
  length ks = Z.to_nat n /\ linear_grid kmax ks.
Proof.
  intros H3 Hodd Hks.
  destruct (linspace_spec (- kmax) kmax n) as (l & Hl & Hlen & _ & Hlin); [lia|].
  rewrite Hl in Hks. injection Hks as <-.
  split; [exact Hlen|]. unfold linear_grid. rewrite Hlen, Z2Nat.id by lia.
  repeat split; try assumption.
  intros i Hi. rewrite <- Hlen. apply Hlin; [lia|]. now rewrite Hlen.
Qed.

(** On rationals the sums of a linear grid vanish exactly, so the
    constructor returns on every odd grid of at least three points per
    axis.  (On IEEE doubles the sums carry rounding errors, and the
    sanity check can fail there.) *)
Lemma init_total (kmax : Q) (nx ny : Z) :
  (3 <= nx)%Z -> (3 <= ny)%Z -> (nx mod 2 = 1)%Z -> (ny mod 2 = 1)%Z ->
  exists self kxs kys,
    HasegawaMimaFourier.__init__ kmax nx ny = inr self
    /\ np.linspace (- kmax) kmax nx = inr kxs
    /\ np.linspace (- kmax) kmax ny = inr kys
    /\ HasegawaMimaFourier.kx self = kxs /\ HasegawaMimaFourier.ky self = kys.
Proof.
  intros Hx3 Hy3 Hxo Hyo.
  destruct (linspace_spec (- kmax) kmax nx) as (kxs & Hkx & _); [lia|].
  destruct (linspace_spec (- kmax) kmax ny) as (kys & Hky & _); [lia|].
  destruct (linspace_linear_grid kmax nx kxs Hx3 Hxo Hkx) as [_ Hgx].
  destruct (linspace_linear_grid kmax ny kys Hy3 Hyo Hky) as [_ Hgy].
  destruct (setup_total kxs kys) as [self Hself].
  { intros ix iy Hix Hiy. now apply (sanity_linear kmax). }
  exists self, kxs, kys.
  unfold HasegawaMimaFourier.__init__, py_assert.
  rewrite Hxo, Hyo. cbn [Z.eqb Pos.eqb bind ret].
  rewrite Hkx, Hky. cbn [bind].
  destruct (setup_inr kxs kys self Hself) as (Hk1 & Hk2 & _).
  auto.
Qed.

(** Everything a returning constructor guarantees about the model. *)
Lemma init_model (kmax : Q) (nx ny : Z) (self : HasegawaMimaFourier.t) :
  HasegawaMimaFourier.__init__ kmax nx ny = inr self ->
  (nx mod 2 = 1)%Z /\ (ny mod 2 = 1)%Z /\ (1 <= nx)%Z /\ (1 <= ny)%Z
  /\ np.linspace (- kmax) kmax nx = inr (HasegawaMimaFourier.kx self)
  /\ np.linspace (- kmax) kmax ny = inr (HasegawaMimaFourier.ky self)
  /\ length (HasegawaMimaFourier.kx self) = Z.to_nat nx
  /\ length (HasegawaMimaFourier.ky self) = Z.to_nat ny
  /\ HasegawaMimaFourier.k2 self
     = k2_grid (HasegawaMimaFourier.kx self) (HasegawaMimaFourier.ky self)
  /\ setup_inv (HasegawaMimaFourier.kx self) (HasegawaMimaFourier.ky self)
       (HasegawaMimaFourier.k2 self)
       (before_row (length (HasegawaMimaFourier.ky self))
          (length (HasegawaMimaFourier.kx self)))
       (tensors_of self).
Proof.
  intros Hinit.
  apply init_inr in Hinit as (Hxo & Hyo & kxs & kys & Hkx & Hky & Hsetup).
  apply setup_inr in Hsetup as (-> & -> & Hk2 & Hinv).
  pose proof (linspace_nonneg _ _ _ _ Hkx) as Hx0.
  pose proof (linspace_nonneg _ _ _ _ Hky) as Hy0.
  destruct (linspace_spec (- kmax) kmax nx Hx0) as (l1 & Hl1 & Hlen1 & _).
  destruct (linspace_spec (- kmax) kmax ny Hy0) as (l2 & Hl2 & Hlen2 & _).
  rewrite Hkx in Hl1. injection Hl1 as <-.
  rewrite Hky in Hl2. injection Hl2 as <-.
  rewrite Hk2.
  assert (nx <> 0)%Z by (intros ->; discriminate Hxo).
  assert (ny <> 0)%Z by (intros ->; discriminate Hyo).
  refine (conj Hxo (conj Hyo (conj _ (conj _ (conj Hkx (conj Hky
            (conj Hlen1 (conj Hlen2 (conj eq_refl Hinv))))))))); lia.
Qed.

Lemma at3_lookup2 {A : Type} (d : A) (a : list (list (list A))) (ix iy j n : nat)
    (g : nat -> A) :
  lookup2 a ix iy = Some (map g (seq 0 n)) -> (j < n)%nat ->
  at3 d a ix iy j = g j.
Proof.
  unfold lookup2, at3. intros Hrow Hj.
  destruct (a !! ix) as [pl|] eqn:Hpl; [|discriminate]. simpl in Hrow.
  rewrite (nth_lookup_Some _ _ _ _ Hpl), (nth_lookup_Some _ _ _ _ Hrow).
  apply nth_lookup_Some. now rewrite lookup_map, lookup_seq_lt.
Qed.

(** The entries of the five arrays of a constructed model. *)
Lemma model_entries (kmax : Q) (nx ny : Z) (self : HasegawaMimaFourier.t)
    (ix iy j : nat) :
  HasegawaMimaFourier.__init__ kmax nx ny = inr self ->
  (Z.of_nat ix < nx)%Z -> (Z.of_nat iy < ny)%Z -> (Z.of_nat j < nx * ny)%Z ->
  let kxs := HasegawaMimaFourier.kx self in
  let kys := HasegawaMimaFourier.ky self in
  at3 0 (HasegawaMimaFourier.mat self) ix iy j
  = coupling kxs kys (HasegawaMimaFourier.k2 self) ix iy j
  /\ at3 0%Z (HasegawaMimaFourier.index_px self) ix iy j = jx_of kys j
  /\ at3 0%Z (HasegawaMimaFourier.index_py self) ix iy j = jy_of kys j
  /\ at3 0%Z (HasegawaMimaFourier.index_qx self) ix iy j = qx_of kxs kys ix j
  /\ at3 0%Z (HasegawaMimaFourier.index_qy self) ix iy j = qy_of kys iy j
  /\ Qabs (kxsum_at kxs kys (nth ix kxs 0) ix iy j) <= np.atol
  /\ Qabs (kysum_at kxs kys (nth iy kys 0) ix iy j) <= np.atol.
Proof.
  intros Hinit Hix Hiy Hj kxs kys.
  destruct (init_model kmax nx ny self Hinit)
    as (_ & _ & Hx1 & Hy1 & _ & _ & Hlx & Hly & _ & _ & Hrows).
  fold kxs in Hlx, Hrows. fold kys in Hly, Hrows.
  assert (HjN : (j < length kxs * length kys)%nat) by (rewrite Hlx, Hly; nia).
  destruct (Hrows ix iy) as (Hm & Hpx & Hpy & Hqx & Hqy & Hsan).
  { unfold before_row. lia. }
  apply sanity_inr in Hsan as [Hsx Hsy].
  cbn in Hm, Hpx, Hpy, Hqx, Hqy.
  repeat split.
  - exact (at3_lookup2 0 _ ix iy j _ _ Hm HjN).
  - exact (at3_lookup2 0%Z _ ix iy j _ _ Hpx HjN).
  - exact (at3_lookup2 0%Z _ ix iy j _ _ Hpy HjN).
  - exact (at3_lookup2 0%Z _ ix iy j _ _ Hqx HjN).
  - exact (at3_lookup2 0%Z _ ix iy j _ _ Hqy HjN).
  - apply (allclose_bound _ _ Hsx), in_map, in_seq. lia.
  - apply (allclose_bound _ _ Hsy), in_map, in_seq. lia.
Qed.

(** ** The spectral model: the claims about the constructor *)



Lemma linear_sample_ends (kmax : Q) (n : nat) :
  (2 <= n)%nat ->
  linear_sample (- kmax) kmax n 0 == - kmax
  /\ linear_sample (- kmax) kmax n (Z.of_nat n - 1) == kmax.
Proof.
  intros Hn. unfold linear_sample. split.
  - change (inject_Z 0) with 0. ring.
  - assert (Hd : ~ inject_Z (Z.of_nat n - 1) == 0).
    { change 0 with (inject_Z 0). rewrite inject_Z_injective. lia. }
    field. exact Hd.
Qed.

(** The points [np.linspace] gives over [[-kmax, kmax]]. *)
Lemma linspace_entries (kmax : Q) (n : Z) (ks : list Q) :
  np.linspace (- kmax) kmax n = inr ks -> (1 <= n)%Z ->
  Z.of_nat (length ks) = n
  /\ nth 0 ks 0 == - kmax
  /\ ((2 <= n)%Z ->
      nth (Z.to_nat n - 1) ks 0 == kmax
      /\ forall i, (Z.of_nat i < n)%Z ->
           nth i ks 0
           == - kmax + inject_Z (Z.of_nat i)
                       * ((kmax - - kmax) / inject_Z (n - 1))).
Proof.
  intros Hks Hn.
  destruct (linspace_spec (- kmax) kmax n) as (l & Hl & Hlen & Hone & Hlin); [lia|].
  rewrite Hl in Hks. injection Hks as <-.
  assert (HnZ : Z.of_nat (length l) = n) by lia.
  split; [exact HnZ|]. split.
  - destruct (Z.eq_dec n 1%Z) as [H1|H1].
    + rewrite (Hone H1). reflexivity.
    + rewrite Hlin by lia. unfold linear_sample.
      change (inject_Z (Z.of_nat 0)) with 0. ring.
  - intros H2. specialize (Hlin H2).
    destruct (linear_sample_ends kmax (length l)) as [_ Hend]; [lia|].
    unfold linear_sample in Hlin, Hend. rewrite HnZ in Hlin, Hend. split.
    + rewrite Hlin by lia.
      replace (Z.of_nat (Z.to_nat n - 1)) with (n - 1)%Z by lia. exact Hend.
    + intros i Hi. apply Hlin. lia.
Qed.

(** C6.  The constructor raises its first assertion when [nx] is even and
    its second when [nx] is odd and [ny] is even, whatever the other
    arguments and before anything is computed.  Whenever it returns, both
    counts are odd and [kx], [ky] are the [nx] and [ny] points of
    [np.linspace] over [[-kmax, kmax]]: they start at [-kmax] and, on more
    than one point, run in equal steps up to [kmax].  It does not return on
    every odd grid: with one point per axis the single wavenumber is
    [-kmax], the only triad sums to [-3*kmax], and the sanity check of
    [_setup] raises. *)
Theorem init_parity_and_sanity (kmax : Q) (nx ny : Z) :
  (Z.even nx = true ->
   HasegawaMimaFourier.__init__ kmax nx ny = inl (AssertionError "nx % 2 == 1"))
  /\ (Z.odd nx = true -> Z.even ny = true ->
      HasegawaMimaFourier.__init__ kmax nx ny = inl (AssertionError "ny % 2 == 1"))
  /\ (forall self,
        HasegawaMimaFourier.__init__ kmax nx ny = inr self ->
        Z.odd nx = true /\ Z.odd ny = true
        /\ np.linspace (- kmax) kmax nx = inr (HasegawaMimaFourier.kx self)
        /\ np.linspace (- kmax) kmax ny = inr (HasegawaMimaFourier.ky self)
        /\ Z.of_nat (length (HasegawaMimaFourier.kx self)) = nx
        /\ Z.of_nat (length (HasegawaMimaFourier.ky self)) = ny
        /\ nth 0 (HasegawaMimaFourier.kx self) 0 == - kmax
        /\ nth 0 (HasegawaMimaFourier.ky self) 0 == - kmax
        /\ ((2 <= nx)%Z ->
            nth (Z.to_nat nx - 1) (HasegawaMimaFourier.kx self) 0 == kmax
            /\ forall i, (Z.of_nat i < nx)%Z ->
                 nth i (HasegawaMimaFourier.kx self) 0
                 == - kmax + inject_Z (Z.of_nat i)
                             * ((kmax - - kmax) / inject_Z (nx - 1)))
        /\ ((2 <= ny)%Z ->
            nth (Z.to_nat ny - 1) (HasegawaMimaFourier.ky self) 0 == kmax
            /\ forall i, (Z.of_nat i < ny)%Z ->
                 nth i (HasegawaMimaFourier.ky self) 0
                 == - kmax + inject_Z (Z.of_nat i)
                             * ((kmax - - kmax) / inject_Z (ny - 1))))
  /\ HasegawaMimaFourier.__init__ 10 1 1 = inl (AssertionError "kxsum").
Proof.
  split; [|split; [|split]].
  - intros He. unfold HasegawaMimaFourier.__init__.
    rewrite Zmod_even, He. reflexivity.
  - intros Ho He. unfold HasegawaMimaFourier.__init__.
    rewrite (Zmod_odd nx), Ho, (Zmod_even ny), He. reflexivity.
  - intros self Hinit.
    destruct (init_model kmax nx ny self Hinit)
      as (Hxo & Hyo & Hx1 & Hy1 & Hkx & Hky & _).
    destruct (linspace_entries kmax nx _ Hkx Hx1) as (Hnx & Hx0 & Hxs).
    destruct (linspace_entries kmax ny _ Hky Hy1) as (Hny & Hy0 & Hys).
    rewrite Zmod_odd in Hxo, Hyo.
    destruct (Z.odd nx); [|discriminate Hxo].
    destruct (Z.odd ny); [|discriminate Hyo].
    refine (conj eq_refl (conj eq_refl (conj Hkx (conj Hky (conj Hnx (conj Hny
              (conj Hx0 (conj Hy0 (conj Hxs Hys))))))))).
  - vm_compute. reflexivity.
Qed.

Lemma init_parity_and_sanity_witness :
  HasegawaMimaFourier.__init__ 10 4 3 = inl (AssertionError "nx % 2 == 1")
  /\ HasegawaMimaFourier.__init__ 10 3 4 = inl (AssertionError "ny % 2 == 1")
  /\ exists self,
       HasegawaMimaFourier.__init__ 10 3 5 = inr self
       /\ Z.of_nat (length (HasegawaMimaFourier.kx self)) = 3%Z
       /\ nth 0 (HasegawaMimaFourier.kx self) 0 == - (10)
       /\ nth 4 (HasegawaMimaFourier.ky self) 0 == 10.
Proof.
  split; [|split].
  - exact (proj1 (init_parity_and_sanity 10 4 3) eq_refl).
  - exact (proj1 (proj2 (init_parity_and_sanity 10 3 4)) eq_refl eq_refl).
  - destruct (HasegawaMimaFourier.__init__ 10 3 5) as [err|self] eqn:Hinit;
      [vm_compute in Hinit; discriminate Hinit|].
    exists self. split; [reflexivity|].
    destruct (proj1 (proj2 (proj2 (init_parity_and_sanity 10 3 5))) self Hinit)
      as (_ & _ & _ & _ & Hnx & _ & Hx0 & _ & _ & Hys).
    destruct Hys as [Hy1 _]; [intros Hc; discriminate Hc|].
    exact (conj Hnx (conj Hx0 Hy1)).
Defined.

Lemma Cmul_zero_l (p q : C) : Ceq (Cmul (Cmul (RtoC 0) p) q) (RtoC 0).
Proof. unfold Ceq, Cmul, RtoC. simpl. split; ring. Qed.

Lemma lookup3_lookup2 {A : Type} (a : list (list (list A))) (ix iy j n : nat)
    (g : nat -> A) :
  lookup2 a ix iy = Some (map g (seq 0 n)) -> (j < n)%nat ->
  lookup3 a ix iy j = Some (g j).
Proof.
  unfold lookup2, lookup3. intros Hrow Hj.
  destruct (a !! ix) as [pl|]; [|discriminate]. simpl in *.
  rewrite Hrow. simpl. now rewrite lookup_map, lookup_seq_lt.
Qed.

(** The entries the constructor stored in [mat], [index_qx] and
    [index_qy]: they exist, and are the pointwise quantities. *)
Lemma model_lookups (kmax : Q) (nx ny : Z) (self : HasegawaMimaFourier.t)
    (ix iy j : nat) :
  HasegawaMimaFourier.__init__ kmax nx ny = inr self ->
  (Z.of_nat ix < nx)%Z -> (Z.of_nat iy < ny)%Z -> (Z.of_nat j < nx * ny)%Z ->
  let kxs := HasegawaMimaFourier.kx self in
  let kys := HasegawaMimaFourier.ky self in
  lookup3 (HasegawaMimaFourier.mat self) ix iy j
  = Some (coupling kxs kys (HasegawaMimaFourier.k2 self) ix iy j)
  /\ lookup3 (HasegawaMimaFourier.index_qx self) ix iy j = Some (qx_of kxs kys ix j)
  /\ lookup3 (HasegawaMimaFourier.index_qy self) ix iy j = Some (qy_of kys iy j).
Proof.
  intros Hinit Hix Hiy Hj kxs kys.
  destruct (init_model kmax nx ny self Hinit)
    as (_ & _ & Hx1 & Hy1 & _ & _ & Hlx & Hly & _ & _ & Hrows).
  fold kxs in Hlx, Hrows. fold kys in Hly, Hrows.
  assert (HjN : (j < length kxs * length kys)%nat) by (rewrite Hlx, Hly; nia).
  destruct (Hrows ix iy) as (Hm & _ & _ & Hqx & Hqy & _).
  { unfold before_row. lia. }
  cbn in Hm, Hqx, Hqy.
  refine (conj _ (conj _ _)).
  - exact (lookup3_lookup2 _ ix iy j _ _ Hm HjN).
  - exact (lookup3_lookup2 _ ix iy j _ _ Hqx HjN).
  - exact (lookup3_lookup2 _ ix iy j _ _ Hqy HjN).
Qed.

(** C8.  In a constructed model, for every target [(ix, iy)] and partner
    index [j], the arrays [index_qx], [index_qy] and [mat] have an entry
    at [(ix, iy, j)].  An out-of-range [lx] is stored as 0 in [index_qx]
    (and an in-range one as itself: nothing is wrapped), likewise [ly] in
    [index_qy], so the stored indices are always on the grid and reading
    [kx] and [ky] at them raises nothing; as soon as [lx] or [ly] is out
    of range the stored coefficient [mat[ix, iy, j]] is 0, so the term of
    the convolution sum vanishes for every field. *)
Theorem invalid_triads_zeroed (kmax : Q) (nx ny : Z)
    (self : HasegawaMimaFourier.t) (ix iy j : nat) :
  HasegawaMimaFourier.__init__ kmax nx ny = inr self ->
  (Z.of_nat ix < nx)%Z -> (Z.of_nat iy < ny)%Z -> (Z.of_nat j < nx * ny)%Z ->
  let lx := (3 * ((nx - 1) / 2) - Z.of_nat ix - Z.of_nat j / ny)%Z in
  let ly := (3 * ((ny - 1) / 2) - Z.of_nat iy - Z.of_nat j mod ny)%Z in
  exists (qx qy : Z) (m : Q),
    lookup3 (HasegawaMimaFourier.index_qx self) ix iy j = Some qx
    /\ lookup3 (HasegawaMimaFourier.index_qy self) ix iy j = Some qy
    /\ lookup3 (HasegawaMimaFourier.mat self) ix iy j = Some m
    /\ (~ (0 <= lx < nx)%Z -> qx = 0%Z)
    /\ (~ (0 <= ly < ny)%Z -> qy = 0%Z)
    /\ ((0 <= lx < nx)%Z -> qx = lx)
    /\ ((0 <= ly < ny)%Z -> qy = ly)
    /\ (0 <= qx < nx)%Z /\ (0 <= qy < ny)%Z
    /\ (exists kq, np.getitem (HasegawaMimaFourier.kx self) qx = inr kq)
    /\ (exists kq, np.getitem (HasegawaMimaFourier.ky self) qy = inr kq)
    /\ (~ ((0 <= lx < nx)%Z /\ (0 <= ly < ny)%Z) ->
        m = 0
        /\ forall p q : C, Ceq (Cmul (Cmul (RtoC m) p) q) (RtoC 0)).
Proof.
  intros Hinit Hix Hiy Hj lx ly.
  destruct (model_lookups kmax nx ny self ix iy j Hinit Hix Hiy Hj)
    as (Hm & Hqx & Hqy).
  destruct (init_model kmax nx ny self Hinit)
    as (_ & _ & Hx1 & Hy1 & _ & _ & Hlx & Hly & _).
  set (kxs := HasegawaMimaFourier.kx self) in *.
  set (kys := HasegawaMimaFourier.ky self) in *.
  assert (HnxZ : Z.of_nat (length kxs) = nx) by lia.
  assert (HnyZ : Z.of_nat (length kys) = ny) by lia.
  assert (Hlxe : lx_of kxs kys ix j = lx).
  { unfold lx_of, half_x, jx_of, nxZ, nyZ. now rewrite HnxZ, HnyZ. }
  assert (Hlye : ly_of kys iy j = ly).
  { unfold ly_of, half_y, jy_of, nyZ. now rewrite HnyZ. }
  assert (Hvx : valid_x kxs kys ix j = true <-> (0 <= lx < nx)%Z).
  { unfold valid_x, nxZ. rewrite Hlxe, HnxZ, andb_true_iff, Z.leb_le, Z.ltb_lt.
    tauto. }
  assert (Hvy : valid_y kys iy j = true <-> (0 <= ly < ny)%Z).
  { unfold valid_y, nyZ. rewrite Hlye, HnyZ, andb_true_iff, Z.leb_le, Z.ltb_lt.
    tauto. }
  pose proof (qx_of_range kxs kys ix j ltac:(lia)) as Hqxr.
  pose proof (qy_of_range kys iy j ltac:(lia)) as Hqyr.
  rewrite HnxZ in Hqxr. rewrite HnyZ in Hqyr.
  exists (qx_of kxs kys ix j), (qy_of kys iy j),
    (coupling kxs kys (HasegawaMimaFourier.k2 self) ix iy j).
  refine (conj Hqx (conj Hqy (conj Hm (conj _ (conj _ (conj _ (conj _
            (conj Hqxr (conj Hqyr (conj _ (conj _ _))))))))))).
  - intros Hout. unfold qx_of.
    destruct (valid_x kxs kys ix j); [exfalso; apply Hout, Hvx; reflexivity|].
    reflexivity.
  - intros Hout. unfold qy_of.
    destruct (valid_y kys iy j); [exfalso; apply Hout, Hvy; reflexivity|].
    reflexivity.
  - intros Hin. apply Hvx in Hin. unfold qx_of. now rewrite Hin.
  - intros Hin. apply Hvy in Hin. unfold qy_of. now rewrite Hin.
  - eexists. apply (getitem_Z kxs _ 0). lia.
  - eexists. apply (getitem_Z kys _ 0). lia.
  - intros Hout. unfold coupling.
    destruct (valid_x kxs kys ix j && valid_y kys iy j) eqn:Hv.
    + exfalso. apply Hout. apply andb_true_iff in Hv as [H1 H2].
      split; [now apply Hvx | now apply Hvy].
    + split; [reflexivity | apply Cmul_zero_l].
Qed.

Lemma invalid_triads_zeroed_witness :
  exists self,
    HasegawaMimaFourier.__init__ 10 3 3 = inr self
    /\ lookup3 (HasegawaMimaFourier.index_qx self) 2 0 7 = Some 0%Z
    /\ lookup3 (HasegawaMimaFourier.index_qy self) 2 0 7 = Some 2%Z
    /\ lookup3 (HasegawaMimaFourier.mat self) 2 0 7 = Some 0.
Proof.
  destruct (HasegawaMimaFourier.__init__ 10 3 3) as [err|self] eqn:Hinit;
    [vm_compute in Hinit; discriminate Hinit|].
  exists self. split; [reflexivity|].
  pose proof (invalid_triads_zeroed 10 3 3 self 2 0 7 Hinit
                eq_refl eq_refl eq_refl) as H.
  cbv zeta in H.
  destruct H as (qx & qy & m & Hqx & Hqy & Hm & Hx0 & _ & _ & Hyl & _ & _ & _ & _ & Hm0).
  rewrite Hqx, Hqy, Hm.
  rewrite Hx0 by (vm_compute; intros [Hc _]; apply Hc; reflexivity).
  rewrite Hyl by (vm_compute; split; [intros Hc; discriminate Hc | reflexivity]).
  destruct Hm0 as [-> _];
    [vm_compute; intros [[Hc _] _]; apply Hc; reflexivity|].
  repeat split.
Defined.

(** The index of an axis that is in range is kept even when the other axis
    is out of range: for target [(2, 0)] and partner [(2, 1)] on the 3 x 3
    grid, [lx = -1] and [ly = 2]. *)
Remark index_zeroed_per_axis :
  exists self,
    HasegawaMimaFourier.__init__ 10 3 3 = inr self
    /\ at3 0%Z (HasegawaMimaFourier.index_qx self) 2 0 7 = 0%Z
    /\ at3 0%Z (HasegawaMimaFourier.index_qy self) 2 0 7 = 2%Z.
Proof.
  destruct (HasegawaMimaFourier.__init__ 10 3 3) as [err|self] eqn:Hinit;
    vm_compute in Hinit; [discriminate Hinit|].
  injection Hinit as <-. eexists. split; [reflexivity|]. split; reflexivity.
Qed.

(** ** Arrays given entry by entry *)

Lemma map_seq_ext {A : Type} (f g : nat -> A) (n : nat) :
  (forall i, (i < n)%nat -> f i = g i) -> map f (seq 0 n) = map g (seq 0 n).
Proof.
  intros H. apply map_ext_in. intros i Hi. apply in_seq in Hi. apply H. lia.
Qed.

Lemma grid2_ext {A : Type} (nx ny : nat) (f g : nat -> nat -> A) :
  (forall ix iy, (ix < nx)%nat -> (iy < ny)%nat -> f ix iy = g ix iy) ->
  grid2 nx ny f = grid2 nx ny g.
Proof.
  intros H. unfold grid2. apply map_seq_ext. intros ix Hix.
  apply map_seq_ext. intros iy Hiy. now apply H.
Qed.

Lemma grid2_rows {A : Type} (nx ny : nat) (f : nat -> nat -> A) :
  length (grid2 nx ny f) = nx
  /\ Forall (fun r => length r = ny) (grid2 nx ny f).
Proof.
  unfold grid2. split; [now rewrite length_map, length_seq|].
  apply Forall_forall. intros r Hr. apply list_elem_of_In, in_map_iff in Hr.
  destruct Hr as (ix & <- & _). now rewrite length_map, length_seq.
Qed.

Lemma grid2_lookup {A : Type} (nx ny : nat) (f : nat -> nat -> A) (ix iy : nat) :
  (ix < nx)%nat -> (iy < ny)%nat ->
  concat (grid2 nx ny f) !! (ix * ny + iy)%nat = Some (f ix iy).
Proof.
  intros Hix Hiy.
  apply (concat_lookup_uniform ny _ ix iy (map (fun iy => f ix iy) (seq 0 ny))).
  - apply grid2_rows.
  - unfold grid2. now rewrite lookup_map, lookup_seq_lt.
  - now rewrite lookup_map, lookup_seq_lt.
Qed.

Lemma grid2_nth {A : Type} (d : A) (nx ny : nat) (f : nat -> nat -> A)
    (ix iy : nat) :
  (ix < nx)%nat -> (iy < ny)%nat ->
  nth iy (nth ix (grid2 nx ny f) []) d = f ix iy.
Proof.
  intros Hix Hiy. unfold grid2.
  erewrite (nth_lookup_Some _ ix []);
    [|rewrite lookup_map, lookup_seq_lt by exact Hix; reflexivity].
  apply nth_lookup_Some. now rewrite lookup_map, lookup_seq_lt.
Qed.

Lemma grid2_zip_with {A B D : Type} (h : A -> B -> D) (nx ny : nat)
    (f : nat -> nat -> A) (g : nat -> nat -> B) :
  zip_with (zip_with h) (grid2 nx ny f) (grid2 nx ny g)
  = grid2 nx ny (fun ix iy => h (f ix iy) (g ix iy)).
Proof.
  unfold grid2. rewrite zip_with_map_same. apply map_ext. intros ix.
  apply zip_with_map_same.
Qed.

Lemma grid3_zip_with {A B D : Type} (h : A -> B -> D) (nx ny n : nat)
    (f : nat -> nat -> nat -> A) (g : nat -> nat -> nat -> B) :
  zip_with (zip_with (zip_with h)) (grid3 nx ny n f) (grid3 nx ny n g)
  = grid3 nx ny n (fun ix iy j => h (f ix iy j) (g ix iy j)).
Proof.
  unfold grid3. rewrite grid2_zip_with. apply grid2_ext. intros ix iy _ _.
  apply zip_with_map_same.
Qed.

Lemma grid2_map {A B : Type} (h : A -> B) (nx ny : nat) (f : nat -> nat -> A) :
  map (map h) (grid2 nx ny f) = grid2 nx ny (fun ix iy => h (f ix iy)).
Proof.
  unfold grid2. rewrite map_map. apply map_ext. intros ix. apply map_map.
Qed.

Lemma grid2_rowwise {A B D : Type} (h : A -> B -> D) (nx ny : nat)
    (c : nat -> A) (f : nat -> nat -> B) :
  map (zip_with h (map c (seq 0 ny))) (grid2 nx ny f)
  = grid2 nx ny (fun ix iy => h (c iy) (f ix iy)).
Proof.
  unfold grid2. rewrite map_map. apply map_ext. intros ix.
  apply zip_with_map_same.
Qed.

Lemma vector_form {A : Type} (d : A) (l : list A) :
  l = map (fun i => nth i l d) (seq 0 (length l)).
Proof.
  apply list_eq_map_seq; [reflexivity|]. intros i Hi.
  destruct (lookup_lt_is_Some_2 l i Hi) as [x Hx].
  now rewrite (nth_lookup_Some _ _ _ _ Hx).
Qed.

Lemma grid2_form {A : Type} (d : A) (nx ny : nat) (a : list (list A)) :
  length a = nx -> Forall (fun r => length r = ny) a ->
  a = grid2 nx ny (fun ix iy => nth iy (nth ix a []) d).
Proof.
  intros Hlen Hrows. unfold grid2. apply list_eq_map_seq; [exact Hlen|].
  intros ix Hix. rewrite <- Hlen in Hix.
  destruct (lookup_lt_is_Some_2 a ix Hix) as [r Hr].
  rewrite Hr, (nth_lookup_Some _ _ _ _ Hr). f_equal.
  pose proof (proj1 (Forall_lookup _ a) Hrows ix r Hr) as Hn.
  rewrite <- Hn. apply vector_form.
Qed.

Lemma grid3_form {A : Type} (d : A) (nx ny n : nat) (a : list (list (list A))) :
  shape3 nx ny n a -> a = grid3 nx ny n (at3 d a).
Proof.
  intros [Hlen Hall]. unfold grid3, grid2, at3.
  apply list_eq_map_seq; [exact Hlen|].
  intros ix Hix. rewrite <- Hlen in Hix.
  destruct (lookup_lt_is_Some_2 a ix Hix) as [pl Hpl].
  rewrite Hpl, (nth_lookup_Some _ _ _ _ Hpl). f_equal.
  destruct (proj1 (Forall_lookup _ a) Hall ix pl Hpl) as [Hn1 Hrows].
  apply list_eq_map_seq; [exact Hn1|].
  intros iy Hiy. rewrite <- Hn1 in Hiy.
  destruct (lookup_lt_is_Some_2 pl iy Hiy) as [r Hr].
  rewrite Hr, (nth_lookup_Some _ _ _ _ Hr). f_equal.
  pose proof (proj1 (Forall_lookup _ pl) Hrows iy r Hr) as Hn.
  rewrite <- Hn. apply vector_form.
Qed.

Lemma mapM_py_map_seq {A B : Type} (f : A -> py B) (g : nat -> A)
    (h : nat -> B) (n : nat) :
  (forall i, (i < n)%nat -> f (g i) = inr (h i)) ->
  mapM_py f (map g (seq 0 n)) = inr (map h (seq 0 n)).
Proof.
  intros H. rewrite <- (map_map g (fun x => x)), map_id.
  assert (Hall : forall s, (forall i, (s <= i < s + n)%nat -> f (g i) = inr (h i)) ->
                           mapM_py f (map g (seq s n)) = inr (map h (seq s n))).
  { clear H. induction n as [|n IH]; intros s Hs; simpl; [reflexivity|].
    rewrite Hs by lia. cbn [bind]. rewrite IH by (intros i Hi; apply Hs; lia).
    reflexivity. }
  apply Hall. intros i Hi. apply H. lia.
Qed.

(** Fancy indexing of a matrix by two index arrays given entry by entry. *)
Lemma take2_3d_grid {A : Type} (d : A) (a : list (list A)) (n0 n1 nx ny n : nat)
    (gx gy : nat -> nat -> nat -> Z) :
  length a = n0 -> Forall (fun r => length r = n1) a ->
  (forall ix iy j, (ix < nx)%nat -> (iy < ny)%nat -> (j < n)%nat ->
     (0 <= gx ix iy j < Z.of_nat n0)%Z /\ (0 <= gy ix iy j < Z.of_nat n1)%Z) ->
  np.take2_3d a (grid3 nx ny n gx) (grid3 nx ny n gy)
  = inr (grid3 nx ny n
           (fun ix iy j => nth (Z.to_nat (gy ix iy j))
                             (nth (Z.to_nat (gx ix iy j)) a []) d)).
Proof.
  intros Ha Hrows Hg. unfold np.take2_3d, grid3, grid2.
  rewrite zip_with_map_same.
  apply mapM_py_map_seq. intros ix Hix. cbn [fst snd].
  rewrite zip_with_map_same.
  apply mapM_py_map_seq. intros iy Hiy. cbn [fst snd].
  apply (take2_map_seq a _ _ n n0 n1 d Ha Hrows); intros j Hj;
    now apply Hg.
Qed.

(** ** The spectral model: the derivative *)

Lemma model_shape (kmax : Q) (nx ny : Z) (self : HasegawaMimaFourier.t) :
  HasegawaMimaFourier.__init__ kmax nx ny = inr self ->
  HasegawaMimaFourier.shape self
  = (length (HasegawaMimaFourier.kx self), length (HasegawaMimaFourier.ky self)).
Proof.
  intros Hinit.
  destruct (init_model kmax nx ny self Hinit)
    as (_ & _ & Hx1 & _ & _ & _ & Hlx & _ & Hk2 & _).
  unfold HasegawaMimaFourier.shape, np.shape2. rewrite Hk2.
  destruct (k2_grid_shape (HasegawaMimaFourier.kx self)
              (HasegawaMimaFourier.ky self)) as [Hlen Hrows].
  rewrite Hlen. f_equal.
  destruct (k2_grid _ _) as [|r rest]; [simpl in Hlen; lia|].
  now inversion Hrows.
Qed.

Lemma k2_nonneg (kxs kys : list Q) (ix iy : nat) :
  (ix < length kxs)%nat -> (iy < length kys)%nat ->
  0 <= nth iy (nth ix (k2_grid kxs kys) []) 0
  /\ nth iy (nth ix (k2_grid kxs kys) []) 0
     == nth ix kxs 0 * nth ix kxs 0 + nth iy kys 0 * nth iy kys 0.
Proof.
  intros Hix Hiy. rewrite (k2_grid_entry kxs kys ix iy Hix Hiy).
  split; [nra | ring].
Qed.

Lemma hm_dfdt_grid (kmax : Q) (nx ny : Z) (self : HasegawaMimaFourier.t)
    (t_ : Q) (phi : list (list C)) :
  HasegawaMimaFourier.__init__ kmax nx ny = inr self ->
  length phi = length (HasegawaMimaFourier.kx self) ->
  Forall (fun r => length r = length (HasegawaMimaFourier.ky self)) phi ->
  HasegawaMimaFourier.dfdt self t_ (concat phi)
  = inr (concat (grid2 (length (HasegawaMimaFourier.kx self))
                   (length (HasegawaMimaFourier.ky self))
                   (dphi_spec self phi))).
Proof.
  intros Hinit Hphi Hrows.
  destruct (init_model kmax nx ny self Hinit)
    as (_ & _ & Hx1 & Hy1 & _ & _ & Hlx & Hly & Hk2 & Hshape & _).
  pose proof (model_entries kmax nx ny self) as Hent.
  set (kxs := HasegawaMimaFourier.kx self) in *.
  set (kys := HasegawaMimaFourier.ky self) in *.
  set (n0 := length kxs) in *. set (n1 := length kys) in *.
  unfold HasegawaMimaFourier.dfdt.
  rewrite (model_shape kmax nx ny self Hinit). cbn [fst snd].
  fold kxs kys n0 n1.
  rewrite <- Hphi at 1. rewrite (reshape2_concat n1 phi Hrows). cbn [bind].
  destruct Hshape as (Hm & Hpx & Hpy & Hqx & Hqy). cbn in Hm, Hpx, Hpy, Hqx, Hqy.
  set (rhs := dphi_spec self phi).
  rewrite (grid3_form 0%Z n0 n1 (n0 * n1) _ Hpx).
  rewrite (grid3_form 0%Z n0 n1 (n0 * n1) _ Hpy).
  rewrite (grid3_form 0%Z n0 n1 (n0 * n1) _ Hqx).
  rewrite (grid3_form 0%Z n0 n1 (n0 * n1) _ Hqy).
  rewrite (grid3_form 0 n0 n1 (n0 * n1) _ Hm).
  rewrite (grid2_form (RtoC 0) n0 n1 phi Hphi Hrows).
  rewrite grid2_map.
  assert (Hrange : forall ix iy j, (ix < n0)%nat -> (iy < n1)%nat ->
                     (j < n0 * n1)%nat ->
            ((0 <= at3 0%Z (HasegawaMimaFourier.index_px self) ix iy j < Z.of_nat n0)
             /\ (0 <= at3 0%Z (HasegawaMimaFourier.index_py self) ix iy j
                   < Z.of_nat n1))%Z
            /\ ((0 <= at3 0%Z (HasegawaMimaFourier.index_qx self) ix iy j
                   < Z.of_nat n0)
                /\ (0 <= at3 0%Z (HasegawaMimaFourier.index_qy self) ix iy j
                      < Z.of_nat n1))%Z).
  { intros ix iy j Hix Hiy Hj.
    destruct (Hent ix iy j Hinit) as (_ & H1 & H2 & H3 & H4 & _); try nia.
    rewrite H1, H2, H3, H4.
    pose proof (jx_of_range kxs kys j Hj). pose proof (jy_of_range kxs kys j Hj).
    pose proof (qx_of_range kxs kys ix j). pose proof (qy_of_range kys iy j).
    unfold n0, n1. lia. }
  destruct (grid2_rows n0 n1
              (fun ix iy => Cconj (nth iy (nth ix phi []) (RtoC 0))))
    as [Hcl Hcr].
  rewrite (take2_3d_grid (RtoC 0) _ n0 n1 n0 n1 (n0 * n1) _ _ Hcl Hcr)
    by (intros ix iy j Hix Hiy Hj; exact (proj1 (Hrange ix iy j Hix Hiy Hj))).
  cbn [bind].
  rewrite (take2_3d_grid (RtoC 0) _ n0 n1 n0 n1 (n0 * n1) _ _ Hcl Hcr)
    by (intros ix iy j Hix Hiy Hj; exact (proj2 (Hrange ix iy j Hix Hiy Hj))).
  cbn [bind]. unfold ret. f_equal. f_equal.
  rewrite !grid3_zip_with. unfold grid3. rewrite grid2_map.
  rewrite (vector_form 0 kys) at 1. fold n1. rewrite map_map, grid2_rowwise.
  rewrite grid2_zip_with.
  destruct (k2_grid_shape kxs kys) as [Hkl Hkr]. rewrite <- Hk2 in Hkl, Hkr.
  rewrite (grid2_form 0 n0 n1 (HasegawaMimaFourier.k2 self) Hkl Hkr).
  rewrite grid2_zip_with.
  apply grid2_ext. intros ix iy Hix Hiy. subst rhs. unfold dphi_spec, phi_at.
  fold kxs kys n0 n1. rewrite !Nat2Z.id.
  do 3 f_equal. apply map_seq_ext. intros j Hj.
  destruct (Hrange ix iy j Hix Hiy Hj) as [[Hpxr Hpyr] [Hqxr Hqyr]].
  rewrite !grid2_nth by lia. reflexivity.
Qed.

(** C2.  For a field [phi] of shape [(nx, ny)] the derivative function of
    [solve] returns a vector of [nx*ny] entries whose entry for the grid
    point [(ix, iy)] is exactly
    [(-i*ky[iy]*phi[ix,iy] + sum_j mat[ix,iy,j] * conj(phi)[px,py]
      * conj(phi)[qx,qy]) / (1 + k2[ix,iy])], the sum running over all
    [nx*ny] partner indices; the divisor [1 + k2] is at least 1 at every
    grid point, so it is never zero. *)
Theorem hm_dfdt_formula (kmax : Q) (nx ny : Z) (self : HasegawaMimaFourier.t)
    (t_ : Q) (phi : list (list C)) (ix iy : nat) :
  HasegawaMimaFourier.__init__ kmax nx ny = inr self ->
  Z.of_nat (length phi) = nx ->
  Forall (fun r => Z.of_nat (length r) = ny) phi ->
  (Z.of_nat ix < nx)%Z -> (Z.of_nat iy < ny)%Z ->
  exists out,
    HasegawaMimaFourier.dfdt self t_ (concat phi) = inr out
    /\ length out = Z.to_nat (nx * ny)
    /\ out !! (ix * Z.to_nat ny + iy)%nat = Some (dphi_spec self phi ix iy)
    /\ 1 <= 1 + nth iy (nth ix (HasegawaMimaFourier.k2 self) []) 0
    /\ ~ 1 + nth iy (nth ix (HasegawaMimaFourier.k2 self) []) 0 == 0
    /\ nth iy (nth ix (HasegawaMimaFourier.k2 self) []) 0
       == nth ix (HasegawaMimaFourier.kx self) 0
          * nth ix (HasegawaMimaFourier.kx self) 0
          + nth iy (HasegawaMimaFourier.ky self) 0
            * nth iy (HasegawaMimaFourier.ky self) 0.
Proof.
  intros Hinit Hphi Hrows Hix Hiy.
  destruct (init_model kmax nx ny self Hinit)
    as (_ & _ & Hx1 & Hy1 & _ & _ & Hlx & Hly & Hk2 & _).
  assert (Hphi' : length phi = length (HasegawaMimaFourier.kx self)) by lia.
  assert (Hrows' : Forall (fun r => length r
                                    = length (HasegawaMimaFourier.ky self)) phi).
  { eapply Forall_impl; [exact Hrows|]. simpl. intros r Hr. lia. }
  assert (Hix' : (ix < length (HasegawaMimaFourier.kx self))%nat) by lia.
  assert (Hiy' : (iy < length (HasegawaMimaFourier.ky self))%nat) by lia.
  eexists. split; [exact (hm_dfdt_grid kmax nx ny self t_ phi Hinit Hphi' Hrows')|].
  destruct (grid2_rows (length (HasegawaMimaFourier.kx self))
              (length (HasegawaMimaFourier.ky self)) (dphi_spec self phi))
    as [Hgl Hgr].
  destruct (k2_nonneg (HasegawaMimaFourier.kx self) (HasegawaMimaFourier.ky self)
              ix iy Hix' Hiy') as [Hpos Hval].
  rewrite <- Hk2 in Hpos, Hval.
  split; [|split; [|split; [|split]]].
  - rewrite (concat_length_uniform _ _ Hgr), Hgl, Hlx, Hly. nia.
  - rewrite <- Hly. now apply grid2_lookup.
  - lra.
  - lra.
  - exact Hval.
Qed.

Lemma hm_dfdt_formula_witness :
  exists self out,
    HasegawaMimaFourier.__init__ 10 3 3 = inr self
    /\ HasegawaMimaFourier.dfdt self 0
         (concat [[(1, 1); (1, 1); (1, 1)]; [(1, 1); (1, 1); (1, 1)];
                  [(1, 1); (1, 1); (1, 1)]]) = inr out
    /\ out !! 4%nat
       = Some (dphi_spec self [[(1, 1); (1, 1); (1, 1)]; [(1, 1); (1, 1); (1, 1)];
                               [(1, 1); (1, 1); (1, 1)]] 1 1).
Proof.
  destruct (HasegawaMimaFourier.__init__ 10 3 3) as [err|self] eqn:Hinit;
    [vm_compute in Hinit; discriminate Hinit|].
  destruct (hm_dfdt_formula 10 3 3 self 0
              [[(1, 1); (1, 1); (1, 1)]; [(1, 1); (1, 1); (1, 1)];
               [(1, 1); (1, 1); (1, 1)]] 1 1 Hinit)
    as (out & Hout & _ & Hslot & _).
  - reflexivity.
  - repeat constructor.
  - reflexivity.
  - reflexivity.
  - exists self, out. split; [reflexivity|]. split; [exact Hout | exact Hslot].
Defined.


(** * Further properties of the two models *)

(** ** The spectral model: what the constructor builds *)

(** X1.  In a constructed model the partner index arrays do not depend on
    the target: [index_px[ix, iy, j] = j // ny] and
    [index_py[ix, iy, j] = j % ny], so that [j = px*ny + py] with both
    indices on the grid. *)
Theorem partner_indices_decode (kmax : Q) (nx ny : Z)
    (self : HasegawaMimaFourier.t) (ix iy j : nat) :
  HasegawaMimaFourier.__init__ kmax nx ny = inr self ->
  (Z.of_nat ix < nx)%Z -> (Z.of_nat iy < ny)%Z -> (Z.of_nat j < nx * ny)%Z ->
  let px := at3 0%Z (HasegawaMimaFourier.index_px self) ix iy j in
  let py_ := at3 0%Z (HasegawaMimaFourier.index_py self) ix iy j in
  (px = Z.of_nat j / ny /\ py_ = Z.of_nat j mod ny
   /\ Z.of_nat j = px * ny + py_
   /\ 0 <= px < nx /\ 0 <= py_ < ny)%Z.
Proof.
  intros Hinit Hix Hiy Hj.
  destruct (model_entries kmax nx ny self ix iy j Hinit Hix Hiy Hj)
    as (_ & Hpx & Hpy & _).
  destruct (init_model kmax nx ny self Hinit)
    as (_ & _ & Hx1 & Hy1 & _ & _ & Hlx & Hly & _).
  cbv zeta. rewrite Hpx, Hpy. unfold jx_of, jy_of, nyZ.
  replace (Z.of_nat (length (HasegawaMimaFourier.ky self))) with ny by lia.
  pose proof (Z.div_mod (Z.of_nat j) ny ltac:(lia)).
  pose proof (Z.mod_pos_bound (Z.of_nat j) ny ltac:(lia)).
  assert (0 <= Z.of_nat j / ny)%Z by (apply Z.div_pos; lia).
  assert (Z.of_nat j / ny < nx)%Z by (apply Z.div_lt_upper_bound; nia).
  repeat split; lia.
Qed.

Lemma partner_indices_decode_witness :
  exists self,
    HasegawaMimaFourier.__init__ 10 3 5 = inr self
    /\ at3 0%Z (HasegawaMimaFourier.index_px self) 2 4 13 = 2%Z
    /\ at3 0%Z (HasegawaMimaFourier.index_py self) 2 4 13 = 3%Z.
Proof.
  destruct (init_total 10 3 5) as (self & _ & _ & Hinit & _); try reflexivity;
    try lia.
  exists self. split; [exact Hinit|].
  destruct (partner_indices_decode 10 3 5 self 2 4 13 Hinit)
    as (Hpx & Hpy & _); try reflexivity.
  split; [exact Hpx | exact Hpy].
Defined.

(** X2.  For a valid triad, where [lx = 3*half_x - ix - jx] and
    [ly = 3*half_y - iy - jy] both lie on the grid, the constructor stores
    [lx] and [ly] in [index_qx] and [index_qy] and the coefficient
    [(kx[jx]*ky[ly] - ky[jy]*kx[lx]) * k2[lx, ly]] in [mat]. *)
Theorem valid_triad_entries (kmax : Q) (nx ny : Z)
    (self : HasegawaMimaFourier.t) (ix iy j : nat) :
  HasegawaMimaFourier.__init__ kmax nx ny = inr self ->
  (Z.of_nat ix < nx)%Z -> (Z.of_nat iy < ny)%Z -> (Z.of_nat j < nx * ny)%Z ->
  let jx := (Z.of_nat j / ny)%Z in
  let jy := (Z.of_nat j mod ny)%Z in
  let lx := (3 * ((nx - 1) / 2) - Z.of_nat ix - jx)%Z in
  let ly := (3 * ((ny - 1) / 2) - Z.of_nat iy - jy)%Z in
  (0 <= lx < nx)%Z -> (0 <= ly < ny)%Z ->
  at3 0%Z (HasegawaMimaFourier.index_qx self) ix iy j = lx
  /\ at3 0%Z (HasegawaMimaFourier.index_qy self) ix iy j = ly
  /\ at3 0 (HasegawaMimaFourier.mat self) ix iy j
     = (nth (Z.to_nat jx) (HasegawaMimaFourier.kx self) 0
        * nth (Z.to_nat ly) (HasegawaMimaFourier.ky self) 0
        - nth (Z.to_nat jy) (HasegawaMimaFourier.ky self) 0
          * nth (Z.to_nat lx) (HasegawaMimaFourier.kx self) 0)
       * at2 0 (HasegawaMimaFourier.k2 self) lx ly.
Proof.
  intros Hinit Hix Hiy Hj jx jy lx ly Hlx Hly.
  destruct (model_entries kmax nx ny self ix iy j Hinit Hix Hiy Hj)
    as (Hm & _ & _ & Hqx & Hqy & _).
  destruct (init_model kmax nx ny self Hinit)
    as (_ & _ & Hx1 & Hy1 & _ & _ & Hnx & Hny & _).
  set (kxs := HasegawaMimaFourier.kx self) in *.
  set (kys := HasegawaMimaFourier.ky self) in *.
  assert (HnxZ : Z.of_nat (length kxs) = nx) by lia.
  assert (HnyZ : Z.of_nat (length kys) = ny) by lia.
  assert (Hlxe : lx_of kxs kys ix j = lx).
  { unfold lx_of, half_x, jx_of, nxZ, nyZ. now rewrite HnxZ, HnyZ. }
  assert (Hlye : ly_of kys iy j = ly).
  { unfold ly_of, half_y, jy_of, nyZ. now rewrite HnyZ. }
  assert (Hvx : valid_x kxs kys ix j = true).
  { unfold valid_x, nxZ. rewrite Hlxe, HnxZ.
    apply andb_true_iff. rewrite Z.leb_le, Z.ltb_lt. lia. }
  assert (Hvy : valid_y kys iy j = true).
  { unfold valid_y, nyZ. rewrite Hlye, HnyZ.
    apply andb_true_iff. rewrite Z.leb_le, Z.ltb_lt. lia. }
  rewrite Hm, Hqx, Hqy. unfold coupling, qx_of, qy_of.
  rewrite Hvx, Hvy, Hlxe, Hlye. cbn [andb].
  unfold kx_at, ky_at, k2_at, at2, jx_of, jy_of, nyZ. rewrite HnyZ.
  auto.
Qed.

Lemma valid_triad_entries_witness :
  exists self,
    HasegawaMimaFourier.__init__ 10 3 3 = inr self
    /\ at3 0%Z (HasegawaMimaFourier.index_qx self) 0 0 5 = 2%Z
    /\ at3 0%Z (HasegawaMimaFourier.index_qy self) 0 0 5 = 1%Z.
Proof.
  destruct (init_total 10 3 3) as (self & _ & _ & Hinit & _); try reflexivity;
    try lia.
  exists self. split; [exact Hinit|].
  pose proof (valid_triad_entries 10 3 3 self 0 0 5 Hinit eq_refl eq_refl eq_refl)
    as H.
  cbv zeta in H.
  destruct H as (Hqx & Hqy & _);
    [split; [intros Hc; discriminate Hc | reflexivity]
    |split; [intros Hc; discriminate Hc | reflexivity] |].
  split; [exact Hqx | exact Hqy].
Defined.

Lemma setup_k (kxs kys : list Q) (self : HasegawaMimaFourier.t) :
  HasegawaMimaFourier._setup kxs kys = inr self ->
  HasegawaMimaFourier.k self = np.stack_last (np.meshgrid kys kxs).
Proof.
  unfold HasegawaMimaFourier._setup.
  destruct (foldM _ _ _) as [err|st]; cbn [bind]; [discriminate|].
  now intros [= <-].
Qed.

Lemma stack_meshgrid_row (kxs kys : list Q) (ix : nat) (kxv : Q) :
  kxs !! ix = Some kxv ->
  np.stack_last (np.meshgrid kys kxs) !! ix
  = Some (map (fun kyv => [kyv; kxv]) kys).
Proof.
  intros Hx. unfold np.stack_last, np.meshgrid. cbn [fst snd].
  rewrite lookup_zip_with, !lookup_map, Hx. cbn.
  f_equal. clear Hx. induction kys as [|y kys IH]; [reflexivity|].
  cbn [map zip_with]. now rewrite IH.
Qed.

(** X3.  The arrays of a constructed model have the shapes the source
    allocates: [k] is [(nx, ny, 2)], [k2] is [(nx, ny)], the coupling
    tensor and the four index arrays are [(nx, ny, nx*ny)], and the
    [shape] property is [(nx, ny)]. *)
Theorem model_array_shapes (kmax : Q) (nx ny : Z)
    (self : HasegawaMimaFourier.t) :
  HasegawaMimaFourier.__init__ kmax nx ny = inr self ->
  let n0 := Z.to_nat nx in
  let n1 := Z.to_nat ny in
  HasegawaMimaFourier.shape self = (n0, n1)
  /\ length (HasegawaMimaFourier.kx self) = n0
  /\ length (HasegawaMimaFourier.ky self) = n1
  /\ shape3 n0 n1 2 (HasegawaMimaFourier.k self)
  /\ length (HasegawaMimaFourier.k2 self) = n0
  /\ Forall (fun r => length r = n1) (HasegawaMimaFourier.k2 self)
  /\ shape3 n0 n1 (n0 * n1) (HasegawaMimaFourier.mat self)
  /\ shape3 n0 n1 (n0 * n1) (HasegawaMimaFourier.index_px self)
  /\ shape3 n0 n1 (n0 * n1) (HasegawaMimaFourier.index_py self)
  /\ shape3 n0 n1 (n0 * n1) (HasegawaMimaFourier.index_qx self)
  /\ shape3 n0 n1 (n0 * n1) (HasegawaMimaFourier.index_qy self).
Proof.
  intros Hinit n0 n1.
  pose proof (model_shape kmax nx ny self Hinit) as Hshape.
  destruct (init_model kmax nx ny self Hinit)
    as (_ & _ & _ & _ & _ & _ & Hnx & Hny & Hk2 & Hts & _).
  destruct (init_inr kmax nx ny self Hinit) as (_ & _ & kxs & kys & _ & _ & Hs).
  pose proof (setup_k kxs kys self Hs) as Hk.
  destruct (setup_inr kxs kys self Hs) as (Hkx & Hky & _).
  rewrite <- Hkx, <- Hky in Hk.
  destruct (k2_grid_shape (HasegawaMimaFourier.kx self)
              (HasegawaMimaFourier.ky self)) as [Hkl Hkr].
  rewrite <- Hk2 in Hkl, Hkr.
  destruct Hts as (Hm & Hpx & Hpy & Hqx & Hqy).
  cbn in Hm, Hpx, Hpy, Hqx, Hqy.
  rewrite Hnx, Hny in *. fold n0 n1 in Hshape, Hkl, Hkr, Hm, Hpx, Hpy, Hqx, Hqy.
  refine (conj Hshape (conj eq_refl (conj eq_refl (conj _ (conj Hkl (conj Hkr
            (conj Hm (conj Hpx (conj Hpy (conj Hqx Hqy)))))))))).
  rewrite Hk. split.
  - unfold np.stack_last, np.meshgrid. cbn [fst snd].
    rewrite length_zip_with, !length_map. lia.
  - apply Forall_lookup. intros ix pl Hpl.
    assert (Hix : (ix < length (HasegawaMimaFourier.kx self))%nat).
    { apply lookup_lt_Some in Hpl. revert Hpl.
      unfold np.stack_last, np.meshgrid. cbn [fst snd].
      rewrite length_zip_with, !length_map. lia. }
    destruct (lookup_lt_is_Some_2 _ ix Hix) as [kxv Hx].
    rewrite (stack_meshgrid_row _ _ ix kxv Hx) in Hpl. injection Hpl as <-.
    split; [now rewrite length_map|].
    apply Forall_forall. intros r Hr. apply list_elem_of_In, in_map_iff in Hr.
    now destruct Hr as (y & <- & _).
Qed.

Lemma model_array_shapes_witness :
  exists self,
    HasegawaMimaFourier.__init__ 10 3 5 = inr self
    /\ HasegawaMimaFourier.shape self = (3%nat, 5%nat)
    /\ shape3 3 5 15 (HasegawaMimaFourier.mat self).
Proof.
  destruct (init_total 10 3 5) as (self & _ & _ & Hinit & _); try reflexivity;
    try lia.
  exists self. split; [exact Hinit|].
  destruct (model_array_shapes 10 3 5 self Hinit)
    as (Hs & _ & _ & _ & _ & _ & Hm & _).
  split; [exact Hs | exact Hm].
Defined.

(** X4.  The wavevector grid stores the [ky] component first:
    [k[ix, iy] = (ky[iy], kx[ix])], as [np.meshgrid(ky, kx)] lays it out,
    and [k2[ix, iy]] is the sum of the squares of these two components. *)
Theorem wavevector_grid_entries (kmax : Q) (nx ny : Z)
    (self : HasegawaMimaFourier.t) (ix iy : nat) :
  HasegawaMimaFourier.__init__ kmax nx ny = inr self ->
  (Z.of_nat ix < nx)%Z -> (Z.of_nat iy < ny)%Z ->
  nth iy (nth ix (HasegawaMimaFourier.k self) []) []
  = [nth iy (HasegawaMimaFourier.ky self) 0; nth ix (HasegawaMimaFourier.kx self) 0]
  /\ nth iy (nth ix (HasegawaMimaFourier.k2 self) []) 0
     = 0 + nth iy (HasegawaMimaFourier.ky self) 0 * nth iy (HasegawaMimaFourier.ky self) 0
       + nth ix (HasegawaMimaFourier.kx self) 0 * nth ix (HasegawaMimaFourier.kx self) 0
  /\ 0 <= nth iy (nth ix (HasegawaMimaFourier.k2 self) []) 0.
Proof.
  intros Hinit Hix Hiy.
  destruct (init_model kmax nx ny self Hinit)
    as (_ & _ & _ & _ & _ & _ & Hnx & Hny & Hk2 & _).
  destruct (init_inr kmax nx ny self Hinit) as (_ & _ & kxs & kys & _ & _ & Hs).
  pose proof (setup_k kxs kys self Hs) as Hk.
  destruct (setup_inr kxs kys self Hs) as (Hkx & Hky & _).
  rewrite <- Hkx, <- Hky in Hk.
  assert (Hix' : (ix < length (HasegawaMimaFourier.kx self))%nat) by lia.
  assert (Hiy' : (iy < length (HasegawaMimaFourier.ky self))%nat) by lia.
  destruct (lookup_lt_is_Some_2 _ ix Hix') as [kxv Hx].
  destruct (lookup_lt_is_Some_2 _ iy Hiy') as [kyv Hy].
  split; [|split].
  - rewrite Hk, (nth_lookup_Some _ _ _ _ (stack_meshgrid_row _ _ ix kxv Hx)).
    rewrite (nth_lookup_Some _ _ 0 _ Hx), (nth_lookup_Some _ _ 0 _ Hy).
    apply nth_lookup_Some. now rewrite lookup_map, Hy.
  - rewrite Hk2. now apply k2_grid_entry.
  - rewrite Hk2. now apply k2_nonneg.
Qed.

Lemma wavevector_grid_entries_witness :
  exists self,
    HasegawaMimaFourier.__init__ 10 3 5 = inr self
    /\ nth 4 (nth 0 (HasegawaMimaFourier.k self) []) []
       = [nth 4 (HasegawaMimaFourier.ky self) 0;
          nth 0 (HasegawaMimaFourier.kx self) 0].
Proof.
  destruct (init_total 10 3 5) as (self & _ & _ & Hinit & _); try reflexivity;
    try lia.
  exists self. split; [exact Hinit|].
  destruct (wavevector_grid_entries 10 3 5 self 0 4 Hinit) as (Hk & _);
    try reflexivity.
  exact Hk.
Defined.

(** ** The spectral model: grids the constructor rejects or builds *)

(** X5.  An odd negative point count passes the parity assertions and is
    rejected by [np.linspace]: the constructor raises [ValueError]. *)
Theorem init_negative_count (kmax : Q) (nx ny : Z) :
  Z.odd nx = true -> Z.odd ny = true -> (nx < 0 \/ ny < 0)%Z ->
  HasegawaMimaFourier.__init__ kmax nx ny
  = inl (ValueError "Number of samples must be non-negative").
Proof.
  intros Hxo Hyo Hneg. unfold HasegawaMimaFourier.__init__, py_assert.
  rewrite (Zmod_odd nx), Hxo, (Zmod_odd ny), Hyo. cbn [Z.eqb Pos.eqb bind ret].
  destruct (Z.ltb_spec nx 0) as [Hx|Hx].
  - unfold np.linspace at 1. destruct (Z.ltb_spec nx 0); [reflexivity | lia].
  - destruct (linspace_spec (- kmax) kmax nx Hx) as (kxs & -> & _). cbn [bind].
    unfold np.linspace. destruct (Z.ltb_spec ny 0); [reflexivity | lia].
Qed.

Lemma init_negative_count_witness :
  HasegawaMimaFourier.__init__ 10 (-3) 5
  = inl (ValueError "Number of samples must be non-negative").
Proof.
  apply (init_negative_count 10 (-3) 5); [reflexivity | reflexivity | lia].
Defined.

Lemma allclose_false (l : list Q) (x : Q) :
  In x l -> np.atol < Qabs x -> np.allclose l 0 = false.
Proof.
  intros Hx Hbig. destruct (np.allclose l 0) eqn:Hall; [|reflexivity].
  pose proof (allclose_bound l x Hall Hx). lra.
Qed.

Lemma setup_first_target_fails (kxs kys : list Q) (kxv kyv : Q) (rx ry : list Q)
    (err : exn) :
  kxs = kxv :: rx -> kys = kyv :: ry ->
  sanity kxs kys 0 0 kxv kyv = inl err ->
  HasegawaMimaFourier._setup kxs kys = inl err.
Proof.
  intros Hkx Hky Hsan.
  destruct (k2_grid_shape kxs kys) as [Hk2 Hk2rows].
  pose proof (proj1 (setup_initial kxs kys)) as Hshape.
  unfold HasegawaMimaFourier._setup.
  fold (k2_grid kxs kys).
  change (foldM _ (enumerate kxs))
    with (foldM (outer_step kxs kys (k2_grid kxs kys)) (enumerate kxs)).
  set (st0 := HasegawaMimaFourier.mk_tensors _ _ _ _ _) in *.
  assert (Hstep : outer_step kxs kys (k2_grid kxs kys) st0 (0%nat, kxv) = inl err).
  { unfold outer_step, inner_step.
    assert (He : enumerate kys = (0%nat, kyv) :: zip (seq 1 (length ry)) ry)
      by (rewrite Hky; reflexivity).
    rewrite He. cbn [foldM fst snd].
    rewrite (loop_body_spec kxs kys _ 0 0 kxv kyv st0); try assumption;
      try (subst kxs kys; simpl; lia).
    now rewrite Hsan. }
  assert (He : enumerate kxs = (0%nat, kxv) :: zip (seq 1 (length rx)) rx)
    by (rewrite Hkx; reflexivity).
  rewrite He. cbn [foldM]. now rewrite Hstep.
Qed.

(** X6.  A single point along [x] is an odd grid, and the constructor
    rejects it as soon as [3*|kmax|] exceeds the tolerance of the sanity
    check: the only grid point is [-kmax], the valid triad of the first
    target sums to [-3*kmax], and the first sanity assertion raises. *)
Theorem init_single_point_fails (kmax : Q) (ny : Z) :
  Z.odd ny = true -> (1 <= ny)%Z -> np.atol < 3 * Qabs kmax ->
  HasegawaMimaFourier.__init__ kmax 1 ny = inl (AssertionError "kxsum").
Proof.
  intros Hyo Hy1 Hbig. unfold HasegawaMimaFourier.__init__, py_assert.
  rewrite (Zmod_odd ny), Hyo. cbn [Z.modulo Z.div_eucl Z.eqb Pos.eqb bind ret].
  change (Z.pos_div_eucl 1 2) with (0%Z, 1%Z). cbn [snd Z.eqb Pos.eqb bind ret].
  destruct (linspace_spec (- kmax) kmax ny ltac:(lia)) as (kys & Hky & Hlen & _).
  rewrite Hky. change (np.linspace (- kmax) kmax 1) with (@inr exn _ [- kmax]).
  cbn [bind].
  destruct kys as [|kyv ry]; [simpl in Hlen; lia|].
  apply (setup_first_target_fails _ _ (- kmax) kyv [] ry); try reflexivity.
  unfold sanity, py_assert.
  set (kys := kyv :: ry) in *.
  set (h := ((ny - 1) / 2)%Z).
  assert (Hh : (ny = 2 * h + 1)%Z).
  { unfold h. pose proof (Z.div_mod (ny - 1) 2 ltac:(lia)).
    assert ((ny - 1) mod 2 = 0)%Z; [|lia].
    rewrite Zminus_mod, (Zmod_odd ny), Hyo. reflexivity. }
  assert (HnyZ : Z.of_nat (length kys) = ny) by lia.
  rewrite (allclose_false _ (- kmax + - kmax + - kmax)); [reflexivity| |].
  - apply in_map_iff. exists (Z.to_nat (2 * h)). split.
    + unfold kxsum_at, valid_x, valid_y, qx_of, valid_x, lx_of, ly_of, half_x,
        half_y, jx_of, jy_of, nxZ, nyZ, kx_at.
      rewrite HnyZ. cbn [length]. rewrite Z2Nat.id by lia.
      rewrite (Z.div_small (2 * h) ny), (Z.mod_small (2 * h) ny) by lia.
      fold h. change ((Z.of_nat 1 - 1) / 2)%Z with 0%Z.
      replace (3 * 0 - Z.of_nat 0 - 0)%Z with 0%Z by lia.
      replace (3 * h - Z.of_nat 0 - 2 * h)%Z with h by lia.
      destruct (Z.leb_spec 0 h); [|lia]. destruct (Z.ltb_spec h ny); [|lia].
      reflexivity.
    + apply in_seq. cbn [length]. lia.
  - assert (He : - kmax + - kmax + - kmax == - (3 * kmax)) by ring.
    rewrite He, Qabs_opp, Qabs_Qmult. exact Hbig.
Qed.

Lemma init_single_point_fails_witness :
  HasegawaMimaFourier.__init__ 10 1 3 = inl (AssertionError "kxsum").
Proof.
  apply (init_single_point_fails 10 3); [reflexivity | lia | reflexivity].
Defined.

Lemma linear_grid_symmetric (kmax : Q) (ks : list Q) (i : nat) :
  linear_grid kmax ks -> (i < length ks)%nat ->
  nth i ks 0 + nth (length ks - 1 - i) ks 0 == 0
  /\ nth (Z.to_nat ((Z.of_nat (length ks) - 1) / 2)) ks 0 == 0
  /\ (0 < kmax -> (i + 1 < length ks)%nat -> nth i ks 0 < nth (i + 1) ks 0).
Proof.
  intros (H3 & Hodd & Hlin) Hi.
  set (n := length ks) in *.
  set (h := ((Z.of_nat n - 1) / 2)%Z).
  assert (Hh : (Z.of_nat n - 1 = 2 * h)%Z).
  { unfold h. pose proof (Z.div_mod (Z.of_nat n - 1) 2 ltac:(lia)).
    assert ((Z.of_nat n - 1) mod 2 = 0)%Z; [|lia].
    rewrite Zminus_mod, Hodd. reflexivity. }
  assert (Hh0 : ~ inject_Z h == 0).
  { change 0 with (inject_Z 0). rewrite inject_Z_injective. lia. }
  assert (Hhpos : 0 < inject_Z h).
  { change 0 with (inject_Z 0). rewrite <- Zlt_Qlt. lia. }
  split; [|split].
  - rewrite (Hlin i Hi), (Hlin (n - 1 - i)%nat) by lia.
    unfold linear_sample. rewrite Hh.
    replace (Z.of_nat (n - 1 - i)) with (2 * h + - Z.of_nat i)%Z by lia.
    rewrite inject_Z_plus, inject_Z_opp, !inject_Z_mult.
    change (inject_Z 2) with 2. field. exact Hh0.
  - rewrite (Hlin (Z.to_nat h)) by lia.
    unfold linear_sample. rewrite Z2Nat.id, Hh by lia.
    rewrite inject_Z_mult. change (inject_Z 2) with 2. field. exact Hh0.
  - intros Hk Hi1. rewrite (Hlin i Hi), (Hlin (i + 1)%nat Hi1).
    unfold linear_sample. rewrite Hh.
    replace (Z.of_nat (i + 1)) with (Z.of_nat i + 1)%Z by lia.
    rewrite inject_Z_plus, inject_Z_mult.
    change (inject_Z 2) with 2. change (inject_Z 1) with 1.
    assert (Hstep : 0 < (kmax - - kmax) / (2 * inject_Z h)).
    { apply Qlt_shift_div_l; lra. }
    lra.
Qed.

(** X7.  On an odd grid of at least three points per axis the wavenumbers
    are symmetric about zero, [kx[i] + kx[nx-1-i] = 0], the entry at the
    index [half_x = (nx-1)/2] is the zero wavenumber, and for [kmax > 0]
    the grid is strictly increasing; likewise for [ky]. *)
Theorem grids_symmetric_about_zero (kmax : Q) (nx ny : Z)
    (self : HasegawaMimaFourier.t) (ix iy : nat) :
  HasegawaMimaFourier.__init__ kmax nx ny = inr self ->
  (3 <= nx)%Z -> (3 <= ny)%Z ->
  (Z.of_nat ix < nx)%Z -> (Z.of_nat iy < ny)%Z ->
  let kxs := HasegawaMimaFourier.kx self in
  let kys := HasegawaMimaFourier.ky self in
  nth ix kxs 0 + nth (Z.to_nat nx - 1 - ix) kxs 0 == 0
  /\ nth iy kys 0 + nth (Z.to_nat ny - 1 - iy) kys 0 == 0
  /\ nth (Z.to_nat ((nx - 1) / 2)) kxs 0 == 0
  /\ nth (Z.to_nat ((ny - 1) / 2)) kys 0 == 0
  /\ (0 < kmax -> (Z.of_nat ix + 1 < nx)%Z -> nth ix kxs 0 < nth (ix + 1) kxs 0)
  /\ (0 < kmax -> (Z.of_nat iy + 1 < ny)%Z -> nth iy kys 0 < nth (iy + 1) kys 0).
Proof.
  intros Hinit Hx3 Hy3 Hix Hiy kxs kys.
  destruct (init_model kmax nx ny self Hinit)
    as (Hxo & Hyo & _ & _ & Hkx & Hky & Hnx & Hny & _).
  fold kxs in Hkx, Hnx. fold kys in Hky, Hny.
  destruct (linspace_linear_grid kmax nx kxs Hx3 Hxo Hkx) as [_ Hgx].
  destruct (linspace_linear_grid kmax ny kys Hy3 Hyo Hky) as [_ Hgy].
  destruct (linear_grid_symmetric kmax kxs ix Hgx ltac:(lia)) as (Hsx & Hzx & Hix1).
  destruct (linear_grid_symmetric kmax kys iy Hgy ltac:(lia)) as (Hsy & Hzy & Hiy1).
  rewrite Hnx in Hsx, Hzx. rewrite Hny in Hsy, Hzy.
  rewrite Z2Nat.id in Hzx, Hzy by lia.
  repeat split; try assumption.
  - intros Hk Hlt. apply Hix1; [exact Hk | lia].
  - intros Hk Hlt. apply Hiy1; [exact Hk | lia].
Qed.

Lemma grids_symmetric_about_zero_witness :
  exists self,
    HasegawaMimaFourier.__init__ 10 3 5 = inr self
    /\ nth 0 (HasegawaMimaFourier.kx self) 0
       + nth 2 (HasegawaMimaFourier.kx self) 0 == 0
    /\ nth 2 (HasegawaMimaFourier.ky self) 0 == 0.
Proof.
  destruct (init_total 10 3 5) as (self & _ & _ & Hinit & _); try reflexivity;
    try lia.
  exists self. split; [exact Hinit|].
  destruct (grids_symmetric_about_zero 10 3 5 self 0 0 Hinit)
    as (Hsx & _ & _ & Hzy & _); try reflexivity; try lia.
  split; [exact Hsx | exact Hzy].
Defined.

(** X8.  The coupling coefficient vanishes for a triad whose partner and
    third wavevector coincide, and, on grids of at least three points per
    axis, for a triad whose third wavevector is the zero mode
    [(half_x, half_y)], where [k2] is zero. *)
Theorem coupling_vanishes (kmax : Q) (nx ny : Z)
    (self : HasegawaMimaFourier.t) (ix iy j : nat) :
  HasegawaMimaFourier.__init__ kmax nx ny = inr self ->
  (Z.of_nat ix < nx)%Z -> (Z.of_nat iy < ny)%Z -> (Z.of_nat j < nx * ny)%Z ->
  let jx := (Z.of_nat j / ny)%Z in
  let jy := (Z.of_nat j mod ny)%Z in
  let lx := (3 * ((nx - 1) / 2) - Z.of_nat ix - jx)%Z in
  let ly := (3 * ((ny - 1) / 2) - Z.of_nat iy - jy)%Z in
  (jx = lx /\ jy = ly)
  \/ ((3 <= nx)%Z /\ (3 <= ny)%Z /\ lx = ((nx - 1) / 2)%Z /\ ly = ((ny - 1) / 2)%Z) ->
  at3 0 (HasegawaMimaFourier.mat self) ix iy j == 0.
Proof.
  intros Hinit Hix Hiy Hj jx jy lx ly Hcase.
  destruct (model_entries kmax nx ny self ix iy j Hinit Hix Hiy Hj)
    as (Hm & _).
  destruct (init_model kmax nx ny self Hinit)
    as (Hxo & Hyo & Hx1 & Hy1 & Hkx & Hky & Hnx & Hny & Hk2 & _).
  set (kxs := HasegawaMimaFourier.kx self) in *.
  set (kys := HasegawaMimaFourier.ky self) in *.
  assert (HnxZ : Z.of_nat (length kxs) = nx) by lia.
  assert (HnyZ : Z.of_nat (length kys) = ny) by lia.
  assert (Hjxe : jx_of kys j = jx) by (unfold jx_of, nyZ; now rewrite HnyZ).
  assert (Hjye : jy_of kys j = jy) by (unfold jy_of, nyZ; now rewrite HnyZ).
  assert (Hlxe : lx_of kxs kys ix j = lx).
  { unfold lx_of, half_x, nxZ. now rewrite Hjxe, HnxZ. }
  assert (Hlye : ly_of kys iy j = ly).
  { unfold ly_of, half_y, nyZ. now rewrite Hjye, HnyZ. }
  rewrite Hm. unfold coupling.
  destruct (valid_x kxs kys ix j && valid_y kys iy j) eqn:Hv; [|reflexivity].
  apply andb_true_iff in Hv as [Hvx Hvy].
  apply valid_x_true in Hvx as [Hlxr ->]. apply valid_y_true in Hvy as [Hlyr ->].
  rewrite Hjxe, Hjye, Hlxe, Hlye.
  destruct Hcase as [[Hjl1 Hjl2]|(Hx3 & Hy3 & Hlh & Hlyh)].
  - rewrite Hjl1, Hjl2. unfold kx_at, ky_at. ring.
  - destruct (linspace_linear_grid kmax nx kxs Hx3 Hxo Hkx) as [_ Hgx].
    destruct (linspace_linear_grid kmax ny kys Hy3 Hyo Hky) as [_ Hgy].
    destruct (linear_grid_symmetric kmax kxs 0 Hgx ltac:(lia)) as (_ & Hzx & _).
    destruct (linear_grid_symmetric kmax kys 0 Hgy ltac:(lia)) as (_ & Hzy & _).
    rewrite HnxZ in Hzx. rewrite HnyZ in Hzy.
    unfold k2_at. rewrite Hk2, Hlh, Hlyh.
    rewrite k2_grid_entry by lia.
    rewrite Hzx, Hzy. ring.
Qed.

Lemma coupling_vanishes_witness :
  exists self,
    HasegawaMimaFourier.__init__ 10 3 3 = inr self
    /\ at3 0 (HasegawaMimaFourier.mat self) 1 1 4 == 0.
Proof.
  destruct (init_total 10 3 3) as (self & _ & _ & Hinit & _); try reflexivity;
    try lia.
  exists self. split; [exact Hinit|].
  apply (coupling_vanishes 10 3 3 self 1 1 4 Hinit); try reflexivity.
  left. split; reflexivity.
Defined.

(** ** The spectral model: the derivative and [solve] *)

(** X9.  The derivative of a constructed model rejects a state vector
    whose length is not [nx*ny]: the reshape to the grid raises
    [ValueError]. *)
Theorem hm_dfdt_wrong_length (kmax : Q) (nx ny : Z)
    (self : HasegawaMimaFourier.t) (t_ : Q) (phi : list C) :
  HasegawaMimaFourier.__init__ kmax nx ny = inr self ->
  Z.of_nat (length phi) <> (nx * ny)%Z ->
  HasegawaMimaFourier.dfdt self t_ phi = inl (ValueError "cannot reshape array").
Proof.
  intros Hinit Hlen.
  destruct (init_model kmax nx ny self Hinit)
    as (_ & _ & Hx1 & Hy1 & _ & _ & Hnx & Hny & _).
  unfold HasegawaMimaFourier.dfdt.
  rewrite (model_shape kmax nx ny self Hinit). cbn [fst snd].
  unfold np.reshape2.
  destruct (Nat.eqb_spec (length phi)
              (length (HasegawaMimaFourier.kx self)
               * length (HasegawaMimaFourier.ky self))) as [He|]; [|reflexivity].
  exfalso. apply Hlen. rewrite He, Hnx, Hny. nia.
Qed.

Lemma hm_dfdt_wrong_length_witness :
  exists self,
    HasegawaMimaFourier.__init__ 10 3 3 = inr self
    /\ HasegawaMimaFourier.dfdt self 0 [(1, 1); (1, 1)]
       = inl (ValueError "cannot reshape array").
Proof.
  destruct (init_total 10 3 3) as (self & _ & _ & Hinit & _); try reflexivity;
    try lia.
  exists self. split; [exact Hinit|].
  apply (hm_dfdt_wrong_length 10 3 3 self 0 [(1, 1); (1, 1)] Hinit).
  simpl. lia.
Defined.

Lemma Csum_zero (l : list C) :
  Forall (fun z => Ceq z (RtoC 0)) l -> Ceq (Csum l) (RtoC 0).
Proof.
  unfold Csum.
  assert (Hgen : forall a, Ceq a (RtoC 0) ->
                   Forall (fun z => Ceq z (RtoC 0)) l ->
                   Ceq (fold_left Cadd l a) (RtoC 0)).
  { induction l as [|z l IH]; intros a Ha Hl; simpl; [exact Ha|].
    inversion Hl as [|? ? Hz Hl']; subst. apply IH; [|exact Hl'].
    destruct Ha as [Ha1 Ha2], Hz as [Hz1 Hz2]. unfold Ceq, Cadd, RtoC in *.
    simpl in *. rewrite Ha1, Ha2, Hz1, Hz2. split; ring. }
  intros Hl. apply Hgen; [|exact Hl]. split; reflexivity.
Qed.

Lemma nth_zero_grid (nx ny a b : nat) :
  nth b (nth a (replicate nx (replicate ny (RtoC 0))) []) (RtoC 0) = RtoC 0.
Proof.
  destruct (decide (a < nx)%nat) as [Ha|Ha].
  - rewrite (nth_lookup_Some _ a [] (replicate ny (RtoC 0)))
      by now apply lookup_replicate_2.
    destruct (decide (b < ny)%nat) as [Hb|Hb].
    + apply nth_lookup_Some. now apply lookup_replicate_2.
    + apply nth_overflow. rewrite length_replicate. lia.
  - rewrite (nth_overflow _ []) by (rewrite length_replicate; lia).
    now destruct b.
Qed.

(** X10.  The zero field is an equilibrium of the spectral equation: for a
    constructed model the derivative of the all-zero field of shape
    [(nx, ny)] is zero at every grid point. *)
Theorem hm_dfdt_zero_field (kmax : Q) (nx ny : Z)
    (self : HasegawaMimaFourier.t) (t_ : Q) (ix iy : nat) :
  HasegawaMimaFourier.__init__ kmax nx ny = inr self ->
  (Z.of_nat ix < nx)%Z -> (Z.of_nat iy < ny)%Z ->
  exists out z,
    HasegawaMimaFourier.dfdt self t_
      (concat (replicate (Z.to_nat nx) (replicate (Z.to_nat ny) (RtoC 0))))
    = inr out
    /\ out !! (ix * Z.to_nat ny + iy)%nat = Some z
    /\ Ceq z (RtoC 0).
Proof.
  intros Hinit Hix Hiy.
  destruct (init_model kmax nx ny self Hinit)
    as (_ & _ & Hx1 & Hy1 & _ & _ & Hnx & Hny & _).
  set (phi := replicate (Z.to_nat nx) (replicate (Z.to_nat ny) (RtoC 0))).
  assert (Hphi : length phi = length (HasegawaMimaFourier.kx self)).
  { unfold phi. now rewrite length_replicate. }
  assert (Hrows : Forall (fun r => length r = length (HasegawaMimaFourier.ky self))
                    phi).
  { unfold phi. apply Forall_replicate. now rewrite length_replicate. }
  eexists. eexists.
  split; [exact (hm_dfdt_grid kmax nx ny self t_ phi Hinit Hphi Hrows)|].
  split; [rewrite Hny; apply grid2_lookup; lia|].
  unfold dphi_spec, phi_at, phi. rewrite !nth_zero_grid.
  set (s := Csum _).
  assert (Hs : Ceq s (RtoC 0)).
  { unfold s. apply Csum_zero, Forall_forall. intros z Hz.
    apply list_elem_of_In, in_map_iff in Hz. destruct Hz as (j & <- & _).
    rewrite !nth_zero_grid. unfold Ceq, Cmul, Cconj, RtoC. simpl. split; ring. }
  destruct Hs as [Hs1 Hs2].
  unfold Ceq, Cdiv, Cadd, Cmul, Ci_neg, RtoC in *. cbn [fst snd] in *.
  rewrite Hs1, Hs2. unfold Qdiv. split; ring.
Qed.

Lemma hm_dfdt_zero_field_witness :
  exists self out z,
    HasegawaMimaFourier.__init__ 10 3 3 = inr self
    /\ HasegawaMimaFourier.dfdt self 0
         (concat (replicate 3 (replicate 3 (RtoC 0)))) = inr out
    /\ out !! 4%nat = Some z /\ Ceq z (RtoC 0).
Proof.
  destruct (init_total 10 3 3) as (self & _ & _ & Hinit & _); try reflexivity;
    try lia.
  destruct (hm_dfdt_zero_field 10 3 3 self 0 1 1 Hinit)
    as (out & z & Hout & Hz & Hzero); try reflexivity.
  exists self, out, z. auto.
Defined.

Lemma nd_reshape_ok {A : Type} (a : ndarray A) (s : list nat) :
  length (nd_data a) = fold_right Nat.mul 1%nat s ->
  nd_reshape a s = inr (mk_nd s (nd_data a)).
Proof. intros H. unfold nd_reshape. now rewrite H, Nat.eqb_refl. Qed.

(** What [solve] returns on a record with a complex solution of the
    right size and an array of time points. *)
Lemma hm_solve_value (solve_ivp : integrator C) (kmax : Q)
    (nx ny : Z) (self : HasegawaMimaFourier.t) (t_span : Q * Q)
    (phiinit : ndarray C) (kwargs result : gmap string value)
    (ya : ndarray C) (ta : ndarray Q) (nt : nat) (st : list nat) :
  HasegawaMimaFourier.__init__ kmax nx ny = inr self ->
  solve_ivp (HasegawaMimaFourier.dfdt self) t_span (nd_data phiinit) kwargs
  = inr result ->
  result !! "y" = Some (VComplex ya) ->
  result !! "t" = Some (VReal ta) -> nd_shape ta = nt :: st ->
  length (nd_data ya) = (Z.to_nat nx * (Z.to_nat ny * nt))%nat ->
  HasegawaMimaFourier.solve solve_ivp self t_span phiinit kwargs
  = inr (<["y" := VComplex (mk_nd [Z.to_nat nx; Z.to_nat ny; nt] (nd_data ya))]>
           result).
Proof.
  intros Hinit Hrun Hy Ht Hts Hlen.
  destruct (init_model kmax nx ny self Hinit)
    as (_ & _ & _ & _ & _ & _ & Hnx & Hny & _).
  unfold HasegawaMimaFourier.solve. rewrite Hrun. cbn [bind].
  unfold dict_getitem. rewrite Hy. cbn [bind ret value_getattr_reshape].
  rewrite Ht. cbn [bind ret].
  unfold value_len, value_shape. cbn [bind ret]. rewrite Hts. cbn [bind ret].
  rewrite (model_shape kmax nx ny self Hinit), Hnx, Hny. cbn [fst snd].
  unfold value_reshape. rewrite nd_reshape_ok by (simpl; lia). reflexivity.
Qed.

(** X11.  When the integrator returns a record whose time vector has [nt]
    entries and whose complex solution holds [nx*ny*nt] values, [solve]
    returns that record with [y] given the shape [(nx, ny, nt)], its
    values untouched, and every other entry of the record as the
    integrator left it. *)
Theorem hm_solve_reshapes_only_y (solve_ivp : integrator C) (kmax : Q)
    (nx ny : Z) (self : HasegawaMimaFourier.t) (t_span : Q * Q)
    (phiinit : ndarray C) (kwargs result : gmap string value)
    (ya : ndarray C) (ta : ndarray Q) (nt : nat) (st : list nat) :
  HasegawaMimaFourier.__init__ kmax nx ny = inr self ->
  solve_ivp (HasegawaMimaFourier.dfdt self) t_span (nd_data phiinit) kwargs
  = inr result ->
  result !! "y" = Some (VComplex ya) ->
  result !! "t" = Some (VReal ta) -> nd_shape ta = nt :: st ->
  length (nd_data ya) = (Z.to_nat nx * (Z.to_nat ny * nt))%nat ->
  exists result',
    HasegawaMimaFourier.solve solve_ivp self t_span phiinit kwargs = inr result'
    /\ result' !! "y"
       = Some (VComplex (mk_nd [Z.to_nat nx; Z.to_nat ny; nt] (nd_data ya)))
    /\ forall key, key <> "y" -> result' !! key = result !! key.
Proof.
  intros Hinit Hrun Hy Ht Hts Hlen.
  eexists. split; [exact (hm_solve_value solve_ivp kmax nx ny self t_span phiinit
                            kwargs result ya ta nt st Hinit Hrun Hy Ht Hts Hlen)|].
  split.
  - apply lookup_insert_eq.
  - intros key Hkey. now apply lookup_insert_ne.
Qed.

(** An integrator that returns one fixed record. *)
Lemma hm_solve_reshapes_only_y_witness :
  exists self result',
    HasegawaMimaFourier.__init__ 10 3 3 = inr self
    /\ HasegawaMimaFourier.solve
         (fun _ _ _ _ =>
            ret (<["y" := VComplex (mk_nd [9%nat; 1%nat]
                                      (replicate 9 (RtoC 0)))]>
                   (<["t" := VReal (vector [0])]> ∅)))
         self (0, 1) (mk_nd [3%nat; 3%nat] (replicate 9 (RtoC 0))) ∅
       = inr result'
    /\ result' !! "y"
       = Some (VComplex (mk_nd [3%nat; 3%nat; 1%nat] (replicate 9 (RtoC 0)))).
Proof.
  destruct (init_total 10 3 3) as (self & _ & _ & Hinit & _); try reflexivity;
    try lia.
  destruct (hm_solve_reshapes_only_y
              (fun _ _ _ _ =>
                 ret (<["y" := VComplex (mk_nd [9%nat; 1%nat]
                                           (replicate 9 (RtoC 0)))]>
                        (<["t" := VReal (vector [0])]> ∅)))
              10 3 3 self (0, 1) (mk_nd [3%nat; 3%nat] (replicate 9 (RtoC 0))) ∅
              _ (mk_nd [9%nat; 1%nat] (replicate 9 (RtoC 0))) (vector [0])
              1 [] Hinit eq_refl)
    as (result' & Hs & Hy & _); try reflexivity.
  exists self, result'. auto.
Defined.

(** X12.  The failures of [solve], in the order line 82 meets them: an
    error of the integrator is the error of the call; a record without
    [y] raises [KeyError]; a [y] that is not an array has no [reshape] and
    raises [AttributeError], whether the record has a [t] or not; with an
    array [y], a record without [t] raises [KeyError] and a [t] that is an
    integer has no length; a complex solution whose size is not [nx*ny*nt]
    raises [ValueError] from the reshape. *)
Theorem hm_solve_failures (solve_ivp : integrator C) (kmax : Q)
    (nx ny : Z) (self : HasegawaMimaFourier.t) (t_span : Q * Q)
    (phiinit : ndarray C) (kwargs : gmap string value) :
  HasegawaMimaFourier.__init__ kmax nx ny = inr self ->
  let run := solve_ivp (HasegawaMimaFourier.dfdt self) t_span
               (nd_data phiinit) kwargs in
  let out := HasegawaMimaFourier.solve solve_ivp self t_span phiinit kwargs in
  (forall err, run = inl err -> out = inl err)
  /\ (forall result, run = inr result -> result !! "y" = None ->
        out = inl (KeyError "y"))
  /\ (forall result y, run = inr result -> result !! "y" = Some y ->
        is_array y = false -> out = inl (AttributeError "reshape"))
  /\ (forall result y, run = inr result -> result !! "y" = Some y ->
        is_array y = true -> result !! "t" = None -> out = inl (KeyError "t"))
  /\ (forall result y z, run = inr result -> result !! "y" = Some y ->
        is_array y = true -> result !! "t" = Some (VInt z) ->
        exists msg, out = inl (TypeError msg))
  /\ (forall result ya ta nt st, run = inr result ->
        result !! "y" = Some (VComplex ya) -> result !! "t" = Some (VReal ta) ->
        nd_shape ta = nt :: st ->
        length (nd_data ya) <> (Z.to_nat nx * (Z.to_nat ny * nt))%nat ->
        out = inl (ValueError "cannot reshape array")).
Proof.
  intros Hinit run out.
  destruct (init_model kmax nx ny self Hinit)
    as (_ & _ & _ & _ & _ & _ & Hnx & Hny & _).
  subst run out. unfold HasegawaMimaFourier.solve.
  split; [|split; [|split; [|split; [|split]]]].
  - intros err ->. reflexivity.
  - intros result -> Hy. cbn [bind]. unfold dict_getitem. now rewrite Hy.
  - intros result y -> Hy Harr. cbn [bind]. unfold dict_getitem.
    rewrite Hy. cbn [bind ret].
    destruct y; try discriminate Harr; reflexivity.
  - intros result y -> Hy Harr Ht. cbn [bind]. unfold dict_getitem.
    rewrite Hy. cbn [bind ret].
    destruct y; try discriminate Harr;
      cbn [bind ret value_getattr_reshape]; now rewrite Ht.
  - intros result y z -> Hy Harr Ht. cbn [bind]. unfold dict_getitem.
    rewrite Hy. cbn [bind ret].
    destruct y; try discriminate Harr;
      cbn [bind ret value_getattr_reshape]; rewrite Ht; eexists; reflexivity.
  - intros result ya ta nt st -> Hy Ht Hts Hlen. cbn [bind].
    unfold dict_getitem. rewrite Hy. cbn [bind ret value_getattr_reshape].
    rewrite Ht. cbn [bind ret].
    unfold value_len, value_shape. cbn [bind ret]. rewrite Hts. cbn [bind ret].
    rewrite (model_shape kmax nx ny self Hinit), Hnx, Hny. cbn [fst snd].
    unfold value_reshape, nd_reshape.
    destruct (Nat.eqb_spec (length (nd_data ya))
                (fold_right Nat.mul 1%nat [Z.to_nat nx; Z.to_nat ny; nt]))
      as [He|]; [|reflexivity].
    exfalso. apply Hlen. rewrite He. simpl. lia.
Qed.

Lemma hm_solve_failures_witness :
  exists self,
    HasegawaMimaFourier.__init__ 10 3 3 = inr self
    /\ HasegawaMimaFourier.solve (fun _ _ _ _ => ret ∅) self (0, 1)
         (mk_nd [3%nat; 3%nat] (replicate 9 (RtoC 0))) ∅
       = inl (KeyError "y")
    /\ HasegawaMimaFourier.solve (fun _ _ _ _ => ret (<["y" := VInt 0]> ∅))
         self (0, 1) (mk_nd [3%nat; 3%nat] (replicate 9 (RtoC 0))) ∅
       = inl (AttributeError "reshape").
Proof.
  destruct (init_total 10 3 3) as (self & _ & _ & Hinit & _); try reflexivity;
    try lia.
  exists self. split; [exact Hinit|]. split.
  - destruct (hm_solve_failures (fun _ _ _ _ => ret ∅) 10 3 3 self (0, 1)
                (mk_nd [3%nat; 3%nat] (replicate 9 (RtoC 0))) ∅ Hinit)
      as (_ & Hy & _).
    apply (Hy ∅); reflexivity.
  - destruct (hm_solve_failures (fun _ _ _ _ => ret (<["y" := VInt 0]> ∅))
                10 3 3 self (0, 1)
                (mk_nd [3%nat; 3%nat] (replicate 9 (RtoC 0))) ∅ Hinit)
      as (_ & _ & Hattr & _).
    apply (Hattr (<["y" := VInt 0]> ∅) (VInt 0)); reflexivity.
Defined.

(** X13.  [solve] followed by [to_xarray]: when the integrator's record
    carries a one-dimensional [t] of [nt] points and a complex solution of
    [nx*ny*nt] values, [solve] returns a record whose [y] has one axis for
    each dimension name [to_xarray] gives it, of the length of the
    coordinate of that name: its shape is [(len kx, len ky, len t)].
    Whenever [to_xarray] returns on that record, [phi] is this array under
    the names [kx, ky, time], the coordinates are the model's grids and the
    integrator's time points, and the three integrator fields are those of
    the integrator's record. *)
Theorem hm_solve_then_to_xarray (solve_ivp : integrator C) (kmax : Q)
    (nx ny : Z) (self : HasegawaMimaFourier.t) (t_span : Q * Q)
    (phiinit : ndarray C) (kwargs result : gmap string value)
    (ya : ndarray C) (ta : ndarray Q) (nt : nat) :
  HasegawaMimaFourier.__init__ kmax nx ny = inr self ->
  solve_ivp (HasegawaMimaFourier.dfdt self) t_span (nd_data phiinit) kwargs
  = inr result ->
  result !! "y" = Some (VComplex ya) ->
  result !! "t" = Some (VReal ta) -> nd_shape ta = [nt] ->
  length (nd_data ya) = (Z.to_nat nx * (Z.to_nat ny * nt))%nat ->
  exists solved phi,
    HasegawaMimaFourier.solve solve_ivp self t_span phiinit kwargs = inr solved
    /\ solved !! "y" = Some (VComplex phi)
    /\ nd_data phi = nd_data ya
    /\ nd_shape phi = [length (HasegawaMimaFourier.kx self);
                       length (HasegawaMimaFourier.ky self); nt]
    /\ forall ds,
         fst (HasegawaMimaFourier.to_xarray self solved) = inr ds ->
         data_vars ds !! "phi"
         = Some (WithDims ["kx"; "ky"; "time"] (VComplex phi))
         /\ coords ds !! "kx"
            = Some (VReal (mk_nd [length (HasegawaMimaFourier.kx self)]
                             (HasegawaMimaFourier.kx self)))
         /\ coords ds !! "ky"
            = Some (VReal (mk_nd [length (HasegawaMimaFourier.ky self)]
                             (HasegawaMimaFourier.ky self)))
         /\ coords ds !! "time" = Some (VReal ta)
         /\ data_vars ds !! "status" = Bare <$> result !! "status"
         /\ data_vars ds !! "message" = Bare <$> result !! "message"
         /\ data_vars ds !! "success" = Bare <$> result !! "success".
Proof.
  intros Hinit Hrun Hy Ht Hts Hlen.
  destruct (init_model kmax nx ny self Hinit)
    as (_ & _ & _ & _ & _ & _ & Hnx & Hny & _).
  eexists. eexists.
  split; [exact (hm_solve_value solve_ivp kmax nx ny self t_span phiinit kwargs
                   result ya ta nt [] Hinit Hrun Hy Ht Hts Hlen)|].
  split; [apply lookup_insert_eq|].
  split; [reflexivity|].
  split; [cbn [nd_shape]; now rewrite Hnx, Hny|].
  intros ds Hds.
  apply hm_to_xarray_inr in Hds
    as (y & st & m & s & ts & Hy' & Hst & Hm & Hs & Ht' & ->).
  rewrite lookup_insert_eq in Hy'. injection Hy' as <-.
  rewrite lookup_insert_ne in Hst, Hm, Hs, Ht' by discriminate.
  rewrite Ht in Ht'. injection Ht' as <-.
  rewrite Hst, Hm, Hs. cbn [data_vars coords].
  repeat split; by simplify_map_eq.
Qed.

Lemma hm_solve_then_to_xarray_witness :
  exists self solved phi,
    HasegawaMimaFourier.__init__ 10 3 3 = inr self
    /\ HasegawaMimaFourier.solve
         (fun _ _ _ _ =>
            ret (<["y" := VComplex (mk_nd [9%nat; 1%nat] (replicate 9 (RtoC 0)))]>
                   (<["t" := VReal (vector [0])]>
                      (<["status" := VInt 0]>
                         (<["message" := VStr "done"]>
                            (<["success" := VBool true]> ∅))))))
         self (0, 1) (mk_nd [3%nat; 3%nat] (replicate 9 (RtoC 0))) ∅
       = inr solved
    /\ solved !! "y" = Some (VComplex phi)
    /\ nd_shape phi = [length (HasegawaMimaFourier.kx self);
                       length (HasegawaMimaFourier.ky self); 1%nat].
Proof.
  destruct (init_total 10 3 3) as (self & _ & _ & Hinit & _); try reflexivity;
    try lia.
  destruct (hm_solve_then_to_xarray
              (fun _ _ _ _ =>
                 ret (<["y" := VComplex (mk_nd [9%nat; 1%nat]
                                           (replicate 9 (RtoC 0)))]>
                        (<["t" := VReal (vector [0])]>
                           (<["status" := VInt 0]>
                              (<["message" := VStr "done"]>
                                 (<["success" := VBool true]> ∅))))))
              10 3 3 self (0, 1) (mk_nd [3%nat; 3%nat] (replicate 9 (RtoC 0))) ∅
              _ (mk_nd [9%nat; 1%nat] (replicate 9 (RtoC 0))) (vector [0])
              1 Hinit eq_refl)
    as (solved & phi & Hs & Hphi & _ & Hshape & _); try reflexivity.
  exists self, solved, phi. auto.
Defined.

(** ** Export: the keys [to_xarray] needs *)

Ltac keys_solve :=
  repeat split; intros;
  repeat match goal with
         | H : is_Some None |- _ => destruct H as [? H]; discriminate H
         | H : _ /\ _ |- _ => destruct H
         | H : exists _, _ |- _ => destruct H
         | H : inl _ = inr _ |- _ => discriminate H
         | H : Some _ = None |- _ => discriminate H
         end;
  eauto.

(** X14.  [to_xarray] of the spectral model reads the entries [y],
    [status], [message], [success] and [t] of the record, in this order,
    before it builds the dataset: it raises [KeyError] for the first of
    them that the record lacks, and so returns a dataset only for a record
    that has all five. *)
Theorem hm_to_xarray_keys (self : HasegawaMimaFourier.t)
    (result : gmap string value) :
  ((exists ds, fst (HasegawaMimaFourier.to_xarray self result) = inr ds)
   -> is_Some (result !! "y") /\ is_Some (result !! "status")
      /\ is_Some (result !! "message") /\ is_Some (result !! "success")
      /\ is_Some (result !! "t"))
  /\ (result !! "y" = None ->
      fst (HasegawaMimaFourier.to_xarray self result) = inl (KeyError "y"))
  /\ (is_Some (result !! "y") -> result !! "status" = None ->
      fst (HasegawaMimaFourier.to_xarray self result) = inl (KeyError "status"))
  /\ (is_Some (result !! "y") -> is_Some (result !! "status") ->
      result !! "message" = None ->
      fst (HasegawaMimaFourier.to_xarray self result) = inl (KeyError "message"))
  /\ (is_Some (result !! "y") -> is_Some (result !! "status") ->
      is_Some (result !! "message") -> result !! "success" = None ->
      fst (HasegawaMimaFourier.to_xarray self result) = inl (KeyError "success"))
  /\ (is_Some (result !! "y") -> is_Some (result !! "status") ->
      is_Some (result !! "message") -> is_Some (result !! "success") ->
      result !! "t" = None ->
      fst (HasegawaMimaFourier.to_xarray self result) = inl (KeyError "t")).
Proof.
  unfold HasegawaMimaFourier.to_xarray, obj_bind, obj_getitem, dict_getitem,
    obj_ret.
  destruct (result !! "y") as [y|]; cbn; [|keys_solve].
  destruct (result !! "status") as [st|]; cbn; [|keys_solve].
  destruct (result !! "message") as [m|]; cbn; [|keys_solve].
  destruct (result !! "success") as [s|]; cbn; [|keys_solve].
  destruct (result !! "t") as [ts|]; cbn; keys_solve.
Qed.

Lemma hm_to_xarray_keys_witness :
  fst (HasegawaMimaFourier.to_xarray sample_hm ∅) = inl (KeyError "y")
  /\ fst (HasegawaMimaFourier.to_xarray sample_hm (<["y" := VInt 0]> ∅))
     = inl (KeyError "status").
Proof.
  destruct (hm_to_xarray_keys sample_hm ∅) as (_ & Hy & _).
  destruct (hm_to_xarray_keys sample_hm (<["y" := VInt 0]> ∅))
    as (_ & _ & Hst & _).
  split; [apply Hy; reflexivity|].
  apply Hst; [eexists|]; reflexivity.
Defined.

(** ** The phase-space model: the constructor *)

Lemma sum_diff_telescopes (a : Q) (l : list Q) :
  np.sum (np.diff (a :: l)) == nth (length l) (a :: l) 0 - a.
Proof.
  revert a. induction l as [|b l IH]; intros a.
  - unfold np.diff, np.sum. simpl. ring.
  - change (np.diff (a :: b :: l)) with ((b - a) :: np.diff (b :: l)).
    rewrite sum_cons, IH. simpl. ring.
Qed.

Lemma linspace_ends (start stop : Q) (num : Z) (l : list Q) :
  (2 <= num)%Z -> np.linspace start stop num = inr l ->
  exists first rest,
    l = first :: rest /\ length rest = (Z.to_nat num - 1)%nat
    /\ first == start /\ nth (length rest) l 0 = stop.
Proof.
  intros Hnum. unfold np.linspace.
  destruct (Z.ltb_spec num 0); [lia|].
  destruct (Z.to_nat num) as [|[|m]] eqn:Hn; try lia.
  intros [= <-]. cbn [seq map app].
  eexists. eexists. split; [reflexivity|].
  rewrite length_app, length_map, length_seq. cbn [length].
  split; [lia|]. split.
  - change (inject_Z (Z.of_nat 0)) with 0. ring.
  - replace (m + 1)%nat with (S m) by lia. cbn [nth].
    rewrite app_nth2 by (rewrite length_map, length_seq; lia).
    now rewrite length_map, length_seq, Nat.sub_diag.
Qed.

Lemma mean_diff_linspace (start stop : Q) (num : Z) (l : list Q) :
  (2 <= num)%Z -> np.linspace start stop num = inr l ->
  np.mean (np.diff l) == (stop - start) / inject_Z (num - 1).
Proof.
  intros Hnum Hl.
  destruct (linspace_ends start stop num l Hnum Hl)
    as (first & rest & -> & Hlen & Hfirst & Hlast).
  assert (Hd : length (np.diff (first :: rest)) = length rest).
  { unfold np.diff. rewrite length_zip_with. simpl. lia. }
  unfold np.mean. rewrite Hd, Hlen, sum_diff_telescopes, Hlast.
  replace (Z.of_nat (Z.to_nat num - 1)) with (num - 1)%Z by lia.
  now rewrite Hfirst.
Qed.

(** X15.  For at least two points per axis the constructor returns a model
    whose [x] and [v] grids have [nx] and [nv] points running from [-xmax]
    to [xmax] and from [-vmax] to [vmax], and whose spacings are
    [dx = 2*xmax/(nx-1)] and [dv = 2*vmax/(nv-1)]; [nu] and [ne] are stored
    as given. *)
Theorem hc_init_grid_spacing (sqrt : Q -> Q) (xmax vmax : Q) (nx nv : Z)
    (nu ne : Q) :
  (2 <= nx)%Z -> (2 <= nv)%Z ->
  exists self,
    HoleClump.__init__ sqrt xmax vmax nx nv nu ne = inr self
    /\ Z.of_nat (HoleClump.nx self) = nx /\ Z.of_nat (HoleClump.nv self) = nv
    /\ length (HoleClump.x self) = HoleClump.nx self
    /\ length (HoleClump.v self) = HoleClump.nv self
    /\ HoleClump.dx self == 2 * xmax / inject_Z (nx - 1)
    /\ HoleClump.dv self == 2 * vmax / inject_Z (nv - 1)
    /\ nth 0 (HoleClump.x self) 0 == - xmax
    /\ nth (HoleClump.nx self - 1) (HoleClump.x self) 0 = xmax
    /\ nth 0 (HoleClump.v self) 0 == - vmax
    /\ nth (HoleClump.nv self - 1) (HoleClump.v self) 0 = vmax
    /\ HoleClump.nu self = nu /\ HoleClump.ne self = ne.
Proof.
  intros Hnx Hnv.
  destruct (linspace_spec (- xmax) xmax nx ltac:(lia)) as (xs & Hxs & Hlx & _).
  destruct (linspace_spec (- vmax) vmax nv ltac:(lia)) as (vs & Hvs & Hlv & _).
  pose proof (mean_diff_linspace _ _ _ _ Hnx Hxs) as Hdx.
  pose proof (mean_diff_linspace _ _ _ _ Hnv Hvs) as Hdv.
  destruct (linspace_ends _ _ _ _ Hnx Hxs) as (x0 & xr & Hxe & Hxl & Hx0 & Hx1).
  destruct (linspace_ends _ _ _ _ Hnv Hvs) as (v0 & vr & Hve & Hvl & Hv0 & Hv1).
  eexists. split.
  { unfold HoleClump.__init__. rewrite Hxs, Hvs. reflexivity. }
  cbn [HoleClump.nx HoleClump.nv HoleClump.x HoleClump.v HoleClump.dx
         HoleClump.dv HoleClump.nu HoleClump.ne].
  rewrite Hdx, Hdv, Hlx, Hlv. rewrite <- Hxl, <- Hvl, Hx1, Hv1.
  rewrite Hxe, Hve. cbn [nth]. rewrite Hx0, Hv0.
  repeat split; try lia; try reflexivity; unfold Qdiv; ring.
Qed.

Lemma hc_init_grid_spacing_witness :
  exists self,
    HoleClump.__init__ (fun q => q) 10 11 10 11 1 1 = inr self
    /\ HoleClump.dx self == 20 / 9 /\ HoleClump.dv self == 22 / 10.
Proof.
  destruct (hc_init_grid_spacing (fun q => q) 10 11 10 11 1 1)
    as (self & Hinit & _ & _ & _ & _ & Hdx & Hdv & _); try lia.
  exists self. split; [exact Hinit|]. split; [exact Hdx | exact Hdv].
Defined.

(** X16.  The constructor returns exactly when both point counts are
    non-negative; a negative count is rejected by [np.linspace] with
    [ValueError]. *)
Theorem hc_init_counts (sqrt : Q -> Q) (xmax vmax : Q) (nx nv : Z) (nu ne : Q) :
  ((0 <= nx)%Z /\ (0 <= nv)%Z <->
   exists self, HoleClump.__init__ sqrt xmax vmax nx nv nu ne = inr self)
  /\ ((nx < 0)%Z \/ (nv < 0)%Z ->
      HoleClump.__init__ sqrt xmax vmax nx nv nu ne
      = inl (ValueError "Number of samples must be non-negative")).
Proof.
  assert (Hneg : (nx < 0)%Z \/ (nv < 0)%Z ->
                 HoleClump.__init__ sqrt xmax vmax nx nv nu ne
                 = inl (ValueError "Number of samples must be non-negative")).
  { intros Hn. unfold HoleClump.__init__.
    destruct (Z.ltb_spec nx 0) as [Hx|Hx].
    - unfold np.linspace at 1. destruct (Z.ltb_spec nx 0); [reflexivity | lia].
    - destruct (linspace_spec (- xmax) xmax nx Hx) as (xs & -> & _). cbn [bind].
      unfold np.linspace. destruct (Z.ltb_spec nv 0); [reflexivity | lia]. }
  split; [|exact Hneg]. split.
  - intros [Hx Hv].
    destruct (linspace_spec (- xmax) xmax nx Hx) as (xs & Hxs & _).
    destruct (linspace_spec (- vmax) vmax nv Hv) as (vs & Hvs & _).
    unfold HoleClump.__init__. rewrite Hxs, Hvs. cbn [bind]. eauto.
  - intros [self Hself].
    destruct (Z.ltb_spec nx 0); [rewrite Hneg in Hself by lia; discriminate|].
    destruct (Z.ltb_spec nv 0); [rewrite Hneg in Hself by lia; discriminate|].
    lia.
Qed.

Lemma hc_init_counts_witness :
  HoleClump.__init__ (fun q => q) 10 11 (-1) 11 1 1
  = inl (ValueError "Number of samples must be non-negative").
Proof.
  apply (hc_init_counts (fun q => q) 10 11 (-1) 11 1 1). lia.
Defined.

(** ** The phase-space model: decoding a state vector *)

Lemma rows_shape {A : Type} (n m : nat) (l : list A) :
  length l = (n * m)%nat ->
  length (np.rows n m l) = n
  /\ Forall (fun r => length r = m) (np.rows n m l)
  /\ concat (np.rows n m l) = l.
Proof.
  revert l. induction n as [|n IH]; intros l Hl; simpl.
  - destruct l; [auto | discriminate].
  - destruct (IH (skipn m l)) as (H1 & H2 & H3).
    { rewrite length_drop. lia. }
    split; [now rewrite H1|]. split.
    + constructor; [rewrite length_take; lia | exact H2].
    + rewrite H3. apply take_drop.
Qed.

Lemma getitem_short {A : Type} (a : list A) (i : nat) :
  (length a <= i)%nat -> np.getitem a (Z.of_nat i) = inl IndexError.
Proof.
  intros Hi. unfold np.getitem, np.norm_index.
  destruct (Z.ltb_spec (Z.of_nat i) 0); [lia|].
  destruct (Z.leb_spec 0 (Z.of_nat i)); [|lia].
  destruct (Z.ltb_spec (Z.of_nat i) (Z.of_nat (length a))); [lia|].
  reflexivity.
Qed.

(** The decoding of any vector with at least [nx*nv + 2] entries. *)
Lemma encode_long {A : Type} (self : HoleClump.t) (f : list A) (V E : A) :
  f !! (HoleClump.nx self * HoleClump.nv self)%nat = Some V ->
  f !! (HoleClump.nx self * HoleClump.nv self + 1)%nat = Some E ->
  HoleClump._encode self f
  = inr (np.rows (HoleClump.nx self) (HoleClump.nv self)
           (firstn (HoleClump.nx self * HoleClump.nv self) f), V, E).
Proof.
  intros HV HE. unfold HoleClump._encode, np.reshape2.
  pose proof (lookup_lt_Some _ _ _ HV) as Hlen.
  rewrite length_take, Nat.min_l, Nat.eqb_refl by lia. cbn [bind ret].
  rewrite (getitem_nat _ _ _ HV). cbn [bind].
  rewrite (getitem_nat _ _ _ HE). reflexivity.
Qed.

(** X17.  [_encode] accepts exactly the vectors with at least [nx*nv + 2]
    entries, and reads only the first [nx*nv + 2] of them: a vector with
    fewer than [nx*nv] entries fails in the reshape ([ValueError]), one with
    [nx*nv] or [nx*nv + 1] entries fails at a scalar slot ([IndexError]),
    and a longer vector decodes as its first [nx*nv + 2] entries do. *)
Theorem encode_length_conditions {A : Type} (self : HoleClump.t) (f : list A) :
  let n0 := (HoleClump.nx self * HoleClump.nv self)%nat in
  ((length f < n0)%nat ->
   HoleClump._encode self f = inl (ValueError "cannot reshape array"))
  /\ ((n0 <= length f < n0 + 2)%nat -> HoleClump._encode self f = inl IndexError)
  /\ ((n0 + 2 <= length f)%nat ->
      (exists F V E,
         HoleClump._encode self f = inr (F, V, E)
         /\ length F = HoleClump.nx self
         /\ Forall (fun r => length r = HoleClump.nv self) F
         /\ concat F = firstn n0 f
         /\ f !! n0 = Some V /\ f !! (n0 + 1)%nat = Some E)
      /\ HoleClump._encode self f = HoleClump._encode self (firstn (n0 + 2) f)).
Proof.
  intros n0. split; [|split].
  - intros Hlen. unfold HoleClump._encode, np.reshape2. fold n0.
    rewrite length_take, Nat.min_r by lia.
    destruct (Nat.eqb_spec (length f) n0); [lia | reflexivity].
  - intros Hlen. unfold HoleClump._encode, np.reshape2. fold n0.
    rewrite length_take, Nat.min_l, Nat.eqb_refl by lia. cbn [bind ret].
    destruct (decide (length f = n0)) as [He|Hne].
    + now rewrite getitem_short by lia.
    + destruct (lookup_lt_is_Some_2 f n0) as [V HV]; [lia|].
      rewrite (getitem_nat _ _ _ HV). cbn [bind].
      now rewrite getitem_short by lia.
  - intros Hlen.
    destruct (lookup_lt_is_Some_2 f n0) as [V HV]; [lia|].
    destruct (lookup_lt_is_Some_2 f (n0 + 1)) as [E HE]; [lia|].
    destruct (rows_shape (HoleClump.nx self) (HoleClump.nv self) (firstn n0 f))
      as (H1 & H2 & H3).
    { rewrite length_take. lia. }
    split.
    + exists (np.rows (HoleClump.nx self) (HoleClump.nv self) (firstn n0 f)), V, E.
      split; [now apply encode_long|]. auto.
    + rewrite (encode_long self f V E HV HE).
      rewrite (encode_long self (firstn (n0 + 2) f) V E)
        by (rewrite lookup_take_lt by lia; assumption).
      fold n0. now rewrite take_take, Nat.min_l by lia.
Qed.

Lemma encode_length_conditions_witness :
  HoleClump._encode model_2x3 [1; 2; 3] = inl (ValueError "cannot reshape array")
  /\ HoleClump._encode model_2x3 [1; 2; 3; 4; 5; 6; 7] = inl IndexError
  /\ HoleClump._encode model_2x3 [1; 2; 3; 4; 5; 6; 7; 8; 9]
     = HoleClump._encode model_2x3 [1; 2; 3; 4; 5; 6; 7; 8].
Proof.
  pose proof (encode_length_conditions model_2x3 [1; 2; 3]) as H1.
  pose proof (encode_length_conditions model_2x3 [1; 2; 3; 4; 5; 6; 7]) as H2.
  pose proof (encode_length_conditions model_2x3 [1; 2; 3; 4; 5; 6; 7; 8; 9]) as H3.
  cbv zeta in H1, H2, H3.
  destruct H1 as (H1 & _). destruct H2 as (_ & H2 & _). destruct H3 as (_ & _ & H3).
  split; [|split].
  - apply H1. simpl. lia.
  - apply H2. simpl. lia.
  - apply H3. simpl. lia.
Defined.

(** X18.  Decoding then packing is the identity on state vectors: if
    [_encode] returns [(F, V, E)] on a vector of exactly [nx*nv + 2]
    entries, packing [(F, V, E)] gives that vector back. *)
Theorem encode_then_pack {A : Type} (self : HoleClump.t) (f : list A)
    (F : list (list A)) (V E : A) :
  length f = (HoleClump.nx self * HoleClump.nv self + 2)%nat ->
  HoleClump._encode self f = inr (F, V, E) ->
  HoleClump.pack (matrix (HoleClump.nv self) F) V E = f.
Proof.
  intros Hlen Henc.
  set (n0 := (HoleClump.nx self * HoleClump.nv self)%nat) in *.
  destruct (lookup_lt_is_Some_2 f n0) as [V' HV]; [lia|].
  destruct (lookup_lt_is_Some_2 f (n0 + 1)) as [E' HE]; [lia|].
  rewrite (encode_long self f V' E' HV HE) in Henc.
  injection Henc as <- <- <-.
  destruct (rows_shape (HoleClump.nx self) (HoleClump.nv self) (firstn n0 f))
    as (_ & _ & H3).
  { rewrite length_take. lia. }
  unfold HoleClump.pack, matrix. cbn [nd_data]. fold n0. rewrite H3.
  transitivity (firstn n0 f ++ skipn n0 f); [|apply take_drop]. f_equal.
  apply list_eq. intros i. rewrite lookup_drop.
  destruct i as [|[|i]]; cbn.
  - now rewrite Nat.add_0_r, HV.
  - now rewrite HE.
  - symmetry. apply lookup_ge_None. lia.
Qed.

Lemma encode_then_pack_witness :
  HoleClump.pack (matrix 3 [[1; 2; 3]; [4; 5; 6]]) 7 8 = [1; 2; 3; 4; 5; 6; 7; 8].
Proof.
  apply (encode_then_pack model_2x3 [1; 2; 3; 4; 5; 6; 7; 8]
           [[1; 2; 3]; [4; 5; 6]] 7 8); reflexivity.
Defined.

(** ** The phase-space model: edge cases of the derivative *)

(** X19.  On a model without spatial points the derivative raises: the
    state decodes, and the periodic padding of the empty spatial axis is
    refused with [ValueError]. *)
Theorem hc_dfdt_empty_spatial_axis (self : HoleClump.t) (coef t_ : Q)
    (f : list Q) :
  HoleClump.nx self = 0%nat -> (2 <= length f)%nat ->
  HoleClump.dfdt self coef t_ f = inl (ValueError "can't extend empty axis 0").
Proof.
  intros Hnx Hlen.
  destruct (lookup_lt_is_Some_2 f 0) as [V HV]; [lia|].
  destruct (lookup_lt_is_Some_2 f 1) as [E HE]; [lia|].
  unfold HoleClump.dfdt.
  rewrite (encode_long self f V E) by (rewrite Hnx; assumption).
  rewrite Hnx. reflexivity.
Qed.

Lemma hc_dfdt_empty_spatial_axis_witness :
  HoleClump.dfdt (HoleClump.mk 0 3 [] 0 [-(1); 0; 1] 1 HoleClump.eps0 1 1 1)
    1 0 [7; 8]
  = inl (ValueError "can't extend empty axis 0").
Proof.
  apply hc_dfdt_empty_spatial_axis; [reflexivity | simpl; lia].
Defined.

Lemma nth_replicate_row {A : Type} (n k : nat) (r : list A) :
  (k < n)%nat -> nth k (replicate n r) [] = r.
Proof. intros Hk. apply nth_lookup_Some. now apply lookup_replicate_2. Qed.

(** X20.  A distribution that does not depend on [x] has no free-streaming
    term.  On a model whose two spacings are numbers other than zero (a
    grid of fewer than two points, or of zero extent, has none), when every
    row of [F] is the same profile [r], the derivative at [(ix, iv)] is
    [E * (r[iv+1] - r[iv-1]) / (2*dv)], the same for every [ix], with [r]
    read as zero outside the velocity range. *)
Theorem hc_dfdt_uniform_in_x (self : HoleClump.t) (coef t_ : Q)
    (r : list Q) (V E : Q) (ix iv : nat) :
  ~ HoleClump.dx self == 0 -> ~ HoleClump.dv self == 0 ->
  length r = HoleClump.nv self ->
  length (HoleClump.v self) = HoleClump.nv self ->
  (ix < HoleClump.nx self)%nat -> (iv < HoleClump.nv self)%nat ->
  exists out z,
    HoleClump.dfdt self coef t_
      (HoleClump.pack (matrix (HoleClump.nv self)
                         (replicate (HoleClump.nx self) r)) V E) = inr out
    /\ out !! (ix * HoleClump.nv self + iv)%nat = Some z
    /\ z == E * ((col r (Z.of_nat iv + 1) - col r (Z.of_nat iv - 1))
                 / (2 * HoleClump.dv self)).
Proof.
  intros _ _ Hr Hv Hix Hiv.
  set (F := replicate (HoleClump.nx self) r).
  assert (HnF : length F = HoleClump.nx self) by apply length_replicate.
  assert (HF : Forall (fun r => length r = HoleClump.nv self) F)
    by now apply Forall_replicate.
  destruct (dfdt_pack self coef t_ F V E HnF HF) as (DF & Hout & HnD & Hrow);
    [lia|].
  pose proof (dfdt_rows_uniform self E F DF HnF HF Hv HnD Hrow) as HDF.
  specialize (Hrow ix Hix).
  rewrite HnF in Hrow. unfold F in Hrow.
  rewrite !nth_replicate_row in Hrow by (apply wrap_index_lt; lia).
  eexists. eexists. split; [exact Hout|]. split.
  - apply lookup_app_l_Some.
    apply (concat_lookup_uniform _ DF ix iv _ _ HDF Hrow).
    now apply dfdt_row_lookup.
  - unfold Qdiv. ring.
Qed.

Lemma hc_dfdt_uniform_in_x_witness :
  exists out z,
    HoleClump.dfdt model_2x3 1 0
      (HoleClump.pack (matrix 3 (replicate 2 [1; 2; 3])) 7 8) = inr out
    /\ out !! 4%nat = Some z
    /\ z == 8 * ((col [1; 2; 3] 2 - col [1; 2; 3] 0) / (2 * 1)).
Proof.
  apply (hc_dfdt_uniform_in_x model_2x3 1 0 [1; 2; 3] 7 8 1 1);
    try reflexivity; try (intros Hc; discriminate Hc); simpl; lia.
Defined.

(** X21.  The derivative reads only the first [nx*nv + 2] entries of its
    argument and always returns [nx*nv + 2] entries: on a model with at
    least one spatial point, a longer vector gives the derivative of its
    prefix. *)
Theorem hc_dfdt_reads_prefix (self : HoleClump.t) (coef t_ : Q) (f : list Q) :
  let n0 := (HoleClump.nx self * HoleClump.nv self)%nat in
  length (HoleClump.v self) = HoleClump.nv self ->
  (0 < HoleClump.nx self)%nat -> (n0 + 2 <= length f)%nat ->
  exists out,
    HoleClump.dfdt self coef t_ f = inr out
    /\ length out = (n0 + 2)%nat
    /\ HoleClump.dfdt self coef t_ (firstn (n0 + 2) f) = inr out.
Proof.
  intros n0 Hv Hpos Hlen.
  destruct (lookup_lt_is_Some_2 f n0) as [V HV]; [lia|].
  destruct (lookup_lt_is_Some_2 f (n0 + 1)) as [E HE]; [lia|].
  destruct (rows_shape (HoleClump.nx self) (HoleClump.nv self) (firstn n0 f))
    as (H1 & H2 & H3).
  { rewrite length_take. lia. }
  set (F := np.rows (HoleClump.nx self) (HoleClump.nv self) (firstn n0 f)) in *.
  destruct (dfdt_pack self coef t_ F V E H1 H2 Hpos) as (DF & Hout & HnD & Hrow).
  pose proof (dfdt_rows_uniform self E F DF H1 H2 Hv HnD Hrow) as HDF.
  assert (Henc : HoleClump._encode self
                   (HoleClump.pack (matrix (HoleClump.nv self) F) V E)
                 = inr (F, V, E)) by now apply encode_pack.
  assert (Hsame : forall g, HoleClump._encode self g = inr (F, V, E) ->
            HoleClump.dfdt self coef t_ g
            = HoleClump.dfdt self coef t_
                (HoleClump.pack (matrix (HoleClump.nv self) F) V E)).
  { intros g Hg. unfold HoleClump.dfdt. now rewrite Hg, Henc. }
  eexists. split; [|split].
  - rewrite (Hsame f) by now apply encode_long. exact Hout.
  - rewrite !length_app, (concat_length_uniform _ DF HDF), HnD. simpl. lia.
  - rewrite (Hsame (firstn (n0 + 2) f)); [exact Hout|].
    rewrite (encode_long self (firstn (n0 + 2) f) V E)
      by (rewrite lookup_take_lt by lia; assumption).
    fold n0. now rewrite take_take, Nat.min_l by lia.
Qed.

Lemma hc_dfdt_reads_prefix_witness :
  exists out,
    HoleClump.dfdt model_2x3 1 0 [1; 2; 3; 4; 5; 6; 7; 8; 9; 10] = inr out
    /\ length out = 8%nat
    /\ HoleClump.dfdt model_2x3 1 0 [1; 2; 3; 4; 5; 6; 7; 8] = inr out.
Proof.
  apply (hc_dfdt_reads_prefix model_2x3 1 0 [1; 2; 3; 4; 5; 6; 7; 8; 9; 10]);
    [reflexivity | simpl; lia | simpl; lia].
Defined.

(** ** The phase-space model: [solve] and the export *)

Lemma encode_time_ok {A : Type} (self : HoleClump.t) (ya : ndarray A) (nt : nat) :
  let n0 := (HoleClump.nx self * HoleClump.nv self)%nat in
  (0 < n0)%nat -> nd_shape ya = [(n0 + 2)%nat; nt] ->
  HoleClump._encode_time self ya
  = inr (mk_nd [HoleClump.nx self; HoleClump.nv self; nt]
           (firstn (n0 * nt) (nd_data ya)),
         mk_nd [nt] (firstn nt (skipn (n0 * nt) (nd_data ya))),
         mk_nd [nt] (firstn nt (skipn ((n0 + 1) * nt) (nd_data ya)))).
Proof.
  intros n0 Hpos Hshape. unfold HoleClump._encode_time. rewrite Hshape.
  cbn [fold_right]. rewrite !Nat.mul_1_r.
  fold n0. rewrite Nat.min_l by lia.
  destruct (Nat.eqb_spec n0 0); [lia|].
  rewrite (Nat.mul_comm n0 nt), Nat.Div0.mod_mul, Nat.div_mul by lia.
  cbn [Nat.eqb negb orb].
  destruct (Nat.ltb_spec n0 (n0 + 2)); [|lia].
  destruct (Nat.ltb_spec (n0 + 1) (n0 + 2)); [|lia].
  cbn [negb]. rewrite !(Nat.mul_comm nt). reflexivity.
Qed.

Lemma hc_solve_value (solve_ivp : integrator Q) (self : HoleClump.t)
    (t_span : Q * Q) (finit : ndarray Q) (vinit einit : Q)
    (kwargs result : gmap string value) (ya : ndarray Q) (nt : nat) :
  let n0 := (HoleClump.nx self * HoleClump.nv self)%nat in
  nd_shape finit = [HoleClump.nx self; HoleClump.nv self] ->
  solve_ivp (HoleClump.dfdt self HoleClump.coef) t_span
    (HoleClump.pack finit vinit einit) kwargs = inr result ->
  result !! "y" = Some (VReal ya) ->
  (0 < n0)%nat -> nd_shape ya = [(n0 + 2)%nat; nt] ->
  HoleClump.solve solve_ivp self t_span finit vinit einit kwargs
  = inr (<["E" := VReal (mk_nd [nt] (firstn nt (skipn ((n0 + 1) * nt)
                                                   (nd_data ya))))]>
           (<["V" := VReal (mk_nd [nt] (firstn nt (skipn (n0 * nt)
                                                     (nd_data ya))))]>
              (<["f" := VReal (mk_nd [HoleClump.nx self; HoleClump.nv self; nt]
                                 (firstn (n0 * nt) (nd_data ya)))]> result))).
Proof.
  intros n0 Hshape Hrun Hy Hpos Hys.
  unfold HoleClump.solve, HoleClump.shape_eqb.
  rewrite bool_decide_eq_true_2 by exact Hshape. cbn [py_assert bind ret].
  rewrite Hrun. cbn [bind]. unfold dict_getitem. rewrite Hy. cbn [bind ret].
  unfold HoleClump._encode_value.
  rewrite (encode_time_ok self ya nt Hpos Hys). reflexivity.
Qed.

(** X22.  When [finit] has the shape [(nx, nv)] on a non-empty grid and
    the integrator returns a record whose solution has the shape
    [(nx*nv + 2, nt)], [solve] returns that record extended by [f] of shape
    [(nx, nv, nt)], holding the first [nx*nv] rows of the solution, and by
    [V] and [E], the two last rows; every other entry of the record,
    [y] included, is as the integrator left it. *)
Theorem hc_solve_decodes_trajectory (solve_ivp : integrator Q)
    (self : HoleClump.t) (t_span : Q * Q) (finit : ndarray Q) (vinit einit : Q)
    (kwargs result : gmap string value) (ya : ndarray Q) (nt : nat) :
  let n0 := (HoleClump.nx self * HoleClump.nv self)%nat in
  nd_shape finit = [HoleClump.nx self; HoleClump.nv self] ->
  solve_ivp (HoleClump.dfdt self HoleClump.coef) t_span
    (HoleClump.pack finit vinit einit) kwargs = inr result ->
  result !! "y" = Some (VReal ya) ->
  (0 < n0)%nat -> nd_shape ya = [(n0 + 2)%nat; nt] ->
  exists solved,
    HoleClump.solve solve_ivp self t_span finit vinit einit kwargs = inr solved
    /\ solved !! "f"
       = Some (VReal (mk_nd [HoleClump.nx self; HoleClump.nv self; nt]
                        (firstn (n0 * nt) (nd_data ya))))
    /\ solved !! "V"
       = Some (VReal (mk_nd [nt] (firstn nt (skipn (n0 * nt) (nd_data ya)))))
    /\ solved !! "E"
       = Some (VReal (mk_nd [nt] (firstn nt (skipn ((n0 + 1) * nt)
                                               (nd_data ya)))))
    /\ forall key, key <> "f" -> key <> "V" -> key <> "E" ->
         solved !! key = result !! key.
Proof.
  intros n0 Hshape Hrun Hy Hpos Hys.
  eexists. split;
    [exact (hc_solve_value solve_ivp self t_span finit vinit einit kwargs result
              ya nt Hshape Hrun Hy Hpos Hys)|].
  split; [|split; [|split]].
  - now rewrite !lookup_insert_ne, lookup_insert_eq by discriminate.
  - now rewrite lookup_insert_ne, lookup_insert_eq by discriminate.
  - now rewrite lookup_insert_eq.
  - intros key Hf HV HE. now rewrite !lookup_insert_ne by auto.
Qed.

Lemma hc_solve_decodes_trajectory_witness :
  exists solved,
    HoleClump.solve
      (fun _ _ y0 _ => ret (<["y" := VReal (mk_nd [8%nat; 1%nat] y0)]> ∅))
      model_2x3 (0, 1) (matrix 3 [[1; 2; 3]; [4; 5; 6]]) 7 8 ∅ = inr solved
    /\ solved !! "V" = Some (VReal (mk_nd [1%nat] [7]))
    /\ solved !! "E" = Some (VReal (mk_nd [1%nat] [8])).
Proof.
  destruct (hc_solve_decodes_trajectory
              (fun _ _ y0 _ => ret (<["y" := VReal (mk_nd [8%nat; 1%nat] y0)]> ∅))
              model_2x3 (0, 1) (matrix 3 [[1; 2; 3]; [4; 5; 6]]) 7 8 ∅
              _ (mk_nd [8%nat; 1%nat] [1; 2; 3; 4; 5; 6; 7; 8]) 1
              eq_refl eq_refl)
    as (solved & Hs & _ & HV & HE & _);
    [reflexivity | simpl; lia | reflexivity |].
  exists solved. auto.
Defined.

(** X23.  The failures of [solve] after the shape assertion, in the order
    lines 65-68 meet them: an error of the integrator is the error of the
    call; a record without [y] raises [KeyError]; a [y] that is not an
    array cannot be indexed and raises [TypeError]; an array of fewer than
    two axes raises [IndexError] at the two-item index [[:n, :]]; on an
    empty grid ([nx*nv = 0]) an array of two or more axes fails in the
    reshape to [(nx, nv, -1)]; on a non-empty grid an array of exactly
    [nx*nv] or [nx*nv + 1] rows has no row for [V] or for [E] and raises
    [IndexError]. *)
Theorem hc_solve_failures (solve_ivp : integrator Q) (self : HoleClump.t)
    (t_span : Q * Q) (finit : ndarray Q) (vinit einit : Q)
    (kwargs : gmap string value) :
  nd_shape finit = [HoleClump.nx self; HoleClump.nv self] ->
  let n0 := (HoleClump.nx self * HoleClump.nv self)%nat in
  let run := solve_ivp (HoleClump.dfdt self HoleClump.coef) t_span
               (HoleClump.pack finit vinit einit) kwargs in
  let out := HoleClump.solve solve_ivp self t_span finit vinit einit kwargs in
  (forall err, run = inl err -> out = inl err)
  /\ (forall result, run = inr result -> result !! "y" = None ->
        out = inl (KeyError "y"))
  /\ (forall result y, run = inr result -> result !! "y" = Some y ->
        is_array y = false -> exists msg, out = inl (TypeError msg))
  /\ (forall result y s, run = inr result -> result !! "y" = Some y ->
        value_shape y = inr s -> (length s < 2)%nat -> out = inl IndexError)
  /\ (forall result y n d rest, run = inr result -> result !! "y" = Some y ->
        value_shape y = inr (n :: d :: rest) -> n0 = 0%nat ->
        out = inl (ValueError "cannot reshape array"))
  /\ (forall result y n d rest, run = inr result -> result !! "y" = Some y ->
        value_shape y = inr (n :: d :: rest) ->
        (0 < n0)%nat -> (n0 <= n <= n0 + 1)%nat -> out = inl IndexError).
Proof.
  intros Hshape n0 run out. subst run out.
  unfold HoleClump.solve, HoleClump.shape_eqb.
  rewrite bool_decide_eq_true_2 by exact Hshape. cbn [py_assert bind ret].
  split; [|split; [|split; [|split; [|split]]]].
  - intros err ->. reflexivity.
  - intros result -> Hy. cbn [bind]. unfold dict_getitem. now rewrite Hy.
  - intros result y -> Hy Harr. cbn [bind]. unfold dict_getitem. rewrite Hy.
    cbn [bind ret].
    destruct y; try discriminate Harr; eexists; reflexivity.
  - intros result y s -> Hy Hs Hlen. cbn [bind]. unfold dict_getitem.
    rewrite Hy. cbn [bind ret].
    destruct y as [| | |a|a]; try discriminate Hs;
      injection Hs as <-; cbn [HoleClump._encode_value];
      unfold HoleClump._encode_time;
      destruct (nd_shape a) as [|n [|d rest]]; try reflexivity;
      simpl in Hlen; lia.
  - intros result y n d rest -> Hy Hs H0. cbn [bind]. unfold dict_getitem.
    rewrite Hy. cbn [bind ret].
    destruct y as [| | |a|a]; try discriminate Hs;
      injection Hs as Hs; cbn [HoleClump._encode_value];
      unfold HoleClump._encode_time; rewrite Hs; fold n0; rewrite H0;
      reflexivity.
  - intros result y n d rest -> Hy Hs Hpos Hn. cbn [bind].
    unfold dict_getitem. rewrite Hy. cbn [bind ret].
    assert (Hmin : Nat.min n0 n = n0) by lia.
    destruct y as [| | |a|a]; try discriminate Hs;
      injection Hs as Hs; cbn [HoleClump._encode_value];
      unfold HoleClump._encode_time; rewrite Hs; fold n0; rewrite Hmin;
      rewrite (Nat.mul_comm n0), Nat.Div0.mod_mul;
      (destruct (Nat.eqb_spec n0 0); [lia|]); cbn [Nat.eqb negb orb];
      (destruct (Nat.ltb_spec n0 n); [|reflexivity]);
      (destruct (Nat.ltb_spec (n0 + 1) n); [lia|reflexivity]).
Qed.

Lemma hc_solve_failures_witness :
  HoleClump.solve (fun _ _ _ _ => ret ∅) model_2x3 (0, 1)
    (matrix 3 [[1; 2; 3]; [4; 5; 6]]) 7 8 ∅
  = inl (KeyError "y")
  /\ HoleClump.solve
       (fun _ _ y0 _ => ret (<["y" := VReal (vector y0)]> ∅)) model_2x3 (0, 1)
       (matrix 3 [[1; 2; 3]; [4; 5; 6]]) 7 8 ∅
     = inl IndexError.
Proof.
  split.
  - destruct (hc_solve_failures (fun _ _ _ _ => ret ∅) model_2x3 (0, 1)
                (matrix 3 [[1; 2; 3]; [4; 5; 6]]) 7 8 ∅ eq_refl)
      as (_ & Hy & _).
    apply (Hy ∅); reflexivity.
  - destruct (hc_solve_failures
                (fun _ _ y0 _ => ret (<["y" := VReal (vector y0)]> ∅))
                model_2x3 (0, 1) (matrix 3 [[1; 2; 3]; [4; 5; 6]]) 7 8 ∅ eq_refl)
      as (_ & _ & _ & H1 & _).
    eapply H1; [reflexivity | reflexivity | reflexivity | simpl; lia].
Defined.

(** X24.  [solve] followed by [to_xarray]: on the integrator's own record,
    which has no [f], the export raises [KeyError]; when the solution has
    the shape [(nx*nv + 2, nt)] on a non-empty grid, [solve] returns a
    record on which the export, whenever it returns, gives a dataset
    holding [F] of shape [(nx, nv, nt)] under the names [x, v, time] and
    [V], [E] of [nt] entries under the name [time], decoded from the
    solution, with the model's grids and the record's [t] as coordinates
    and the three integrator fields of the integrator's record. *)
Theorem hc_solve_then_to_xarray (solve_ivp : integrator Q)
    (self : HoleClump.t) (t_span : Q * Q) (finit : ndarray Q) (vinit einit : Q)
    (kwargs result : gmap string value) (ya : ndarray Q) (nt : nat) :
  let n0 := (HoleClump.nx self * HoleClump.nv self)%nat in
  nd_shape finit = [HoleClump.nx self; HoleClump.nv self] ->
  solve_ivp (HoleClump.dfdt self HoleClump.coef) t_span
    (HoleClump.pack finit vinit einit) kwargs = inr result ->
  result !! "y" = Some (VReal ya) ->
  (0 < n0)%nat -> nd_shape ya = [(n0 + 2)%nat; nt] ->
  result !! "f" = None ->
  fst (HoleClump.to_xarray self result) = inl (KeyError "f")
  /\ exists solved,
       HoleClump.solve solve_ivp self t_span finit vinit einit kwargs = inr solved
       /\ forall ds,
            fst (HoleClump.to_xarray self solved) = inr ds ->
            data_vars ds !! "F"
            = Some (WithDims ["x"; "v"; "time"]
                      (VReal (mk_nd [HoleClump.nx self; HoleClump.nv self; nt]
                                (firstn (n0 * nt) (nd_data ya)))))
            /\ data_vars ds !! "V"
               = Some (WithDims ["time"]
                         (VReal (mk_nd [nt] (firstn nt (skipn (n0 * nt)
                                                          (nd_data ya))))))
            /\ data_vars ds !! "E"
               = Some (WithDims ["time"]
                         (VReal (mk_nd [nt] (firstn nt (skipn ((n0 + 1) * nt)
                                                          (nd_data ya))))))
            /\ coords ds !! "x" = Some (VReal (vector (HoleClump.x self)))
            /\ coords ds !! "v" = Some (VReal (vector (HoleClump.v self)))
            /\ coords ds !! "time" = result !! "t"
            /\ data_vars ds !! "status" = Bare <$> result !! "status"
            /\ data_vars ds !! "message" = Bare <$> result !! "message"
            /\ data_vars ds !! "success" = Bare <$> result !! "success".
Proof.
  intros n0 Hshape Hrun Hy Hpos Hys Hf. split.
  - unfold HoleClump.to_xarray, obj_bind, obj_getitem, dict_getitem.
    now rewrite Hf.
  - eexists. split;
      [exact (hc_solve_value solve_ivp self t_span finit vinit einit kwargs
                result ya nt Hshape Hrun Hy Hpos Hys)|].
    intros ds Hds.
    apply hc_to_xarray_inr in Hds
      as (F & V & E & st & m & s & ts & HF & HV & HE & Hst & Hm & Hs & Ht & ->).
    rewrite (lookup_insert_ne _ "E" "f"), (lookup_insert_ne _ "V" "f"),
      lookup_insert_eq in HF by discriminate.
    rewrite (lookup_insert_ne _ "E" "V"), lookup_insert_eq in HV by discriminate.
    rewrite lookup_insert_eq in HE.
    rewrite !lookup_insert_ne in Hst, Hm, Hs, Ht by discriminate.
    injection HF as <-. injection HV as <-. injection HE as <-.
    rewrite Hst, Hm, Hs, Ht. cbn [data_vars coords].
    repeat split; by simplify_map_eq.
Qed.

Lemma hc_solve_then_to_xarray_witness :
  fst (HoleClump.to_xarray model_2x3
         (<["y" := VReal (mk_nd [8%nat; 1%nat] [1; 2; 3; 4; 5; 6; 7; 8])]> ∅))
  = inl (KeyError "f")
  /\ exists solved,
       HoleClump.solve
         (fun _ _ y0 _ => ret (<["y" := VReal (mk_nd [8%nat; 1%nat] y0)]> ∅))
         model_2x3 (0, 1) (matrix 3 [[1; 2; 3]; [4; 5; 6]]) 7 8 ∅ = inr solved.
Proof.
  destruct (hc_solve_then_to_xarray
              (fun _ _ y0 _ => ret (<["y" := VReal (mk_nd [8%nat; 1%nat] y0)]> ∅))
              model_2x3 (0, 1) (matrix 3 [[1; 2; 3]; [4; 5; 6]]) 7 8 ∅
              _ (mk_nd [8%nat; 1%nat] [1; 2; 3; 4; 5; 6; 7; 8]) 1
              eq_refl eq_refl)
    as (Hraw & solved & Hs & _); try reflexivity; [simpl; lia|].
  split; [exact Hraw|]. exists solved. exact Hs.
Defined.

Lemma rows_entry {A : Type} (d : A) (n m : nat) (l : list A) (i j : nat) :
  length l = (n * m)%nat -> (i < n)%nat -> (j < m)%nat ->
  nth j (nth i (np.rows n m l) []) d = nth (i * m + j) l d.
Proof.
  intros Hl Hi Hj.
  destruct (rows_shape n m l Hl) as (H1 & H2 & H3).
  destruct (lookup_lt_is_Some_2 (np.rows n m l) i) as [r Hr]; [lia|].
  pose proof (proj1 (Forall_lookup _ _) H2 i r Hr) as Hrl. simpl in Hrl.
  destruct (lookup_lt_is_Some_2 r j) as [x Hx]; [lia|].
  rewrite (nth_lookup_Some _ _ _ _ Hr), (nth_lookup_Some _ _ _ _ Hx).
  symmetry. apply nth_lookup_Some. rewrite <- H3 at 1.
  exact (concat_lookup_uniform m _ i j r x H2 Hr Hx).
Qed.

(** X25.  Decoding a trajectory is decoding each of its time columns: for
    a solution of shape [(nx*nv + 2, nt)] stored row by row, the values of
    [F], [V] and [E] that [_encode] with [include_time=True] returns at a
    time index are the ones [_encode] returns on the state vector of that
    time. *)
Theorem encode_time_columns {A : Type} (d : A) (self : HoleClump.t)
    (ya : ndarray A) (nt tcol : nat) :
  let n0 := (HoleClump.nx self * HoleClump.nv self)%nat in
  (0 < n0)%nat -> nd_shape ya = [(n0 + 2)%nat; nt] ->
  length (nd_data ya) = ((n0 + 2) * nt)%nat -> (tcol < nt)%nat ->
  let column := map (fun i => nth (i * nt + tcol) (nd_data ya) d)
                    (seq 0 (n0 + 2)) in
  exists F V E Ft Vt Et,
    HoleClump._encode self column = inr (F, V, E)
    /\ HoleClump._encode_time self ya = inr (Ft, Vt, Et)
    /\ nth tcol (nd_data Vt) d = V
    /\ nth tcol (nd_data Et) d = E
    /\ forall ix iv, (ix < HoleClump.nx self)%nat -> (iv < HoleClump.nv self)%nat ->
         nth ((ix * HoleClump.nv self + iv) * nt + tcol) (nd_data Ft) d
         = nth iv (nth ix F []) d.
Proof.
  intros n0 Hpos Hshape Hlen Ht column.
  assert (Hcol : forall i, (i < n0 + 2)%nat ->
                   column !! i = Some (nth (i * nt + tcol) (nd_data ya) d)).
  { intros i Hi. unfold column. now rewrite lookup_map, lookup_seq_lt. }
  assert (Hdata : forall k, (k < (n0 + 2) * nt)%nat ->
                    nd_data ya !! k = Some (nth k (nd_data ya) d)).
  { intros k Hk. destruct (lookup_lt_is_Some_2 (nd_data ya) k) as [x Hx]; [lia|].
    now rewrite (nth_lookup_Some _ _ _ _ Hx). }
  do 6 eexists.
  split; [apply encode_long; apply Hcol; lia|].
  split; [exact (encode_time_ok self ya nt Hpos Hshape)|].
  cbn [nd_data]. fold n0.
  split; [|split].
  - apply nth_lookup_Some.
    rewrite lookup_take_lt, lookup_drop by lia. apply Hdata. nia.
  - apply nth_lookup_Some.
    rewrite lookup_take_lt, lookup_drop by lia. apply Hdata. nia.
  - intros ix iv Hix Hiv.
    assert (Hk : (ix * HoleClump.nv self + iv < n0)%nat) by (unfold n0; nia).
    rewrite (rows_entry d)
      by (try assumption; rewrite length_take; unfold column;
          rewrite length_map, length_seq; lia).
    rewrite (nth_lookup_Some _ _ d (nth ((ix * HoleClump.nv self + iv) * nt + tcol)
                                      (nd_data ya) d)).
    2:{ rewrite lookup_take_lt by nia. apply Hdata. nia. }
    symmetry. apply nth_lookup_Some.
    rewrite lookup_take_lt by lia. apply Hcol. lia.
Qed.

Lemma encode_time_columns_witness :
  exists F V E Ft Vt Et,
    HoleClump._encode model_2x3 [1; 3; 5; 7; 9; 11; 13; 15] = inr (F, V, E)
    /\ HoleClump._encode_time model_2x3
         (mk_nd [8%nat; 2%nat]
            [0; 1; 2; 3; 4; 5; 6; 7; 8; 9; 10; 11; 12; 13; 14; 15])
       = inr (Ft, Vt, Et)
    /\ nth 1 (nd_data Vt) 0 = V /\ nth 1 (nd_data Et) 0 = E.
Proof.
  destruct (encode_time_columns 0 model_2x3
              (mk_nd [8%nat; 2%nat]
                 [0; 1; 2; 3; 4; 5; 6; 7; 8; 9; 10; 11; 12; 13; 14; 15]) 2 1)
    as (F & V & E & Ft & Vt & Et & H1 & H2 & H3 & H4 & _);
    [simpl; lia | reflexivity | reflexivity | lia |].
  exists F, V, E, Ft, Vt, Et. auto.
Defined.

(** ** The constructor on IEEE doubles *)

(** X26.  On IEEE doubles the constructor does not return on every odd
    grid of at least three points per axis.  For [kmax = 1e8] on a
    [7 x 9] grid the wavenumbers [np.linspace] gives are rounded, the sum
    [kx[0] + kx[4] + kx[5]] of the valid triad of the target [(0, 0)] and
    the partner [(4, 4)] is below [-1e-8], the absolute tolerance of
    [np.allclose], and the first sanity assertion of [_setup] raises; on
    rationals the same sum is zero and the same call returns.  On the
    [3 x 3] grid with [kmax = 10] both readings return, with the same
    index arrays. *)
Theorem binary64_sanity_check_fails :
  Binary64.__init__ (Binary64.of_Z 100000000) 7 9 = inl (AssertionError "kxsum")
  /\ (exists kxs,
        Binary64.linspace (Binary64.of_Z (-100000000)) (Binary64.of_Z 100000000) 7
        = inr kxs
        /\ PrimFloat.ltb (Binary64.kxsum kxs 0 4) (PrimFloat.opp Binary64.atol)
           = true)
  /\ (exists self, HasegawaMimaFourier.__init__ 100000000 7 9 = inr self)
  /\ (exists b self,
        Binary64.__init__ (Binary64.of_Z 10) 3 3 = inr b
        /\ HasegawaMimaFourier.__init__ 10 3 3 = inr self
        /\ Binary64.index_px b = HasegawaMimaFourier.index_px self
        /\ Binary64.index_py b = HasegawaMimaFourier.index_py self
        /\ Binary64.index_qx b = HasegawaMimaFourier.index_qx self
        /\ Binary64.index_qy b = HasegawaMimaFourier.index_qy self).
Proof.
  split; [vm_compute; reflexivity|].
  split; [eexists; split; vm_compute; reflexivity|].
  split.
  - destruct (init_total 100000000 7 9) as (self & _ & _ & Hinit & _);
      try reflexivity; try lia.
    now exists self.
  - destruct (Binary64.__init__ (Binary64.of_Z 10) 3 3) as [e|b] eqn:Hb;
      [vm_compute in Hb; discriminate Hb|].
    destruct (HasegawaMimaFourier.__init__ 10 3 3) as [e|self] eqn:Hs;
      [vm_compute in Hs; discriminate Hs|].
    exists b, self.
    split; [reflexivity|]. split; [reflexivity|].
    vm_compute in Hb. injection Hb as <-.
    vm_compute in Hs. injection Hs as <-.
    repeat split.
Qed.
